(** * Playwright test runner: configuration loading

    A shallow embedding of [configLoader.ts] (the fragment merger
    [defineConfig], the validators [validateConfig], [validateProject] and
    [validateTestOptions], the location resolver [resolveConfigFile] and the
    part of [loadConfig] that records whether [defineConfig] was used) and of
    [schemas/testOptions.ts], followed by the properties that the
    specification states about them, and by further properties of the code:
    merges of any number of fragments, what the validators accept and what
    they throw, and the entry points [loadConfigFromFile] and
    [loadEmptyConfigForMergeReports]. *)

From stdpp Require Import gmap strings list fin_maps pretty.

#[local] Set Warnings "-register-all,-clear-no-such-hyp".
#[local] Open Scope Z_scope.
#[local] Open Scope string_scope.
#[local] Open Scope list_scope.

(** ** JavaScript values *)

Module JS.

(** The values a configuration is made of.  Numbers are the integers.  An
    object is its string-keyed own properties together with one bit: whether
    it carries the module-private symbol [kDefineConfigWasUsed], the only
    symbol-keyed property this program ever writes.  Functions and [Buffer]s
    are not modelled. *)
Inductive value :=
| VUndef
| VNull
| VBool (b : bool)
| VNum (z : Z)
| VStr (s : string)
| VRegExp (source : string)
| VArr (items : list value)
| VObj (props : gmap string value) (mark : bool).

(** What a function body produces: a value, or an exception. *)
Inductive thrown :=
| TypeError
| PlainError (text : string)
| ErrorWithFile (file text : string) (received : option value).

Inductive outcome (A : Type) :=
| Returns (a : A)
| Throws (e : thrown).
Arguments Returns {A} a.
Arguments Throws {A} e.

#[export] Instance outcome_ret : MRet outcome := λ A a, Returns a.
#[export] Instance outcome_bind : MBind outcome := λ A B k c,
  match c with
  | Returns a => k a
  | Throws e => Throws e
  end.

(** [for (const x of xs) body(x)] for a body that only returns or throws. *)
Fixpoint forEach {A} (body : nat → A → outcome unit) (i : nat) (xs : list A)
  : outcome unit :=
  match xs with
  | [] => Returns ()
  | x :: rest => body i x ;; forEach body (S i) rest
  end.

(** [!!v] *)
Definition truthy (v : value) : bool :=
  match v with
  | VUndef | VNull => false
  | VBool b => b
  | VNum z => negb (Z.eqb z 0)
  | VStr s => negb (String.eqb s "")
  | VRegExp _ | VArr _ | VObj _ _ => true
  end.

(** [v === undefined || v === null] *)
Definition nullish (v : value) : bool :=
  match v with VUndef | VNull => true | _ => false end.

(** [typeof v === 'object'] *)
Definition typeof_object (v : value) : bool :=
  match v with
  | VNull | VRegExp _ | VArr _ | VObj _ _ => true
  | _ => false
  end.

Definition is_undefined (v : value) : bool :=
  match v with VUndef => true | _ => false end.

Definition is_string (v : value) : bool :=
  match v with VStr _ => true | _ => false end.

Definition isRegExp (v : value) : bool :=
  match v with VRegExp _ => true | _ => false end.

Definition isArray (v : value) : bool :=
  match v with VArr _ => true | _ => false end.

(** [o.k] on the property table of an object: [undefined] when absent. *)
Definition prop (o : gmap string value) (k : string) : value :=
  default VUndef (o !! k).

Definition chars (s : string) : list value :=
  (λ c, VStr (String c EmptyString)) <$> String.list_ascii_of_string s.

(** The own enumerable string-keyed properties of an array: its indices. *)
Definition index_props (l : list value) : gmap string value :=
  list_to_map (imap (λ i v, (pretty i, v)) l).

(** The string-keyed properties [{...v}] copies: the own enumerable
    properties of [v].  Spreading [undefined], [null], a boolean, a number or
    a regular expression copies nothing. *)
Definition spread (v : value) : gmap string value :=
  match v with
  | VObj o _ => o
  | VArr l => index_props l
  | VStr s => index_props (chars s)
  | _ => ∅
  end.

(** Whether [v] carries the symbol, which a spread copies as well. *)
Definition marked (v : value) : bool :=
  match v with VObj _ m => m | _ => false end.

(** [{...a, ...b}] *)
Definition spread2 (a b : value) : value :=
  VObj (spread b ∪ spread a) (marked a || marked b).

(** [v.k] on a value that is neither [undefined] nor [null], for [k] one of
    [name], [use]: [undefined] on the values that are not objects, none of
    which defines such a property. *)
Definition field (v : value) (k : string) : value :=
  match v with
  | VObj o _ => prop o k
  | _ => VUndef
  end.

(** [v.k] for such a [k] on any value: a [TypeError] on [undefined] and
    [null]. *)
Definition member (v : value) (k : string) : outcome value :=
  match v with
  | VUndef | VNull => Throws TypeError
  | _ => Returns (field v k)
  end.

(** [for (const x of v || [])]: the sequence the loop runs over.  A truthy
    value that is neither an array nor a string is not iterable. *)
Definition iterate (v : value) : outcome (list value) :=
  if truthy v then
    match v with
    | VArr l => Returns l
    | VStr s => Returns (chars s)
    | _ => Throws TypeError
    end
  else Returns [].

(** The comparison [Map] uses on its keys (SameValueZero).  Primitives are
    compared by value.  Objects, arrays and regular expressions are compared
    by identity: two of them met at different places of the input are
    different objects. *)
Definition same_value_zero (a b : value) : bool :=
  match a, b with
  | VUndef, VUndef | VNull, VNull => true
  | VBool x, VBool y => Bool.eqb x y
  | VNum x, VNum y => Z.eqb x y
  | VStr x, VStr y => String.eqb x y
  | _, _ => false
  end.

(** A [Map]: its entries in insertion order. *)
Abbreviation Map := (list (value * value)).

(** [m.set(k, v)]: a known key keeps its place and takes the new value. *)
Fixpoint map_set (k v : value) (m : Map) : Map :=
  match m with
  | [] => [(k, v)]
  | (k', v') :: rest =>
      if same_value_zero k' k then (k', v) :: rest
      else (k', v') :: map_set k v rest
  end.

(** [m.get(k)], [None] standing for an absent key. *)
Fixpoint map_get (k : value) (m : Map) : option value :=
  match m with
  | [] => None
  | (k', v') :: rest =>
      if same_value_zero k' k then Some v' else map_get k rest
  end.

(** [m.delete(k)] *)
Fixpoint map_delete (k : value) (m : Map) : Map :=
  match m with
  | [] => []
  | (k', v') :: rest =>
      if same_value_zero k' k then rest else (k', v') :: map_delete k rest
  end.

(** [[...m.values()]] *)
Definition map_values (m : Map) : list value := m.*2.

End JS.

Import JS.

(** ** The fragment merger *)

Module Merge.

(** [Array.isArray(w) ? w : (w ? [w] : [])] *)
Definition webServerList (w : value) : list value :=
  match w with
  | VArr l => l
  | _ => if truthy w then [w] else []
  end.

(** The loop filling [projectOverrides]. *)
Fixpoint collectOverrides (overrides : list value) (m : Map) : outcome Map :=
  match overrides with
  | [] => Returns m
  | project :: rest =>
      name ← member project "name";
      collectOverrides rest (map_set name project m)
  end.

(** [{...project, ...projectOverride,
      use: {...project.use, ...projectOverride.use}}] *)
Definition overrideProject (project projectOverride : value) : value :=
  VObj (<["use" := spread2 (field project "use")
                           (field projectOverride "use")]>
          (spread projectOverride ∪ spread project))
       (marked project || marked projectOverride).

(** The loop over [prevProjects]: the projects pushed, and what is left of
    [projectOverrides]. *)
Fixpoint mergeLoop (prev : list value) (m : Map) : outcome (list value * Map) :=
  match prev with
  | [] => Returns ([], m)
  | project :: rest =>
      name ← member project "name";
      match map_get name m with
      | Some projectOverride =>
          if truthy projectOverride then
            r ← mergeLoop rest (map_delete name m);
            Returns (overrideProject project projectOverride :: r.1, r.2)
          else
            r ← mergeLoop rest m;
            Returns (project :: r.1, r.2)
      | None =>
          r ← mergeLoop rest m;
          Returns (project :: r.1, r.2)
      end
  end.

(** Lines 65 to 86: the new project list, from [prevProjects] and
    [config.projects]. *)
Definition mergeProjects (prevProjects configProjects : value)
  : outcome (list value) :=
  overrides ← iterate configProjects;
  projectOverrides ← collectOverrides overrides [];
  prev ← iterate prevProjects;
  r ← mergeLoop prev projectOverrides;
  Returns (r.1 ++ map_values r.2).

(** The object literal of lines 41 to 60. *)
Definition mergeFields (result config : gmap string value) : gmap string value :=
  <["webServer" := VArr (webServerList (prop result "webServer") ++
                         webServerList (prop config "webServer"))]>
  (<["build" := spread2 (prop result "build") (prop config "build")]>
  (<["use" := spread2 (prop result "use") (prop config "use")]>
  (<["expect" := spread2 (prop result "expect") (prop config "expect")]>
  (config ∪ result)))).

(** One turn of the loop of [defineConfig].  A fragment is an object: its
    property table and its mark. *)
Definition mergeStep (result config : gmap string value * bool)
  : outcome (gmap string value * bool) :=
  let prevProjects := prop result.1 "projects" in
  let merged := mergeFields result.1 config.1 in
  let mark := result.2 || config.2 in
  if negb (truthy (prop merged "projects")) &&
     negb (truthy (prop config.1 "projects"))
  then Returns (merged, mark)
  else
    projects ← mergeProjects prevProjects (prop config.1 "projects");
    Returns (<["projects" := VArr projects]> merged, mark).

Fixpoint mergeFrom (result : gmap string value * bool)
    (configs : list (gmap string value * bool))
  : outcome (gmap string value * bool) :=
  match configs with
  | [] => Returns result
  | config :: rest =>
      result' ← mergeStep result config;
      mergeFrom result' rest
  end.

(** [defineConfig(...configs)].  With no argument [result] is [undefined]
    and the final assignment throws. *)
Definition defineConfig (configs : list (gmap string value * bool))
  : outcome (gmap string value * bool) :=
  match configs with
  | [] => Throws TypeError
  | first :: rest =>
      result ← mergeFrom first rest;
      Returns (result.1, true)
  end.

End Merge.

(** ** The schema library

    [zod] is a dependency, bundled in [playwright-core/lib/mcpBundle]; it is
    not code of the repository.  This is a model of the part of it that
    [schemas/testOptions.ts] uses, after the behaviour and the English
    messages of its version 4 (the version that has [.loose()] and the issue
    code [invalid_value]): a schema, run on a value, yields the list of
    issues found, in the order the library reports them.  The entries of a
    record are visited in the order of the property table, which bears only
    on which of several offending entries is reported first. *)

Module Zod.

Inductive pathseg :=
| PKey (k : string)
| PIdx (i : nat).

Inductive issue_code :=
| invalid_type
| invalid_value
| too_small
| too_big
| invalid_union
| custom.

(** An issue.  [continue] is the library's flag on issues raised by a
    check, after which parsing goes on. *)
Record issue := Issue {
  code : issue_code;
  path : list pathseg;
  message : string;
  continue : bool
}.

Inductive check :=
| Gt (bound : Z)      (* [.positive()] is [Gt 0] *)
| Gte (bound : Z)     (* [.nonnegative()] is [Gte 0], [.min(b)] is [Gte b] *)
| Lte (bound : Z)     (* [.max(b)] *)
| Int.                (* [.int()] *)

Inductive schema :=
| ZString
| ZNumber (checks : list check)
| ZBoolean
| ZNull
| ZAny
| ZEnum (options : list string)
| ZLiteral (literal : string)
| ZInstanceof (class : string)
| ZArray (element : schema)
| ZRecord (values : schema)          (* [zod.record(zod.string(), values)] *)
| ZObject (shape : list (string * schema)) (loose : bool)
| ZUnion (options : list schema)
| ZOptional (inner : schema).

Definition parsedType (v : value) : string :=
  match v with
  | VUndef => "undefined"
  | VNull => "null"
  | VBool _ => "boolean"
  | VNum _ => "number"
  | VStr _ => "string"
  | VRegExp _ => "RegExp"
  | VArr _ => "array"
  | VObj _ _ => "object"
  end.

Definition invalidType (expected : string) (v : value) : issue :=
  Issue invalid_type []
    ("Invalid input: expected " +:+ expected +:+ ", received " +:+ parsedType v)
    false.

(** The double quote character. *)
Definition dquote : string := String (Ascii.ascii_of_nat 34) EmptyString.

Definition quoted (s : string) : string := dquote +:+ s +:+ dquote.

Definition invalidOption (options : list string) : issue :=
  Issue invalid_value []
    (match options with
     | [one] => "Invalid input: expected " +:+ quoted one
     | _ => "Invalid option: expected one of " +:+
            String.concat "|" (quoted <$> options)
     end)
    false.

Definition MAX_SAFE_INTEGER : Z := 9007199254740991.

Definition runCheck (z : Z) (c : check) : list issue :=
  match c with
  | Gt b =>
      if decide (z ≤ b)%Z
      then [Issue too_small [] ("Too small: expected number to be >" +:+ pretty b) true]
      else []
  | Gte b =>
      if decide (z < b)%Z
      then [Issue too_small [] ("Too small: expected number to be >=" +:+ pretty b) true]
      else []
  | Lte b =>
      if decide (b < z)%Z
      then [Issue too_big [] ("Too big: expected number to be <=" +:+ pretty b) true]
      else []
  | Int =>
      if decide (MAX_SAFE_INTEGER < z)%Z
      then [Issue too_big [] ("Too big: expected int to be <=" +:+ pretty MAX_SAFE_INTEGER) true]
      else if decide (z < - MAX_SAFE_INTEGER)%Z
      then [Issue too_small [] ("Too small: expected int to be >=" +:+ pretty (- MAX_SAFE_INTEGER)%Z) true]
      else []
  end.

(** [prefixIssues(key, issues)] *)
Definition prefixIssues (seg : pathseg) (issues : list issue) : list issue :=
  (λ i, Issue (code i) (seg :: path i) (message i) (continue i)) <$> issues.

(** A result is aborted when one of its issues does not let parsing go on. *)
Definition aborted (issues : list issue) : bool :=
  existsb (λ i, negb (continue i)) issues.

(** What a union reports once every option has failed with [results]: the
    issues of the only option that was not aborted, when there is exactly
    one, and an [invalid_union] issue otherwise. *)
Definition handleUnionResults (results : list (list issue)) : list issue :=
  match filter (λ r, aborted r = false) results with
  | [only] => only
  | _ => [Issue invalid_union [] "Invalid input" false]
  end.

(** [typeof v === 'object' && v !== null && !Array.isArray(v)] *)
Definition isObject (v : value) : bool :=
  match v with VObj _ _ | VRegExp _ => true | _ => false end.

(** [schema.safeParse(v)]: the issues, none when [v] is accepted.  An object
    schema reads the declared keys only, in the order of their declaration;
    keys that are not declared are neither read nor reported, whether the
    schema is loose (they are kept in the parsed output) or not (they are
    stripped from it).  No value here is an instance of a class ([Buffer]s
    are not modelled), so [instanceof] always finds a mismatch of type. *)
Fixpoint parse (s : schema) (v : value) : list issue :=
  match s with
  | ZString => if is_string v then [] else [invalidType "string" v]
  | ZNumber checks =>
      match v with
      | VNum z => checks ≫= runCheck z
      | _ => [invalidType "number" v]
      end
  | ZBoolean => match v with VBool _ => [] | _ => [invalidType "boolean" v] end
  | ZNull => match v with VNull => [] | _ => [invalidType "null" v] end
  | ZAny => []
  | ZEnum options =>
      match v with
      | VStr x => if decide (x ∈ options) then [] else [invalidOption options]
      | _ => [invalidOption options]
      end
  | ZLiteral literal =>
      match v with
      | VStr x => if decide (x = literal) then [] else [invalidOption [literal]]
      | _ => [invalidOption [literal]]
      end
  | ZInstanceof class => [invalidType class v]
  | ZArray element =>
      match v with
      | VArr items =>
          mjoin (imap (λ i x, prefixIssues (PIdx i) (parse element x)) items)
      | _ => [invalidType "array" v]
      end
  | ZRecord values =>
      match v with
      | VObj o _ =>
          map_to_list o ≫= λ kx, prefixIssues (PKey kx.1) (parse values kx.2)
      | _ => [invalidType "record" v]
      end
  | ZObject shape _ =>
      if isObject v then
        (fix fields (shape : list (string * schema)) : list issue :=
           match shape with
           | [] => []
           | (k, s') :: rest =>
               prefixIssues (PKey k) (parse s' (field v k)) ++ fields rest
           end) shape
      else [invalidType "object" v]
  | ZUnion options =>
      let results := (λ s', parse s' v) <$> options in
      if existsb (λ r, match r with [] => true | _ => false end) results then []
      else handleUnionResults results
  | ZOptional inner =>
      if is_undefined v then [] else parse inner v
  end.

End Zod.

(** ** The schema of the test options ([schemas/testOptions.ts]) *)

Module TestOptions.
Import Zod.

Definition object (shape : list (string * schema)) : schema := ZObject shape false.
Definition optional : schema → schema := ZOptional.
Definition positive : schema := ZNumber [Gt 0].
Definition nonnegative : schema := ZNumber [Gte 0].

Definition viewportSchema : schema := object [
  ("width", ZNumber [Int; Gt 0]);
  ("height", ZNumber [Int; Gt 0])
].

Definition geolocationSchema : schema := object [
  ("longitude", ZNumber [Gte (-180); Lte 180]);
  ("latitude", ZNumber [Gte (-90); Lte 90]);
  ("accuracy", optional nonnegative)
].

Definition proxySchema : schema := object [
  ("server", ZString);
  ("bypass", optional ZString);
  ("username", optional ZString);
  ("password", optional ZString)
].

Definition storageStateSchema : schema := ZUnion [
  ZString;
  object [
    ("cookies", optional (ZArray (object [
      ("name", ZString);
      ("value", ZString);
      ("domain", ZString);
      ("path", ZString);
      ("expires", optional (ZNumber []));
      ("httpOnly", optional ZBoolean);
      ("secure", optional ZBoolean);
      ("sameSite", optional (ZEnum ["Strict"; "Lax"; "None"]))
    ])));
    ("origins", optional (ZArray (object [
      ("origin", ZString);
      ("localStorage", optional (ZArray (object [
        ("name", ZString);
        ("value", ZString)
      ])))
    ])))
  ]
].

Definition httpCredentialsSchema : schema := object [
  ("username", ZString);
  ("password", ZString);
  ("origin", optional ZString);
  ("send", optional (ZEnum ["always"; "unauthorized"]))
].

Definition clientCertificateSchema : schema := object [
  ("origin", ZString);
  ("certPath", optional ZString);
  ("keyPath", optional ZString);
  ("pfxPath", optional ZString);
  ("cert", optional ZString);
  ("key", optional ZString);
  ("pfx", optional (ZInstanceof "Buffer"));
  ("passphrase", optional ZString)
].

Definition screenshotOptionsSchema : schema := object [
  ("mode", ZEnum ["on"; "off"; "only-on-failure"]);
  ("fullPage", optional ZBoolean);
  ("omitBackground", optional ZBoolean)
].

Definition traceOptionsSchema : schema := object [
  ("mode", ZEnum ["on"; "off"; "retain-on-failure"; "on-first-retry"]);
  ("snapshots", optional ZBoolean);
  ("screenshots", optional ZBoolean);
  ("sources", optional ZBoolean);
  ("attachments", optional ZBoolean)
].

Definition videoOptionsSchema : schema := object [
  ("mode", ZEnum ["on"; "off"; "retain-on-failure"; "on-first-retry"]);
  ("size", optional (object [
    ("width", ZNumber [Int; Gt 0]);
    ("height", ZNumber [Int; Gt 0])
  ]))
].

Definition launchOptionsSchema : schema := object [
  ("channel", optional ZString);
  ("chromiumSandbox", optional ZBoolean);
  ("downloadsPath", optional ZString);
  ("executablePath", optional ZString);
  ("args", optional (ZArray ZString));
  ("ignoreDefaultArgs", optional (ZUnion [ZBoolean; ZArray ZString]));
  ("headless", optional (ZUnion [ZBoolean; ZLiteral "new"]));
  ("proxy", optional proxySchema);
  ("timeout", optional positive);
  ("slowMo", optional nonnegative);
  ("devtools", optional ZBoolean);
  ("env", optional (ZRecord ZString));
  ("handleSIGINT", optional ZBoolean);
  ("handleSIGTERM", optional ZBoolean);
  ("handleSIGHUP", optional ZBoolean)
].

Definition browserNameSchema : schema := ZEnum ["chromium"; "firefox"; "webkit"].

Definition testOptionsShape : list (string * schema) := [
  ("agentOptions", optional (object [
    ("model", ZString);
    ("apiKey", ZString);
    ("api", optional (ZEnum ["openai"; "openai-compatible"; "anthropic"; "google"]))
  ]));
  ("browserName", optional browserNameSchema);
  ("defaultBrowserType", optional browserNameSchema);
  ("channel", optional ZString);
  ("headless", optional ZBoolean);
  ("launchOptions", optional launchOptionsSchema);
  ("connectOptions", optional (object [
    ("wsEndpoint", ZString);
    ("headers", optional (ZRecord ZString));
    ("timeout", optional positive);
    ("_exposeNetwork", optional ZString)
  ]));
  ("viewport", optional (ZUnion [viewportSchema; ZNull]));
  ("deviceScaleFactor", optional positive);
  ("hasTouch", optional ZBoolean);
  ("isMobile", optional ZBoolean);
  ("userAgent", optional ZString);
  ("baseURL", optional ZString);
  ("geolocation", optional (ZUnion [geolocationSchema; ZNull]));
  ("locale", optional ZString);
  ("timezoneId", optional ZString);
  ("offline", optional ZBoolean);
  ("acceptDownloads", optional ZBoolean);
  ("bypassCSP", optional ZBoolean);
  ("extraHTTPHeaders", optional (ZRecord ZString));
  ("ignoreHTTPSErrors", optional ZBoolean);
  ("proxy", optional (ZUnion [proxySchema; ZNull]));
  ("clientCertificates", optional (ZArray clientCertificateSchema));
  ("colorScheme", optional (ZEnum ["light"; "dark"; "no-preference"; "null"]));
  ("forcedColors", optional (ZEnum ["active"; "none"; "null"]));
  ("reducedMotion", optional (ZEnum ["no-preference"; "reduce"; "null"]));
  ("httpCredentials", optional (ZUnion [httpCredentialsSchema; ZNull]));
  ("storageState", optional (ZUnion [storageStateSchema; ZNull]));
  ("javaScriptEnabled", optional ZBoolean);
  ("permissions", optional (ZArray ZString));
  ("serviceWorkers", optional (ZEnum ["allow"; "block"]));
  ("screenshot", optional (ZUnion [
    ZEnum ["on"; "off"; "only-on-failure"];
    screenshotOptionsSchema
  ]));
  ("trace", optional (ZUnion [
    ZEnum ["on"; "off"; "retain-on-failure"; "on-first-retry"; "retry-with-trace"];
    traceOptionsSchema
  ]));
  ("video", optional (ZUnion [
    ZEnum ["on"; "off"; "retain-on-failure"; "on-first-retry"; "retry-with-video"];
    videoOptionsSchema
  ]));
  ("actionTimeout", optional nonnegative);
  ("navigationTimeout", optional nonnegative);
  ("testIdAttribute", optional ZString);
  ("ignoreSnapshots", optional ZBoolean);
  ("contextOptions", optional (ZRecord ZAny))
].

(** [zod.object({...}).loose()] *)
Definition testOptionsSchema : schema := ZObject testOptionsShape true.

End TestOptions.

(** ** What the loader asks of its environment *)

Module Host.

(** Node's [fs] and [path], the process, the module loader of
    [transform.ts] and [esmLoaderHost.ts], and the schema of [schemas/config.ts]. *)
Record host := {
  existsSync : string → bool;                 (* [fs.existsSync] *)
  isDirectory : string → bool;                (* [fs.statSync(p).isDirectory()] *)
  path_resolve : list string → string;        (* [path.resolve(...segments)] *)
  path_dirname : string → string;             (* [path.dirname] *)
  cwd : string;                               (* [process.cwd()] *)
  registerESMLoader : bool;
  fileIsModule : string → bool;
  requireOrImport : string → outcome value;
  configShape : list (string * Zod.schema)    (* see [testConfigSchema] *)
}.

End Host.

(** ** The validators *)

Module Validate.
Import Zod TestOptions Host.

Definition segment (s : pathseg) : string :=
  match s with
  | PKey k => k
  | PIdx i => pretty i
  end.

(** [issue.path.join('.')] *)
Definition joinPath (p : list pathseg) : string :=
  String.concat "." (segment <$> p).

(** [v[k]] on a value that is neither [undefined] nor [null]. *)
Definition element (v : value) (k : string) : value :=
  prop (spread v) k.

(** [for (const key of path) current = current[key]] *)
Fixpoint walk (current : value) (p : list pathseg) : outcome value :=
  match p with
  | [] => Returns current
  | key :: rest =>
      match current with
      | VUndef | VNull => Throws TypeError
      | _ => walk (element current (segment key)) rest
      end
  end.

(** [s.replace(pattern, '')]: the first occurrence is removed. *)
Fixpoint removeFirst (pattern s : string) : string :=
  if String.prefix pattern s
  then String.substring (String.length pattern)
         (String.length s - String.length pattern) s
  else match s with
       | EmptyString => EmptyString
       | String c rest => String c (removeFirst pattern rest)
       end.

(** [errorWithFile(file, `Configuration option "${path}" ${message}`)].  With
    [received = Some v] the message goes on with a line
    [Received: ${JSON.stringify(v)}]. *)
Definition optionError (file path message : string) (received : option value)
  : thrown :=
  ErrorWithFile file ("Configuration option " +:+ quoted path +:+ " " +:+ message)
    received.

(** The [catch] block of [validateTestOptions], on the first issue. *)
Definition reportOptionsIssue (file : string) (use : value) (title : string)
    (issue : issue) : thrown :=
  let path := joinPath (Zod.path issue) in
  let fullPath :=
    if negb (String.eqb path "") then title +:+ "." +:+ path else title in
  match code issue with
  | invalid_type =>
      match match Zod.path issue with
            | [] => Returns VUndef
            | _ => walk use (Zod.path issue)
            end with
      | Returns receivedValue =>
          optionError file fullPath
            (removeFirst "Invalid input: " (message issue)) (Some receivedValue)
      | Throws e => e
      end
  | invalid_value =>
      let receivedValue :=
        match Zod.path issue with [] => VUndef | _ => element use path end in
      optionError file fullPath (message issue) (Some receivedValue)
  | too_small | too_big =>
      let receivedValue :=
        match Zod.path issue with [] => VUndef | _ => element use path end in
      optionError file fullPath (message issue) (Some receivedValue)
  | _ => optionError file fullPath (message issue) None
  end.

(** [validateTestOptions(file, use, title)].  The library's error always has
    an issue, so the final [throw error] of the [catch] block is never
    reached. *)
Definition validateTestOptions (file : string) (use : value) (title : string)
  : outcome unit :=
  match parse testOptionsSchema use with
  | [] => Returns ()
  | issue :: _ => Throws (reportOptionsIssue file use title issue)
  end.

Definition patternError (file label : string) : thrown :=
  ErrorWithFile file (label +:+ " must be a string or a RegExp") None.

(** The body of the loop over [testIgnore] and [testMatch]. *)
Definition validatePatterns (file : string) (project : value) (title prop : string)
  : outcome unit :=
  if bool_decide (is_Some (spread project !! prop)) &&
     negb (is_undefined (element project prop))
  then
    let value := element project prop in
    match value with
    | VArr items =>
        forEach (λ index item,
          if negb (is_string item) && negb (isRegExp item)
          then Throws (patternError file
                 (title +:+ "." +:+ prop +:+ "[" +:+ pretty index +:+ "]"))
          else Returns ()) 0%nat items
    | _ =>
        if negb (is_string value) && negb (isRegExp value)
        then Throws (patternError file (title +:+ "." +:+ prop))
        else Returns ()
    end
  else Returns ().

(** [validateProject(file, project, title)] *)
Definition validateProject (file : string) (project : value) (title : string)
  : outcome unit :=
  if negb (typeof_object project) || negb (truthy project)
  then Throws (ErrorWithFile file (title +:+ " must be an object") None)
  else
    forEach (λ _ prop, validatePatterns file project title prop) 0%nat
      ["testIgnore"; "testMatch"] ;;
    if bool_decide (is_Some (spread project !! "use")) &&
       negb (is_undefined (element project "use"))
    then
      let use := element project "use" in
      if negb (truthy use) || negb (typeof_object use)
      then Throws (ErrorWithFile file (title +:+ ".use must be an object") None)
      else validateTestOptions file use (title +:+ ".use")
    else Returns ().

(** The [catch] block of [validateConfig], on the first issue. *)
Definition reportConfigIssue (file : string) (config : value) (issue : issue)
  : thrown :=
  let path := joinPath (Zod.path issue) in
  match code issue with
  | invalid_type =>
      match match Zod.path issue with
            | [] => Returns VUndef
            | _ => walk config (Zod.path issue)
            end with
      | Returns receivedValue =>
          optionError file path
            (removeFirst "Invalid input: " (message issue)) (Some receivedValue)
      | Throws e => e
      end
  | invalid_value =>
      let receivedValue :=
        match Zod.path issue with [] => VUndef | _ => element config path end in
      optionError file path (message issue) (Some receivedValue)
  | too_small | too_big =>
      let receivedValue :=
        match Zod.path issue with [] => VUndef | _ => element config path end in
      optionError file path (message issue) (Some receivedValue)
  | _ =>
      let propertyName :=
        if negb (String.eqb path "") then path else "configuration" in
      optionError file propertyName (message issue) None
  end.

(** Modelled from the spec: [testConfigSchema], the schema of
    [schemas/config.ts], is not part of the sources at hand.  The
    specification makes it an open object schema ("unrecognized top-level
    keys are tolerated"); the keys it declares and their schemas are left to
    the environment. *)
Definition testConfigSchema (h : host) : schema := ZObject (configShape h) true.

(** The loop over [config.projects]. *)
Definition validateProjects (file : string) (projects : value) : outcome unit :=
  if truthy projects then
    match projects with
    | VArr items =>
        forEach (λ index project,
          validateProject file project
            ("config.projects[" +:+ pretty index +:+ "]")) 0%nat items
    | _ => Throws TypeError
    end
  else Returns ().

(** The check that the file named by [config.tsconfig] exists. *)
Definition validateTsconfig (h : host) (file : string) (tsconfig : value)
  : outcome unit :=
  match tsconfig with
  | VStr name =>
      if truthy tsconfig && negb (existsSync h (path_resolve h [file; ".."; name]))
      then Throws (ErrorWithFile file "config.tsconfig does not exist" None)
      else Returns ()
  | _ => Returns ()
  end.

(** [validateConfig(file, config)] *)
Definition validateConfig (h : host) (file : string) (config : value)
  : outcome unit :=
  if negb (typeof_object config) || negb (truthy config)
  then Throws (ErrorWithFile file "Configuration file must export a single object" None)
  else
    match parse (testConfigSchema h) config with
    | issue :: _ => Throws (reportConfigIssue file config issue)
    | [] =>
        validateProject file config "config" ;;
        (if negb (is_undefined (element config "use"))
         then validateTestOptions file (element config "use") "config.use"
         else Returns ()) ;;
        validateProjects file (element config "projects") ;;
        validateTsconfig h file (element config "tsconfig")
    end.

End Validate.

(** ** The location resolver *)

Module Locate.
Import Host.

Record ConfigLocation := {
  resolvedConfigFile : option string;
  configDir : string
}.

(** A string used as a condition: [undefined] and the empty string are
    falsy. *)
Definition given (s : option string) : option string :=
  match s with
  | Some x => if String.eqb x "" then None else Some x
  | None => None
  end.

Definition extensions : list string :=
  [".ts"; ".js"; ".mts"; ".mjs"; ".cts"; ".cjs"].

Definition resolveConfig (h : host) (configFile : string) : option string :=
  if existsSync h configFile then Some configFile else None.

(** The loop of [resolveConfigFileFromDirectory] over the extensions. *)
Fixpoint firstConfigFile (h : host) (directory : string) (exts : list string)
  : option string :=
  match exts with
  | [] => None
  | ext :: rest =>
      match given (resolveConfig h
              (path_resolve h [directory; "playwright.config" +:+ ext])) with
      | Some configFile => Some configFile
      | None => firstConfigFile h directory rest
      end
  end.

Definition resolveConfigFileFromDirectory (h : host) (directory : string)
  : option string :=
  firstConfigFile h directory extensions.

(** [resolveConfigFile(configFileOrDirectory)] *)
Definition resolveConfigFile (h : host) (configFileOrDirectory : string)
  : outcome (option string) :=
  if negb (existsSync h configFileOrDirectory)
  then Throws (PlainError (configFileOrDirectory +:+ " does not exist"))
  else if isDirectory h configFileOrDirectory then
    match given (resolveConfigFileFromDirectory h configFileOrDirectory) with
    | Some configFile => Returns (Some configFile)
    | None => Returns None
    end
  else Returns (Some configFileOrDirectory).

(** [resolveConfigLocation(configFile)] *)
Definition resolveConfigLocation (h : host) (configFile : option string)
  : outcome ConfigLocation :=
  let configFileOrDirectory :=
    match given configFile with
    | Some f => path_resolve h [cwd h; f]
    | None => cwd h
    end in
  resolved ← resolveConfigFile h configFileOrDirectory;
  Returns {|
    resolvedConfigFile := resolved;
    configDir := match given resolved with
                 | Some f => path_dirname h f
                 | None => configFileOrDirectory
                 end
  |}.

End Locate.

(** ** Loading *)

Module Loader.
Import Host Locate Validate.

(** Modelled from the spec: the class [FullConfigInternal] of [config.ts] is
    not part of the sources at hand.  The canonical configuration is "the
    validated configuration plus the resolved location, the caller's
    overrides, the run metadata and a flag recording whether the merge step
    was invoked": the arguments of the constructor, and the flag. *)
Record FullConfigInternal {Overrides : Type} := {
  location : ConfigLocation;
  userConfig : value;
  configCLIOverrides : option Overrides;
  metadata : option value;
  defineConfigWasUsed : bool
}.
Arguments FullConfigInternal : clear implicits.

(** [loadUserConfig(location)] *)
Definition loadUserConfig (h : host) (location : ConfigLocation) : outcome value :=
  object ← match given (resolvedConfigFile location) with
           | Some file => requireOrImport h file
           | None => Returns (VObj ∅ false)
           end;
  if truthy object && typeof_object object &&
     bool_decide (is_Some (spread object !! "default"))
  then Returns (element object "default")
  else Returns object.

(** Step 0 of [loadConfig]: without a registered loader, a configuration
    file that is an ES module cannot be loaded. *)
Definition setupESMLoader (h : host) (location : ConfigLocation) : outcome unit :=
  if negb (registerESMLoader h) then
    match given (resolvedConfigFile location) with
    | Some file =>
        if fileIsModule h file
        then Throws (ErrorWithFile file
               "Playwright requires Node.js 18.19 or higher to load esm modules. Please update your version of Node.js." None)
        else Returns ()
    | None => Returns ()
    end
  else Returns ().

(** [loadConfig(location, overrides, ignoreProjectDependencies, metadata)],
    as far as its result goes: the calls that configure the module loader
    and the transform (lines 116, 117 and 132 to 139) are left out, and so
    is the loop that clears the dependencies of the projects; the
    constructor of line 122 is the record, with the overrides kept as they
    were given.  No exception of the calls left out is modelled. *)
Definition loadConfig {Overrides : Type} (h : host) (location : ConfigLocation)
    (overrides : option Overrides) (metadata : option value)
  : outcome (FullConfigInternal Overrides) :=
  setupESMLoader h location ;;
  userConfig ← loadUserConfig h location;
  validateConfig h (default "<default config>" (given (resolvedConfigFile location)))
    userConfig ;;
  Returns {|
    location := location;
    userConfig := userConfig;
    configCLIOverrides := overrides;
    metadata := metadata;
    defineConfigWasUsed := marked userConfig
  |}.

End Loader.

(** ** What the merge of two project lists comes to

    A description of lines 65 to 86 that does without the [Map]: it is
    compared with [mergeProjects] below. *)

Module MergeSpec.
Import Merge.

Definition nameOf (project : value) : value := field project "name".

(** [q] bears the name [name]. *)
Definition named (name : value) (q : value) : Prop :=
  same_value_zero name (nameOf q) = true.

#[export] Instance named_dec name q : Decision (named name q).
Proof. unfold named. apply _. Defined.

(** The last of the projects [first :: later] that bears [name], [first]
    being one. *)
Definition lastNamed (name first : value) (later : list value) : value :=
  default first (last (filter (named name) later)).

(** The overrides, keyed by name: one entry for each name, at the place of
    the first override with that name, holding the last override with that
    name.  [seen] lists the names that have their entry already. *)
Fixpoint keyedFrom (seen : list value) (overrides : list value) : Map :=
  match overrides with
  | [] => []
  | o :: rest =>
      if existsb (λ k, same_value_zero k (nameOf o)) seen
      then keyedFrom seen rest
      else (nameOf o, lastNamed (nameOf o) o rest) ::
           keyedFrom (seen ++ [nameOf o]) rest
  end.

Definition keyed (overrides : list value) : Map := keyedFrom [] overrides.

(** The base projects after the merge: a project whose name no earlier base
    project bears, and that some override bears, is merged with the last
    such override; any other project is kept.  [seen] lists the names of the
    earlier base projects. *)
Fixpoint mergedFrom (seen : list value) (overrides base : list value)
  : list value :=
  match base with
  | [] => []
  | p :: rest =>
      (if existsb (λ k, same_value_zero k (nameOf p)) seen then p
       else match last (filter (named (nameOf p)) overrides) with
            | Some o => overrideProject p o
            | None => p
            end) :: mergedFrom (seen ++ [nameOf p]) overrides rest
  end.

(** The keyed overrides whose name no base project bears. *)
Definition appended (base overrides : list value) : list value :=
  (filter (λ e, existsb (λ p, same_value_zero e.1 (nameOf p)) base = false)
     (keyed overrides)).*2.

Definition overrideMerge (base overrides : list value) : list value :=
  mergedFrom [] overrides base ++ appended base overrides.

(** No two of the projects bear the same name. *)
Fixpoint distinctNames (projects : list value) : Prop :=
  match projects with
  | [] => True
  | o :: rest => Forall (λ q, ¬ named (nameOf o) q) rest ∧ distinctNames rest
  end.

(** A [projects] value the merge goes through without an exception:
    nothing, or an array of projects. *)
Definition projectsOk (projects : value) : Prop :=
  match projects with
  | VArr items => Forall (λ p, truthy p = true) items
  | _ => truthy projects = false
  end.

(** The projects it lists. *)
Definition projectsOf (projects : value) : list value :=
  match projects with
  | VArr items => items
  | _ => []
  end.

End MergeSpec.

(** Notions used in the proofs about the merge of the projects. *)

Module MergeAux.
Import Merge MergeSpec.

(** The values [Map] compares by value. *)
Definition primitive (v : value) : bool :=
  match v with
  | VRegExp _ | VArr _ | VObj _ _ => false
  | _ => true
  end.

(** No two entries have the same key. *)
Fixpoint distinctKeys (m : Map) : Prop :=
  match m with
  | [] => True
  | e :: rest =>
      Forall (λ e', same_value_zero e.1 e'.1 = false) rest ∧ distinctKeys rest
  end.

Definition hasKey (k : value) (m : Map) : bool :=
  existsb (λ k', same_value_zero k' k) m.*1.

Definition updated (m : Map) (overrides : list value) : Map :=
  (λ e, (e.1, lastNamed e.1 e.2 overrides)) <$> m.

(** What is left of the overrides once the projects named in [seen] have
    been through the loop. *)
Definition remaining (seen : list value) (E : Map) : Map :=
  filter (λ e, existsb (λ k, same_value_zero e.1 k) seen = false) E.

End MergeAux.

(** Shorthands for writing configurations down. *)

Module Build.

Definition num_obj (l : list (string * Z)) : value :=
  VObj (list_to_map (prod_map id VNum <$> l)) false.

Definition obj (l : list (string * value)) : value :=
  VObj (list_to_map l) false.

Definition fragment (l : list (string * value)) : gmap string value * bool :=
  (list_to_map l, false).

(** The keys the object literal of a fold step always writes. *)
Definition written : list string := ["expect"; "use"; "build"; "webServer"].

End Build.

(** ** The order of the checks of [validateConfig]

    The checks a configuration that is an object goes through, in the order
    the specification gives: the schema, the options of the configuration
    itself, its [use], each of its projects, the [tsconfig] file. *)

Module ValidateSpec.
Import Zod TestOptions Host Validate.

Definition schemaCheck (h : host) (file : string) (config : value) : outcome unit :=
  match parse (testConfigSchema h) config with
  | issue :: _ => Throws (reportConfigIssue file config issue)
  | [] => Returns ()
  end.

Definition useCheck (file : string) (config : value) : outcome unit :=
  if negb (is_undefined (element config "use"))
  then validateTestOptions file (element config "use") "config.use"
  else Returns ().

Definition projectChecks (file : string) (config : value) : list (outcome unit) :=
  let projects := element config "projects" in
  if truthy projects then
    match projects with
    | VArr items =>
        imap (λ index project,
          validateProject file project
            ("config.projects[" +:+ pretty index +:+ "]")) items
    | _ => [Throws TypeError]
    end
  else [].

Definition configChecks (h : host) (file : string) (config : value)
  : list (outcome unit) :=
  [schemaCheck h file config; validateProject file config "config";
   useCheck file config] ++
  projectChecks file config ++
  [validateTsconfig h file (element config "tsconfig")].

(** [e] is thrown by the first check that throws. *)
Definition firstThrow (checks : list (outcome unit)) (e : thrown) : Prop :=
  ∃ i, checks !! i = Some (Throws e) ∧
       ∀ j, (j < i)%nat → checks !! j = Some (Returns ()).

(** The checks run one after the other. *)
Definition inOrder (checks : list (outcome unit)) : outcome unit :=
  foldr (λ c k, c ;; k) (Returns ()) checks.

(** The keys of a configuration that [validateConfig] reads by itself. *)
Definition inspected : list string :=
  ["testIgnore"; "testMatch"; "use"; "projects"; "tsconfig"].

End ValidateSpec.

(** A small environment to run the loader in: a directory [/w] with two
    configuration files, whose module exports what [defineConfig] returned,
    and a schema that declares a few keys. *)

Module Demo.
Import Zod Host Build.

Definition demoHost : host := {|
  existsSync p :=
    bool_decide (p ∈ ["/w"; "/w/playwright.config.js"; "/w/playwright.config.cjs"]);
  isDirectory p := bool_decide (p = "/w");
  path_resolve segments := "/w/" +:+ default "" (last segments);
  path_dirname p := "/w";
  cwd := "/w";
  registerESMLoader := true;
  fileIsModule _ := false;
  requireOrImport _ :=
    Returns (obj [("default",
      VObj (list_to_map [("fullyParallel", VBool true); ("myOption", VNum 1)]) true)]);
  configShape := [
    ("testIgnore", ZAny);
    ("testMatch", ZAny);
    ("use", ZAny);
    ("projects", ZAny);
    ("tsconfig", ZOptional ZString);
    ("fullyParallel", ZOptional ZBoolean);
    ("globalTimeout", ZOptional (ZNumber [Gte 0]))
  ]
|}.

End Demo.

(** ** More notions about merged configurations *)

Module MergeMore.
Import Merge MergeSpec.

(** The keys a fold step treats by a rule of their own. *)
Definition special : list string :=
  ["expect"; "use"; "build"; "webServer"; "projects"].

(** The top-level keys of the fragments [configs] laid over [first], a later
    fragment over an earlier one. *)
Definition overlay (first : gmap string value)
    (configs : list (gmap string value * bool)) : gmap string value :=
  foldl (λ m c, c.1 ∪ m) first configs.

(** The properties of the sub-objects [sub] of the fragments [configs] laid
    over [first], a later fragment over an earlier one. *)
Definition overlaySub (sub : string) (first : gmap string value)
    (configs : list (gmap string value * bool)) : gmap string value :=
  foldl (λ m c, spread (prop c.1 sub) ∪ m) first configs.

(** The [webServer] entries of the fragments, in order. *)
Definition webServers (configs : list (gmap string value * bool)) : list value :=
  concat ((λ c, webServerList (prop c.1 "webServer")) <$> configs).

Definition isProject (v : value) : bool :=
  match v with VObj _ _ => true | _ => false end.

(** The lists of projects of the fragments. *)
Definition projectLists (configs : list (gmap string value * bool))
  : list (list value) :=
  (λ c, projectsOf (prop c.1 "projects")) <$> configs.

End MergeMore.

(** ** What the validators let through

    The configurations [validateProject] and [validateConfig] return on,
    written as tests on the value alone. *)

Module ValidateMore.
Import Zod TestOptions Host Validate.

(** [typeof v === 'string' || isRegExp(v)] *)
Definition isPattern (v : value) : bool := is_string v || isRegExp v.

(** A [testIgnore] or [testMatch] that passes the loop of lines 221 to 233. *)
Definition patternsOk (project : value) (key : string) : bool :=
  match spread project !! key with
  | None | Some VUndef => true
  | Some (VArr items) => forallb isPattern items
  | Some v => isPattern v
  end.

(** A [use] that passes lines 236 to 240. *)
Definition useOk (project : value) : bool :=
  match spread project !! "use" with
  | None | Some VUndef => true
  | Some use =>
      truthy use && typeof_object use &&
      match parse testOptionsSchema use with [] => true | _ => false end
  end.

Definition acceptedProject (project : value) : bool :=
  typeof_object project && truthy project &&
  patternsOk project "testIgnore" && patternsOk project "testMatch" &&
  useOk project.

Definition acceptedProjects (projects : value) : bool :=
  if truthy projects then
    match projects with
    | VArr items => forallb acceptedProject items
    | _ => false
    end
  else true.

Definition tsconfigOk (h : host) (file : string) (tsconfig : value) : bool :=
  match tsconfig with
  | VStr name =>
      String.eqb name "" || existsSync h (path_resolve h [file; ".."; name])
  | _ => true
  end.

Definition acceptedConfig (h : host) (file : string) (config : value) : bool :=
  typeof_object config && truthy config &&
  match parse (testConfigSchema h) config with [] => true | _ => false end &&
  acceptedProject config &&
  match element config "use" with
  | VUndef => true
  | use => match parse testOptionsSchema use with [] => true | _ => false end
  end &&
  acceptedProjects (element config "projects") &&
  tsconfigOk h file (element config "tsconfig").

(** An error raised for the configuration file [file]. *)
Definition located (file : string) (e : thrown) : Prop :=
  ∃ text received, e = ErrorWithFile file text received.

End ValidateMore.

(** ** The two other ways into [loadConfig] *)

Module LoaderMore.
Import Host Locate Validate Loader.

(** [loadConfigFromFile(configFile, overrides, ignoreDeps)]: no metadata is
    passed on.  [ignoreDeps] only reaches the loop that [loadConfig] leaves
    out here. *)
Definition loadConfigFromFile {Overrides : Type} (h : host)
    (configFile : option string) (overrides : option Overrides)
  : outcome (FullConfigInternal Overrides) :=
  location ← resolveConfigLocation h configFile;
  loadConfig h location overrides None.


End LoaderMore.

(** The environment of [Demo], with a module that exports [exported]. *)

Module DemoMore.
Import Host Demo.

Definition exporting (exported : value) : host := {|
  existsSync := existsSync demoHost;
  isDirectory := isDirectory demoHost;
  path_resolve := path_resolve demoHost;
  path_dirname := path_dirname demoHost;
  cwd := cwd demoHost;
  registerESMLoader := registerESMLoader demoHost;
  fileIsModule := fileIsModule demoHost;
  requireOrImport _ := Returns exported;
  configShape := configShape demoHost
|}.

End DemoMore.

(** Notions used in the proofs about the validators. *)

Module ValidateAux.

(** The string is empty or starts with a decimal digit. *)
Definition digitHead (s : string) : bool :=
  match s with
  | EmptyString => true
  | String c _ =>
      let n := Ascii.nat_of_ascii c in (48 <=? n)%nat && (n <=? 57)%nat
  end.

End ValidateAux.

(** * Properties *)

(** ** Exceptions *)

Section outcome_lemmas.
Context {A B : Type}.

Lemma bind_Returns (c : outcome A) (k : A → outcome B) (b : B) :
  c ≫= k = Returns b ↔ ∃ a, c = Returns a ∧ k a = Returns b.
Proof.
  destruct c as [a|e]; simpl; split.
  - eauto.
  - intros (a' & [= <-] & ?); done.
  - done.
  - intros (a' & [=] & ?).
Qed.

Lemma bind_Throws (c : outcome A) (k : A → outcome B) (e : thrown) :
  c ≫= k = Throws e ↔
  c = Throws e ∨ ∃ a, c = Returns a ∧ k a = Throws e.
Proof.
  destruct c as [a|e']; simpl; split.
  - eauto.
  - intros [[=]|(a' & [= <-] & ?)]; done.
  - intros [= ->]; eauto.
  - intros [[= ->]|(a' & [=] & ?)]; done.
Qed.
End outcome_lemmas.

(** ** The fragment merger *)

Module MergeProps.
Import Merge MergeSpec MergeAux Build.

Lemma mergeFields_lookup_sub (a b : gmap string value) k :
  k ∈ ["expect"; "use"; "build"] →
  mergeFields a b !! k = Some (spread2 (prop a k) (prop b k)).
Proof.
  intros Hk. unfold mergeFields.
  repeat (apply elem_of_cons in Hk as [->|Hk]); [| | |by apply elem_of_nil in Hk];
    by simplify_map_eq.
Qed.

Lemma mergeFields_lookup_webServer (a b : gmap string value) :
  mergeFields a b !! "webServer" =
  Some (VArr (webServerList (prop a "webServer") ++
              webServerList (prop b "webServer"))).
Proof. unfold mergeFields. by simplify_map_eq. Qed.

Lemma mergeFields_lookup_other (a b : gmap string value) k :
  k ∉ written → mergeFields a b !! k = (b ∪ a) !! k.
Proof.
  intros Hk. unfold mergeFields, written in *.
  rewrite !lookup_insert_ne; [done|set_solver..].
Qed.

(** A fold step returns the object literal, with [projects] overwritten or
    not. *)
Lemma mergeStep_Returns a b r :
  mergeStep a b = Returns r →
  r.2 = a.2 || b.2 ∧
  (r.1 = mergeFields a.1 b.1 ∨
   ∃ ps, mergeProjects (prop a.1 "projects") (prop b.1 "projects") = Returns ps ∧
         r.1 = <["projects" := VArr ps]> (mergeFields a.1 b.1)).
Proof.
  unfold mergeStep. case_match.
  - intros [= <-]. auto.
  - intros (ps & Hps & [= <-])%bind_Returns. simpl. eauto.
Qed.

Lemma mergeStep_lookup a b r k :
  mergeStep a b = Returns r → k ≠ "projects" →
  r.1 !! k = mergeFields a.1 b.1 !! k.
Proof.
  intros (_ & [->|(ps & _ & ->)])%mergeStep_Returns Hk; [done|].
  by rewrite lookup_insert_ne.
Qed.

Lemma defineConfig_two a b :
  defineConfig [a; b] = r ← mergeStep a b; Returns (r.1, true).
Proof. unfold defineConfig. simpl. by destruct (mergeStep a b). Qed.

Lemma defineConfig_two_Returns a b r :
  defineConfig [a; b] = Returns r ↔
  ∃ r', mergeStep a b = Returns r' ∧ r = (r'.1, true).
Proof.
  rewrite defineConfig_two, bind_Returns.
  split; intros (r' & ? & ?); exists r'; split; try done; congruence.
Qed.

(** The mark of the accumulator does not bear on the fields. *)
Lemma mergeStep_mark f m c :
  mergeStep (f, m) c = r ← mergeStep (f, false) c; Returns (r.1, m || r.2).
Proof.
  unfold mergeStep; simpl. case_match; simpl; [done|].
  by destruct (mergeProjects _ _).
Qed.

Lemma mergeFrom_mark rest : ∀ f m,
  mergeFrom (f, m) rest = r ← mergeFrom (f, false) rest; Returns (r.1, m || r.2).
Proof.
  induction rest as [|c rest IH]; intros f m; simpl.
  - by rewrite orb_false_r.
  - rewrite mergeStep_mark. destruct (mergeStep (f, false) c) as [[g x]|e]; simpl; [|done].
    rewrite (IH g (m || x)), (IH g x).
    destruct (mergeFrom (g, false) rest) as [[g' y]|e]; simpl; [|done].
    by rewrite orb_assoc.
Qed.

Lemma defineConfig_cons first rest :
  defineConfig (first :: rest) =
  r ← mergeFrom (first.1, false) rest; Returns (r.1, true).
Proof.
  destruct first as [f m]. unfold defineConfig.
  simpl. rewrite mergeFrom_mark. by destruct (mergeFrom (f, false) rest) as [[g y]|e].
Qed.

(** Merging [a], [b] and more fragments in one call is merging [a] and [b]
    first and the outcome with the rest after. *)
Lemma defineConfig_assoc a b rest :
  defineConfig (a :: b :: rest) =
  r ← defineConfig [a; b]; defineConfig (r :: rest).
Proof.
  rewrite defineConfig_two. unfold defineConfig at 1. simpl.
  destruct (mergeStep a b) as [[g x]|e]; simpl; [|done].
  rewrite mergeFrom_mark, (mergeFrom_mark rest g true).
  by destruct (mergeFrom (g, false) rest) as [[g' y]|e'].
Qed.

Lemma defineConfig_one c : defineConfig [c] = Returns (c.1, true).
Proof. done. Qed.

Lemma spread2_undefined_r o m : spread2 (VObj o m) VUndef = VObj o m.
Proof. unfold spread2; simpl. by rewrite (left_id_L ∅ (∪)), orb_false_r. Qed.

Lemma spread2_undefined_l o m : spread2 VUndef (VObj o m) = VObj o m.
Proof. unfold spread2; simpl. by rewrite (right_id_L ∅ (∪)). Qed.

Lemma truthy_projects_dom (f : gmap string value) :
  truthy (prop f "projects") = true → "projects" ∈ dom f.
Proof.
  unfold prop. rewrite elem_of_dom. destruct (f !! "projects"); [eauto|done].
Qed.

Lemma mergeStep_dom a b r :
  mergeStep a b = Returns r →
  dom r.1 = dom a.1 ∪ dom b.1 ∪ list_to_set written.
Proof.
  unfold mergeStep. case_match eqn:Hcond.
  - intros [= <-]; simpl. unfold mergeFields, written.
    rewrite !dom_insert_L, dom_union_L. set_solver.
  - intros (ps & _ & [= <-])%bind_Returns; simpl.
    apply andb_false_iff in Hcond.
    rewrite !negb_false_iff in Hcond.
    assert ("projects" ∈ dom a.1 ∪ dom b.1) as Hin.
    { destruct Hcond as [Hc|Hc]; [|apply truthy_projects_dom in Hc; set_solver].
      unfold prop in Hc.
      rewrite mergeFields_lookup_other in Hc by (unfold written; set_solver).
      apply truthy_projects_dom in Hc. rewrite dom_union_L in Hc. set_solver. }
    unfold mergeFields, written.
    rewrite !dom_insert_L, dom_union_L. set_solver.
Qed.

(** *** Keys *)

Lemma same_value_zero_true a b :
  same_value_zero a b = true ↔ a = b ∧ primitive a = true.
Proof.
  destruct a, b; simpl; try (split; [done|intros [[=] ?]; done]); try tauto.
  - rewrite Bool.eqb_true_iff. split; [by intros ->|by intros [[= ->] _]].
  - rewrite Z.eqb_eq. split; [by intros ->|by intros [[= ->] _]].
  - rewrite String.eqb_eq. split; [by intros ->|by intros [[= ->] _]].
Qed.

Lemma same_value_zero_sym a b : same_value_zero a b = same_value_zero b a.
Proof.
  apply eq_true_iff_eq. rewrite !same_value_zero_true.
  split; intros [-> ?]; done.
Qed.

Lemma same_value_zero_trans a b c :
  same_value_zero a b = true → same_value_zero a c = same_value_zero b c.
Proof. by intros [-> _]%same_value_zero_true. Qed.

(** *** Maps *)

Lemma map_set_present k v m :
  hasKey k m = true → (map_set k v m).*1 = m.*1.
Proof.
  unfold hasKey. induction m as [|[k' v'] m IH]; csimpl; [done|].
  destruct (same_value_zero k' k); csimpl; [done|]. intros ?. by rewrite IH.
Qed.

Lemma map_set_absent k v m :
  hasKey k m = false → map_set k v m = m ++ [(k, v)].
Proof.
  unfold hasKey. induction m as [|[k' v'] m IH]; csimpl; [done|].
  destruct (same_value_zero k' k); csimpl; [done|]. intros ?. by rewrite IH.
Qed.

Lemma hasKey_false k m :
  hasKey k m = false ↔ Forall (λ e, same_value_zero e.1 k = false) m.
Proof.
  unfold hasKey. induction m as [|[k' v'] m IH]; csimpl.
  - split; [constructor|done].
  - rewrite orb_false_iff, Forall_cons, IH. done.
Qed.

Lemma distinctKeys_app m k v :
  distinctKeys m → hasKey k m = false → distinctKeys (m ++ [(k, v)]).
Proof.
  induction m as [|[k' v'] m IH]; simpl.
  - intros _ _. split; [constructor|done].
  - intros [Hk Hm]. unfold hasKey; csimpl. intros [Hk' Hh]%orb_false_iff.
    split; [|by apply IH].
    apply Forall_app. split; [done|]. by repeat constructor.
Qed.

Lemma distinctKeys_map_set k v m :
  distinctKeys m → distinctKeys (map_set k v m).
Proof.
  intros Hm. destruct (hasKey k m) eqn:Hk.
  - revert Hm Hk. unfold hasKey.
    induction m as [|[k' v'] m IH]; csimpl; [done|].
    intros [Hk' Hm]. destruct (same_value_zero k' k) eqn:Hs; csimpl; [done|].
    intros Hh. split; [|by apply IH].
    clear IH Hm. induction m as [|[k'' v''] m IH]; simpl in *; [done|].
    inversion_clear Hk' as [|?? Hx Hy].
    destruct (same_value_zero k'' k) eqn:Hs'; simpl in *.
    + by constructor.
    + constructor; [done|]. by apply IH.
  - rewrite map_set_absent by done. by apply distinctKeys_app.
Qed.

Lemma Forall_filter_keep {A} (P Q : A → Prop) `{∀ x, Decision (Q x)} (l : list A) :
  Forall P l → Forall P (filter Q l).
Proof.
  rewrite !Forall_forall. intros HP x [_ Hx]%list_elem_of_filter. by apply HP.
Qed.

Lemma distinctKeys_filter (P : value * value → Prop) `{∀ e, Decision (P e)} m :
  distinctKeys m → distinctKeys (filter P m).
Proof.
  induction m as [|e m IH]; [done|]. intros [He Hm].
  rewrite filter_cons. destruct (decide (P e)); [|by apply IH]. cbn [distinctKeys].
  split; [|by apply IH]. by apply Forall_filter_keep.
Qed.

Lemma map_get_None k m :
  map_get k m = None ↔ Forall (λ e, same_value_zero e.1 k = false) m.
Proof.
  induction m as [|[k' v'] m IH]; simpl.
  - split; [constructor|done].
  - rewrite Forall_cons. simpl. destruct (same_value_zero k' k).
    + split; [done|]. by intros [? _].
    + rewrite IH. tauto.
Qed.

Lemma filter_all {A} (P : A → Prop) `{∀ x, Decision (P x)} (l : list A) :
  Forall P l → filter P l = l.
Proof.
  induction 1 as [|x l Hx Hl IH]; [done|].
  by rewrite filter_cons_True, IH.
Qed.

Lemma map_delete_filter k m :
  distinctKeys m →
  map_delete k m = filter (λ e, same_value_zero e.1 k = false) m.
Proof.
  induction m as [|[k' v'] m IH]; [done|]. intros [Hk Hm].
  rewrite filter_cons. cbn [map_delete fst]. destruct (same_value_zero k' k) eqn:Hs.
  - rewrite decide_False by done.
    symmetry. apply filter_all.
    eapply Forall_impl; [exact Hk|]. intros e He. simpl in He.
    by rewrite same_value_zero_sym, <- (same_value_zero_trans _ _ _ Hs).
  - rewrite decide_True by done. by rewrite IH.
Qed.

(** *** The overrides, keyed *)

Lemma member_name p : nullish p = false → member p "name" = Returns (nameOf p).
Proof. by destruct p. Qed.

Lemma truthy_not_nullish v : truthy v = true → nullish v = false.
Proof. by destruct v. Qed.

Lemma lastNamed_cons name first o rest :
  lastNamed name first (o :: rest) =
  if same_value_zero name (nameOf o) then lastNamed name o rest
  else lastNamed name first rest.
Proof.
  unfold lastNamed. destruct (decide (named name o)) as [Hn|Hn].
  - rewrite filter_cons_True by done. unfold named in Hn. rewrite Hn, last_cons.
    by destruct (last (filter (named name) rest)).
  - rewrite filter_cons_False by done. unfold named in Hn.
    apply not_true_is_false in Hn. by rewrite Hn.
Qed.

Lemma lastNamed_elem name first later :
  lastNamed name first later ∈ first :: later.
Proof.
  unfold lastNamed. destruct (last (filter (named name) later)) as [x|] eqn:Hl; simpl.
  - apply last_Some_elem_of in Hl. apply list_elem_of_filter in Hl as [_ Hl].
    by right.
  - by left.
Qed.

Lemma lastNamed_name name first later :
  nameOf first = name → nameOf (lastNamed name first later) = name.
Proof.
  intros Hf. unfold lastNamed.
  destruct (last (filter (named name) later)) as [x|] eqn:Hl; simpl; [|done].
  apply last_Some_elem_of in Hl. apply list_elem_of_filter in Hl as [Hx _].
  by apply same_value_zero_true in Hx as [-> _].
Qed.

Lemma updated_nil m : updated m [] = m.
Proof.
  unfold updated. induction m as [|[k v] m IH]; csimpl; [done|].
  by rewrite IH.
Qed.

Lemma updated_absent m o rest :
  Forall (λ e, same_value_zero e.1 (nameOf o) = false) m →
  updated m (o :: rest) = updated m rest.
Proof.
  unfold updated. induction 1 as [|[k v] m Hk Hm IH]; csimpl; [done|].
  rewrite lastNamed_cons. simpl in Hk. by rewrite Hk, IH.
Qed.

Lemma updated_map_set m o rest :
  distinctKeys m → hasKey (nameOf o) m = true →
  updated (map_set (nameOf o) o m) rest = updated m (o :: rest).
Proof.
  unfold hasKey.
  induction m as [|[k v] m IH]; csimpl; [done|]. intros [Hk Hm].
  destruct (same_value_zero k (nameOf o)) eqn:Hs; csimpl.
  - intros _. rewrite lastNamed_cons, Hs. f_equal.
    symmetry. apply updated_absent.
    eapply Forall_impl; [exact Hk|]. intros e He. simpl in He.
    by rewrite same_value_zero_sym, <- (same_value_zero_trans _ _ _ Hs).
  - intros Hh. rewrite lastNamed_cons, Hs. f_equal. by apply IH.
Qed.

Lemma collectOverrides_keyed overrides : ∀ m,
  Forall (λ o, nullish o = false) overrides → distinctKeys m →
  collectOverrides overrides m =
  Returns (updated m overrides ++ keyedFrom m.*1 overrides).
Proof.
  induction overrides as [|o rest IH]; intros m Ho Hm.
  - simpl. by rewrite updated_nil, app_nil_r.
  - inversion_clear Ho as [|?? Hn Hrest].
    cbn [collectOverrides keyedFrom]. rewrite member_name by done. simpl.
    rewrite IH by auto using distinctKeys_map_set.
    fold (hasKey (nameOf o) m). destruct (hasKey (nameOf o) m) eqn:Hk.
    + by rewrite updated_map_set, map_set_present.
    + rewrite map_set_absent by done.
      apply hasKey_false in Hk.
      rewrite (updated_absent m o rest Hk).
      unfold updated at 1. rewrite fmap_app, fmap_app. csimpl.
      by rewrite <- app_assoc.
Qed.

Lemma collectOverrides_keyed_nil overrides :
  Forall (λ o, nullish o = false) overrides →
  collectOverrides overrides [] = Returns (keyed overrides).
Proof. intros Ho. by rewrite collectOverrides_keyed. Qed.

Lemma collectOverrides_distinct overrides : ∀ m m',
  distinctKeys m → collectOverrides overrides m = Returns m' → distinctKeys m'.
Proof.
  induction overrides as [|o rest IH]; intros m m' Hm; simpl.
  - by intros [= <-].
  - intros (n & _ & Hc)%bind_Returns.
    eapply IH; [|exact Hc]. by apply distinctKeys_map_set.
Qed.

Lemma keyed_distinct overrides :
  Forall (λ o, nullish o = false) overrides → distinctKeys (keyed overrides).
Proof.
  intros Ho. eapply (collectOverrides_distinct overrides []); [done|].
  by apply collectOverrides_keyed_nil.
Qed.

Lemma keyedFrom_values (P : value → Prop) overrides : ∀ seen,
  Forall P overrides → Forall (λ e, P e.2) (keyedFrom seen overrides).
Proof.
  induction overrides as [|o rest IH]; intros seen Ho; simpl; [constructor|].
  inversion Ho as [|?? Hx Hrest]; subst.
  destruct (existsb _ seen); [by apply IH|].
  constructor; [|by apply IH]. simpl.
  rewrite Forall_forall in Ho. apply Ho, lastNamed_elem.
Qed.

Lemma keyedFrom_names overrides : ∀ seen,
  Forall (λ e, nameOf e.2 = e.1) (keyedFrom seen overrides).
Proof.
  induction overrides as [|o rest IH]; intros seen; simpl; [constructor|].
  destruct (existsb _ seen); [by apply IH|].
  constructor; [|by apply IH]. simpl. by apply lastNamed_name.
Qed.

Lemma existsb_key_eq (seen : list value) a b :
  same_value_zero a b = true →
  existsb (λ k, same_value_zero k a) seen = existsb (λ k, same_value_zero k b) seen.
Proof. by intros [-> _]%same_value_zero_true. Qed.

(** The entry of a name is the last override that bears it. *)
Lemma map_get_keyedFrom n overrides : ∀ seen,
  map_get n (keyedFrom seen overrides) =
  if existsb (λ k, same_value_zero k n) seen then None
  else last (filter (named n) overrides).
Proof.
  induction overrides as [|o rest IH]; intros seen.
  - simpl. by destruct (existsb _ seen).
  - cbn [keyedFrom].
    destruct (existsb (λ k, same_value_zero k (nameOf o)) seen) eqn:Ho.
    + rewrite IH. destruct (existsb (λ k, same_value_zero k n) seen) eqn:Hn; [done|].
      rewrite filter_cons_False; [done|]. intros Hs.
      by rewrite (existsb_key_eq seen _ _ Hs), Ho in Hn.
    + cbn [map_get]. rewrite (same_value_zero_sym (nameOf o) n).
      destruct (same_value_zero n (nameOf o)) eqn:Hs.
      * rewrite (existsb_key_eq seen _ _ Hs), Ho.
        rewrite filter_cons_True by done. rewrite last_cons.
        apply same_value_zero_true in Hs as [-> _]. unfold lastNamed.
        by destruct (last (filter (named (nameOf o)) rest)).
      * rewrite filter_cons_False by (unfold named; by rewrite Hs).
        rewrite IH, existsb_app. simpl.
        by rewrite (same_value_zero_sym (nameOf o) n), Hs, !orb_false_r.
Qed.

Lemma map_get_keyed n overrides :
  map_get n (keyed overrides) = last (filter (named n) overrides).
Proof. unfold keyed. by rewrite map_get_keyedFrom. Qed.

(** *** The loop over the base projects *)

Lemma remaining_nil E : remaining [] E = E.
Proof. unfold remaining. apply filter_all. by apply Forall_forall. Qed.

Lemma remaining_snoc seen n E :
  remaining (seen ++ [n]) E =
  filter (λ e, same_value_zero e.1 n = false) (remaining seen E).
Proof.
  unfold remaining. rewrite list_filter_filter. apply list_filter_iff.
  intros e. rewrite existsb_app. simpl. rewrite orb_false_r, orb_false_iff. tauto.
Qed.

Lemma map_get_remaining n seen E :
  map_get n (remaining seen E) =
  if existsb (λ k, same_value_zero k n) seen then None else map_get n E.
Proof.
  unfold remaining. induction E as [|[k v] E IH]; simpl.
  - by destruct (existsb _ seen).
  - rewrite filter_cons. simpl.
    destruct (same_value_zero k n) eqn:Hs.
    + apply same_value_zero_true in Hs as [-> Hp].
      assert (∀ l, existsb (λ k, same_value_zero n k) l =
                   existsb (λ k, same_value_zero k n) l) as Hsym.
      { intros l. induction l as [|x l IHl]; simpl; [done|].
        by rewrite IHl, same_value_zero_sym. }
      rewrite Hsym. destruct (existsb (λ k, same_value_zero k n) seen) eqn:Hn.
      * by rewrite decide_False by done.
      * rewrite decide_True by done. simpl.
        assert (same_value_zero n n = true) as -> by (by apply same_value_zero_true).
        done.
    + destruct (decide _); simpl; rewrite ?Hs; apply IH.
Qed.

Lemma map_get_truthy n E o :
  Forall (λ e, truthy e.2 = true) E → map_get n E = Some o → truthy o = true.
Proof.
  induction 1 as [|[k v] E Hv HE IH]; simpl; [done|].
  destruct (same_value_zero k n); [by intros [= <-]|done].
Qed.

Lemma mergeLoop_remaining overrides base : ∀ seen,
  Forall (λ o, truthy o = true) overrides →
  Forall (λ p, nullish p = false) base →
  mergeLoop base (remaining seen (keyed overrides)) =
  Returns (mergedFrom seen overrides base,
           remaining (seen ++ (nameOf <$> base)) (keyed overrides)).
Proof.
  intros seen Ho Hbase. revert seen.
  assert (distinctKeys (keyed overrides)) as Hd.
  { apply keyed_distinct. eapply Forall_impl; [exact Ho|].
    apply truthy_not_nullish. }
  assert (Forall (λ e, truthy e.2 = true) (keyed overrides)) as Ht
    by (by apply (keyedFrom_values (λ o, truthy o = true))).
  induction Hbase as [|p rest Hp Hrest IH]; intros seen.
  - simpl. by rewrite app_nil_r.
  - cbn [mergeLoop mergedFrom]. rewrite member_name by done.
    cbn [mbind outcome_bind].
    rewrite map_get_remaining, map_get_keyed.
    assert (map_get (nameOf p) (remaining seen (keyed overrides)) = None →
            remaining seen (keyed overrides) =
            remaining (seen ++ [nameOf p]) (keyed overrides)) as Hsame.
    { intros Hnone. rewrite remaining_snoc, filter_all; [done|].
      by apply map_get_None. }
    destruct (existsb (λ k, same_value_zero k (nameOf p)) seen) eqn:Hseen.
    + rewrite Hsame by (by rewrite map_get_remaining, Hseen).
      rewrite IH, <- app_assoc. reflexivity.
    + destruct (last (filter (named (nameOf p)) overrides)) as [o|] eqn:Hl.
      * rewrite <- map_get_keyed in Hl.
        rewrite (map_get_truthy _ _ _ Ht Hl).
        rewrite map_delete_filter by (by apply distinctKeys_filter).
        rewrite <- remaining_snoc. rewrite IH, <- app_assoc. reflexivity.
      * rewrite Hsame by (by rewrite map_get_remaining, Hseen, map_get_keyed).
        rewrite IH, <- app_assoc. reflexivity.
Qed.

(** Lines 65 to 86 come to [overrideMerge]. *)
Lemma mergeProjects_overrideMerge base overrides :
  Forall (λ p, nullish p = false) base →
  Forall (λ o, truthy o = true) overrides →
  mergeProjects (VArr base) (VArr overrides) =
  Returns (overrideMerge base overrides).
Proof.
  intros Hbase Ho. unfold mergeProjects. simpl.
  rewrite collectOverrides_keyed_nil
    by (eapply Forall_impl; [exact Ho|apply truthy_not_nullish]).
  simpl. rewrite <- (remaining_nil (keyed overrides)) at 1.
  rewrite mergeLoop_remaining by done. simpl.
  unfold overrideMerge, appended, map_values, remaining. do 3 f_equal.
  apply list_filter_iff. intros e.
  assert (existsb (λ k, same_value_zero e.1 k) (nameOf <$> base) =
          existsb (λ p, same_value_zero e.1 (nameOf p)) base) as ->; [|done].
  induction base as [|p base IH]; csimpl; [done|].
  inversion_clear Hbase. by rewrite IH.
Qed.

Lemma prop_union_disjoint (a b : gmap string value) k :
  dom a ## dom b →
  (prop a k = VUndef ∧ prop (a ∪ b) k = prop b k) ∨
  (prop b k = VUndef ∧ prop (a ∪ b) k = prop a k).
Proof.
  intros Hd. unfold prop. rewrite lookup_union.
  destruct (a !! k) as [x|] eqn:Ha, (b !! k) as [y|] eqn:Hb; simpl; auto.
  exfalso. apply (Hd k); apply elem_of_dom; eauto.
Qed.

(** *** The merged list *)



Lemma mergedFrom_length overrides base : ∀ seen,
  length (mergedFrom seen overrides base) = length base.
Proof. induction base as [|p rest IH]; intros seen; simpl; [done|]. by rewrite IH. Qed.




Lemma appended_not_named base overrides p :
  p ∈ base → Forall (λ x, ¬ named (nameOf p) x) (appended base overrides).
Proof.
  intros Hp. unfold appended. apply Forall_fmap, Forall_forall.
  intros e [He Hin]%list_elem_of_filter. simpl.
  pose proof (keyedFrom_names overrides []) as Hn.
  rewrite Forall_forall in Hn. unfold named. rewrite (Hn e Hin).
  rewrite same_value_zero_sym.
  assert (same_value_zero e.1 (nameOf p) = false) as ->; [|done].
  clear -He Hp. induction base as [|b base IH]; [by apply elem_of_nil in Hp|].
  simpl in He. apply orb_false_iff in He as [He1 He2].
  apply elem_of_cons in Hp as [->|Hp]; [done|by apply IH].
Qed.

Lemma appended_elem base overrides :
  Forall (λ x, x ∈ overrides) (appended base overrides).
Proof.
  unfold appended. apply Forall_fmap.
  apply (Forall_filter_keep (λ e : value * value, e.2 ∈ overrides)).
  apply (keyedFrom_values (λ x, x ∈ overrides)).
  by apply Forall_forall.
Qed.


Lemma mergeStep_projects a b base overrides :
  a.1 !! "projects" = Some (VArr base) →
  b.1 !! "projects" = Some (VArr overrides) →
  Forall (λ p, nullish p = false) base →
  Forall (λ o, truthy o = true) overrides →
  mergeStep a b =
  Returns (<["projects" := VArr (overrideMerge base overrides)]>
             (mergeFields a.1 b.1), a.2 || b.2).
Proof.
  intros Ha Hb Hbase Ho. unfold mergeStep, prop at 2 3 4.
  rewrite Ha, Hb. simpl. rewrite andb_false_r.
  by rewrite mergeProjects_overrideMerge.
Qed.

(** *** Fragments whose projects are in order *)

Lemma iterate_projectsOk projects :
  projectsOk projects →
  iterate projects = Returns (projectsOf projects) ∧
  Forall (λ p, truthy p = true) (projectsOf projects).
Proof.
  unfold iterate. destruct projects; simpl; intros H;
    try discriminate H; rewrite ?H; by split.
Qed.

Lemma mergeProjects_projectsOk prev current :
  projectsOk prev → projectsOk current →
  mergeProjects prev current =
  Returns (overrideMerge (projectsOf prev) (projectsOf current)).
Proof.
  intros [Hprev Hbase]%iterate_projectsOk [Hcur Ho]%iterate_projectsOk.
  rewrite <- (mergeProjects_overrideMerge (projectsOf prev) (projectsOf current));
    [|eapply Forall_impl; [exact Hbase|apply truthy_not_nullish]|done].
  unfold mergeProjects. rewrite Hprev, Hcur. done.
Qed.

(** A fold step on fragments whose [projects] are in order returns. *)
Lemma mergeStep_total a b :
  projectsOk (prop a.1 "projects") → projectsOk (prop b.1 "projects") →
  ∃ r, mergeStep a b = Returns r.
Proof.
  intros Ha Hb. unfold mergeStep. destruct (_ && _); [eauto|].
  rewrite mergeProjects_projectsOk by done. simpl. eauto.
Qed.

Lemma defineConfig_two_total a b :
  projectsOk (prop a.1 "projects") → projectsOk (prop b.1 "projects") →
  ∃ r, defineConfig [a; b] = Returns r.
Proof.
  intros Ha Hb. destruct (mergeStep_total a b Ha Hb) as [r Hr].
  exists (r.1, true). apply defineConfig_two_Returns. eauto.
Qed.

End MergeProps.

(** ** The validators *)

Module ValidateProps.
Import Zod TestOptions Host Validate ValidateSpec.

Lemma firstThrow_cons c checks e :
  firstThrow (c :: checks) e ↔
  c = Throws e ∨ (c = Returns () ∧ firstThrow checks e).
Proof.
  split.
  - intros ([|i] & Hi & Hbefore); simpl in Hi.
    + left. by injection Hi.
    + right. split.
      * specialize (Hbefore 0%nat ltac:(lia)). by injection Hbefore.
      * exists i. split; [done|]. intros j Hj.
        apply (Hbefore (S j)). lia.
  - intros [->|[-> (i & Hi & Hbefore)]].
    + exists 0%nat. split; [done|]. intros j Hj. lia.
    + exists (S i). split; [done|]. intros [|j] Hj; [done|].
      apply Hbefore. lia.
Qed.

Lemma firstThrow_nil e : ¬ firstThrow [] e.
Proof. by intros (i & Hi & _). Qed.

Lemma inOrder_Throws checks e :
  inOrder checks = Throws e ↔ firstThrow checks e.
Proof.
  induction checks as [|c checks IH]; simpl.
  - split; [done|]. by intros ?%firstThrow_nil.
  - rewrite firstThrow_cons, <- IH.
    destruct c as [[]|e']; simpl; split.
    + auto.
    + by intros [|[_ ?]].
    + intros [= ->]. auto.
    + intros [[= ->]|[? _]]; done.
Qed.

Lemma inOrder_Returns checks :
  inOrder checks = Returns () ↔ Forall (λ c, c = Returns ()) checks.
Proof.
  induction checks as [|c checks IH]; simpl.
  - split; [constructor|done].
  - rewrite Forall_cons, <- IH. destruct c as [[]|e']; simpl.
    + split; [by split|by intros [_ ?]].
    + split; [done|by intros [? _]].
Qed.

Lemma inOrder_app xs ys : inOrder (xs ++ ys) = (inOrder xs ;; inOrder ys).
Proof.
  induction xs as [|c xs IH]; simpl.
  - by destruct (inOrder ys).
  - rewrite IH. by destruct c.
Qed.

Lemma forEach_inOrder {A} (body : nat → A → outcome unit) xs : ∀ i,
  forEach body i xs = inOrder (imap (λ j, body (i + j)%nat) xs).
Proof.
  induction xs as [|x xs IH]; intros i; simpl; [done|].
  rewrite Nat.add_0_r, IH.
  assert (imap (λ j, body (S i + j)%nat) xs =
          imap ((λ j, body (i + j)%nat) ∘ S) xs) as ->; [|done].
  apply imap_ext. intros j y _. simpl. f_equal. lia.
Qed.

Lemma validateProjects_inOrder file config :
  validateProjects file (element config "projects") =
  inOrder (projectChecks file config).
Proof.
  unfold validateProjects, projectChecks.
  destruct (truthy (element config "projects")); [|done].
  destruct (element config "projects"); try done.
  by rewrite forEach_inOrder.
Qed.

(** Past the test that the configuration is an object, [validateConfig]
    runs the checks in order. *)
Lemma validateConfig_inOrder h file config :
  typeof_object config = true → truthy config = true →
  validateConfig h file config = inOrder (configChecks h file config).
Proof.
  intros Ho Ht. unfold validateConfig, configChecks. rewrite Ho, Ht.
  cbn [negb orb app inOrder foldr]. unfold schemaCheck.
  destruct (parse (testConfigSchema h) config) as [|issue rest]; [|done].
  cbn [mbind outcome_bind]. fold (useCheck file config).
  change (foldr _ _ ?l) with (inOrder l).
  rewrite inOrder_app, validateProjects_inOrder. simpl.
  destruct (validateProject file config "config") as [[]|]; [|done]. simpl.
  destruct (useCheck file config) as [[]|]; [|done]. simpl.
  destruct (inOrder (projectChecks file config)) as [[]|]; [|done]. simpl.
  by destruct (validateTsconfig _ _ _) as [[]|].
Qed.
End ValidateProps.

(** ** The location resolver *)

Module LocateProps.
Import Host Locate.

Lemma given_Some (s : string) : s ≠ "" → given (Some s) = Some s.
Proof.
  intros Hs. unfold given. destruct (String.eqb s "") eqn:He; [|done].
  by apply String.eqb_eq in He.
Qed.

Section firstConfigFile.
Context (h : host) (directory : string).
Hypothesis resolve_nonempty : ∀ segments, path_resolve h segments ≠ "".

Let candidate (ext : string) : string :=
  path_resolve h [directory; "playwright.config" +:+ ext].

Lemma firstConfigFile_found exts : ∀ i ext,
  exts !! i = Some ext →
  existsSync h (candidate ext) = true →
  (∀ j ext', (j < i)%nat → exts !! j = Some ext' →
     existsSync h (candidate ext') = false) →
  firstConfigFile h directory exts = Some (candidate ext).
Proof.
  induction exts as [|e exts IH]; intros i ext Hi Hex Hbefore; [done|].
  cbn [firstConfigFile]. unfold resolveConfig. fold (candidate e).
  destruct i as [|i]; simpl in Hi.
  - injection Hi as ->. rewrite Hex.
    by rewrite given_Some by apply resolve_nonempty.
  - rewrite (Hbefore 0%nat e) by (done || lia). simpl.
    apply (IH i); [done..|].
    intros j ext' Hj Hl. apply (Hbefore (S j)); [lia|done].
Qed.

Lemma firstConfigFile_none exts :
  (∀ ext, ext ∈ exts → existsSync h (candidate ext) = false) →
  firstConfigFile h directory exts = None.
Proof.
  induction exts as [|e exts IH]; intros Hnone; [done|].
  cbn [firstConfigFile]. unfold resolveConfig. fold (candidate e).
  rewrite Hnone by (by left). simpl. apply IH.
  intros ext Hext. apply Hnone. by right.
Qed.
End firstConfigFile.

End LocateProps.

(** ** Keys that the schemas do not declare *)

Module OpenProps.
Import Zod TestOptions Host Validate Locate Loader ValidateSpec.

Lemma element_insert_ne o m k v key :
  k ≠ key → element (VObj (<[k:=v]> o) m) key = element (VObj o m) key.
Proof. intros Hk. unfold element, prop. simpl. by rewrite lookup_insert_ne. Qed.

(** An object schema does not look at the keys it does not declare. *)
Lemma parse_object_undeclared shape loose o m k v :
  k ∉ shape.*1 →
  parse (ZObject shape loose) (VObj (<[k:=v]> o) m) =
  parse (ZObject shape loose) (VObj o m).
Proof.
  intros Hk. cbn [parse isObject].
  induction shape as [|[key s] shape IH]; [done|].
  rewrite fmap_cons in Hk. apply not_elem_of_cons in Hk as [Hkey Hk].
  rewrite IH by done. f_equal. f_equal. f_equal.
  unfold field, prop. by rewrite lookup_insert_ne.
Qed.

Lemma validateTestOptions_Returns file use title :
  validateTestOptions file use title = Returns () ↔
  parse testOptionsSchema use = [].
Proof.
  unfold validateTestOptions. by destruct (parse testOptionsSchema use).
Qed.

Lemma validatePatterns_undeclared file o m k v title key :
  k ≠ key →
  validatePatterns file (VObj (<[k:=v]> o) m) title key =
  validatePatterns file (VObj o m) title key.
Proof.
  intros Hk. unfold validatePatterns.
  rewrite !element_insert_ne by done. simpl.
  by rewrite lookup_insert_ne.
Qed.

Lemma validateProject_undeclared file o m k v title :
  k ∉ ["testIgnore"; "testMatch"; "use"] →
  validateProject file (VObj (<[k:=v]> o) m) title =
  validateProject file (VObj o m) title.
Proof.
  intros Hk. unfold validateProject. cbn [typeof_object truthy negb orb forEach].
  rewrite !validatePatterns_undeclared by set_solver.
  rewrite !element_insert_ne by set_solver. simpl.
  by rewrite lookup_insert_ne by set_solver.
Qed.

Lemma validateConfig_undeclared h file o m k v :
  k ∉ (configShape h).*1 → k ∉ inspected →
  validateConfig h file (VObj o m) = Returns () →
  validateConfig h file (VObj (<[k:=v]> o) m) = Returns ().
Proof.
  intros Hshape Hk. unfold inspected in Hk.
  unfold validateConfig. cbn [typeof_object truthy negb orb].
  unfold testConfigSchema. rewrite parse_object_undeclared by done.
  destruct (parse _ (VObj o m)); [|done].
  rewrite validateProject_undeclared by set_solver.
  rewrite !element_insert_ne by set_solver. done.
Qed.

Lemma validateProject_use file p mp use title :
  truthy use = true → typeof_object use = true →
  validateProject file (VObj (<["use" := use]> p) mp) title =
  (forEach (λ _ key, validatePatterns file (VObj p mp) title key) 0%nat
     ["testIgnore"; "testMatch"] ;;
   validateTestOptions file use (title +:+ ".use")).
Proof.
  intros Ht Ho. unfold validateProject. cbn [typeof_object truthy negb orb forEach].
  rewrite !validatePatterns_undeclared by done.
  unfold element, prop. simpl. rewrite lookup_insert_eq. simpl.
  rewrite Ht, Ho. simpl. by destruct use.
Qed.

(** [loadConfig] hands on the very object that was loaded. *)
Lemma loadConfig_Returns {Overrides} h location (overrides : option Overrides)
    metadata full :
  loadConfig h location overrides metadata = Returns full →
  loadUserConfig h location = Returns (userConfig full) ∧
  validateConfig h (default "<default config>" (given (resolvedConfigFile location)))
    (userConfig full) = Returns () ∧
  defineConfigWasUsed full = marked (userConfig full).
Proof.
  unfold loadConfig.
  intros (_ & _ & (u & Hu & ([] & Hv & [= <-])%bind_Returns)%bind_Returns)%bind_Returns.
  done.
Qed.

Lemma loadConfig_total {Overrides} h location (overrides : option Overrides)
    metadata u :
  setupESMLoader h location = Returns () →
  loadUserConfig h location = Returns u →
  validateConfig h (default "<default config>" (given (resolvedConfigFile location)))
    u = Returns () →
  ∃ full, loadConfig h location overrides metadata = Returns full ∧
          userConfig full = u.
Proof.
  intros Hesm Hu Hv. unfold loadConfig. rewrite Hesm, Hu. simpl. rewrite Hv.
  simpl. eauto.
Qed.

End OpenProps.

(** * The statements of the specification *)

Import Merge MergeSpec MergeAux Zod TestOptions Host Validate ValidateSpec.
Import Locate Loader Build Demo.
Import MergeProps ValidateProps OpenProps LocateProps.




(** C2.  The checks of a configuration run in a fixed order (the top-level
    schema, then the options of the configuration itself with its [use],
    then the projects by index, then the [tsconfig] file), and what
    [validateConfig] throws is what the first failing check throws; the
    later checks have no say.  Of several issues the schema finds, only the
    first is reported. *)
Theorem validateConfig_first_violation (h : host) (file : string) (config : value) :
  typeof_object config = true →
  truthy config = true →
  (∀ e, validateConfig h file config = Throws e ↔
        firstThrow (configChecks h file config) e) ∧
  (validateConfig h file config = Returns () ↔
     Forall (λ c, c = Returns ()) (configChecks h file config)) ∧
  (∀ issue rest, parse (testConfigSchema h) config = issue :: rest →
     validateConfig h file config = Throws (reportConfigIssue file config issue)) ∧
  (∀ e, parse (testConfigSchema h) config = [] →
     validateProject file config "config" = Throws e →
     validateConfig h file config = Throws e) ∧
  (∀ items i project e,
     parse (testConfigSchema h) config = [] →
     validateProject file config "config" = Returns () →
     element config "projects" = VArr items →
     items !! i = Some project →
     validateProject file project ("config.projects[" +:+ pretty i +:+ "]") = Throws e →
     (∀ j earlier, (j < i)%nat → items !! j = Some earlier →
        validateProject file earlier ("config.projects[" +:+ pretty j +:+ "]") = Returns ()) →
     validateConfig h file config = Throws e).
Proof.
  intros Ho Ht. rewrite (validateConfig_inOrder h file config Ho Ht).
  split; [|split; [|split; [|split]]].
  - intros e. apply inOrder_Throws.
  - apply inOrder_Returns.
  - intros issue rest Hp. apply inOrder_Throws. exists 0%nat.
    split; [|lia]. simpl. unfold schemaCheck. by rewrite Hp.
  - intros e Hp He. apply inOrder_Throws. exists 1%nat.
    split; [simpl; by rewrite He|].
    intros [|j] Hj; [|lia]. simpl. unfold schemaCheck. by rewrite Hp.
  - intros items i project e Hp Hown Hitems Hi He Hbefore.
    assert (useCheck file config = Returns ()) as Huse.
    { unfold useCheck. destruct (is_undefined (element config "use")) eqn:Hu; [done|].
      simpl. revert Hown. unfold validateProject. rewrite Ho, Ht. simpl.
      destruct (validatePatterns file config "config" "testIgnore") as [[]|]; [|done].
      destruct (validatePatterns file config "config" "testMatch") as [[]|]; [|done].
      simpl. rewrite Hu. simpl.
      destruct (bool_decide (is_Some (spread config !! "use"))) eqn:Hin; simpl.
      - destruct (negb (truthy (element config "use")) ||
                  negb (typeof_object (element config "use"))); [done|].
        intros Hv. exact Hv.
      - exfalso. apply bool_decide_eq_false in Hin.
        unfold element, prop in Hu.
        destruct (spread config !! "use") as [u|] eqn:Hl; [apply Hin; eauto|done]. }
    assert (projectChecks file config =
            imap (λ index project,
              validateProject file project
                ("config.projects[" +:+ pretty index +:+ "]")) items) as Hchecks.
    { unfold projectChecks. by rewrite Hitems. }
    assert (∀ j, (configChecks h file config) !! (3 + j)%nat =
                 (imap (λ index project,
                    validateProject file project
                      ("config.projects[" +:+ pretty index +:+ "]")) items ++
                  [validateTsconfig h file (element config "tsconfig")]) !! j)
      as Hlookup.
    { intros j. unfold configChecks. by rewrite Hchecks. }
    apply inOrder_Throws. exists (3 + i)%nat. split.
    + rewrite Hlookup.
      rewrite lookup_app_l by (rewrite length_imap; by eapply lookup_lt_Some).
      rewrite list_lookup_imap, Hi. simpl. by rewrite He.
    + intros j Hj.
      destruct j as [|[|[|j]]].
      * simpl. unfold schemaCheck. by rewrite Hp.
      * simpl. by rewrite Hown.
      * simpl. by rewrite Huse.
      * assert (j < i)%nat as Hji by lia.
        destruct (lookup_lt_is_Some_2 items j) as [earlier Hearlier].
        { apply lookup_lt_Some in Hi. lia. }
        change (S (S (S j))) with (3 + j)%nat. rewrite Hlookup.
        rewrite lookup_app_l by (rewrite length_imap; by eapply lookup_lt_Some).
        rewrite list_lookup_imap, Hearlier. simpl.
        by rewrite (Hbefore j earlier Hji Hearlier).
Qed.

Lemma validateConfig_first_violation_witness :
  let config := obj [
    ("fullyParallel", VStr "yes");
    ("globalTimeout", VNum (-1));
    ("use", obj [("headless", VStr "yes")]);
    ("projects", VArr [obj [("use", obj [("browserName", VStr "opera")])]])] in
  validateConfig demoHost "playwright.config.ts" config =
  Throws (optionError "playwright.config.ts" "fullyParallel"
    "expected boolean, received string" (Some (VStr "yes"))).
Proof.
  intros config.
  destruct (validateConfig_first_violation demoHost "playwright.config.ts" config
              eq_refl eq_refl) as (_ & _ & Hfirst & _).
  rewrite (Hfirst
    (Issue invalid_type [PKey "fullyParallel"]
       "Invalid input: expected boolean, received string" false)
    [Issue too_small [PKey "globalTimeout"]
       "Too small: expected number to be >=0" true]).
  - vm_compute. reflexivity.
  - vm_compute. reflexivity.
Defined.

(** C3 is not what the code does.  On [use: {launchOptions: {timeout: -5}}]
    the schema reports a bound violation at the path [launchOptions],
    [timeout], where the value found is [-5]; the error of
    [validateTestOptions] gives the received value as [undefined], because
    the value is looked up under the single key ["launchOptions.timeout"].
    [validateConfig] does likewise on a bound violation at the path
    [expect], [timeout]. *)
Theorem validateTestOptions_nested_received :
  let use := obj [("launchOptions", obj [("timeout", VNum (-5))])] in
  let config := obj [("expect", obj [("timeout", VNum (-1000))])] in
  let issue := Issue too_small [PKey "expect"; PKey "timeout"]
                 "Too small: expected number to be >=0" true in
  parse testOptionsSchema use =
    [Issue too_small [PKey "launchOptions"; PKey "timeout"]
       "Too small: expected number to be >0" true] ∧
  walk use [PKey "launchOptions"; PKey "timeout"] = Returns (VNum (-5)) ∧
  validateTestOptions "playwright.config.ts" use "config.use" =
    Throws (optionError "playwright.config.ts" "config.use.launchOptions.timeout"
      "Too small: expected number to be >0" (Some VUndef)) ∧
  walk config (path issue) = Returns (VNum (-1000)) ∧
  reportConfigIssue "playwright.config.ts" config issue =
    optionError "playwright.config.ts" "expect.timeout"
      "Too small: expected number to be >=0" (Some VUndef).
Proof. repeat split; vm_compute; reflexivity. Qed.

(** C4.  Merging two fragments shallow-merges [expect], [use] and [build]:
    the result holds, under each of these keys, an object with the properties
    of the first fragment's sub-object overwritten key by key by those of the
    second fragment's.  The merge returns whenever the [projects] of both
    fragments are in order.  Merging [{use: {a: 1, b: 1}}] and
    [{use: {b: 2}}] gives [use: {a: 1, b: 2}]. *)
Theorem defineConfig_shallow_merge (a b : gmap string value * bool) :
  (projectsOk (prop a.1 "projects") → projectsOk (prop b.1 "projects") →
   ∃ r, defineConfig [a; b] = Returns r) ∧
  (∀ r, defineConfig [a; b] = Returns r →
   ∀ sub, sub ∈ ["expect"; "use"; "build"] →
     r.1 !! sub = Some (VObj (spread (prop b.1 sub) ∪ spread (prop a.1 sub))
                             (marked (prop a.1 sub) || marked (prop b.1 sub))) ∧
     ∀ key, spread (prop r.1 sub) !! key =
            match spread (prop b.1 sub) !! key with
            | Some v => Some v
            | None => spread (prop a.1 sub) !! key
            end) ∧
  ∃ r', defineConfig [fragment [("use", num_obj [("a", 1); ("b", 1)])];
                      fragment [("use", num_obj [("b", 2)])]] = Returns r' ∧
        r'.1 !! "use" = Some (num_obj [("a", 1); ("b", 2)]).
Proof.
  split; [apply defineConfig_two_total|]. split.
  - intros r (r' & Hstep & ->)%defineConfig_two_Returns sub Hsub. simpl.
    assert (r'.1 !! sub = Some (spread2 (prop a.1 sub) (prop b.1 sub))) as Hr.
    { rewrite (mergeStep_lookup a b r' sub Hstep).
      - by apply mergeFields_lookup_sub.
      - intros ->. set_solver. }
    split; [done|]. intros key. unfold prop at 1. rewrite Hr. simpl.
    rewrite lookup_union.
    by destruct (spread (prop b.1 sub) !! key), (spread (prop a.1 sub) !! key).
  - eexists. split; [vm_compute; reflexivity|]. vm_compute. reflexivity.
Qed.

Lemma defineConfig_shallow_merge_witness :
  let a := fragment [("use", num_obj [("a", 1); ("b", 1)]);
                     ("expect", num_obj [("timeout", 5)])] in
  let b := fragment [("use", num_obj [("b", 2)])] in
  ∃ r, defineConfig [a; b] = Returns r ∧
       r.1 !! "use" = Some (num_obj [("a", 1); ("b", 2)]) ∧
       r.1 !! "expect" = Some (num_obj [("timeout", 5)]).
Proof.
  intros a b.
  destruct (defineConfig_shallow_merge a b) as (Htotal & Hsub & _).
  destruct Htotal as [r Hr]; [reflexivity..|].
  exists r. split; [exact Hr|]. split.
  - destruct (Hsub r Hr "use") as [-> _]; [set_solver|]. vm_compute. reflexivity.
  - destruct (Hsub r Hr "expect") as [-> _]; [set_solver|]. vm_compute. reflexivity.
Defined.

(** C5.  A fold step normalizes [webServer] on both sides to a sequence
    (none when absent, the one value when it is a single object, the
    elements when it is an array) and makes the result's [webServer] the
    accumulator's sequence followed by the fragment's.  The step returns
    whenever the [projects] of both sides are in order.  Merging
    [{webServer: {port: 1}}] and [{webServer: [{port: 2}]}] gives
    [webServer: [{port: 1}, {port: 2}]]. *)
Theorem mergeStep_webServer_concat (a b : gmap string value * bool) :
  (projectsOk (prop a.1 "projects") → projectsOk (prop b.1 "projects") →
   ∃ r, mergeStep a b = Returns r) ∧
  (∀ r, mergeStep a b = Returns r →
   r.1 !! "webServer" =
     Some (VArr (webServerList (prop a.1 "webServer") ++
                 webServerList (prop b.1 "webServer")))) ∧
  (∀ f : gmap string value,
     f !! "webServer" = None → webServerList (prop f "webServer") = []) ∧
  (∀ o m, webServerList (VObj o m) = [VObj o m]) ∧
  (∀ items, webServerList (VArr items) = items) ∧
  ∃ r', defineConfig [fragment [("webServer", num_obj [("port", 1)])];
                      fragment [("webServer", VArr [num_obj [("port", 2)]])]]
        = Returns r' ∧
        r'.1 !! "webServer" =
          Some (VArr [num_obj [("port", 1)]; num_obj [("port", 2)]]).
Proof.
  split; [apply mergeStep_total|]. split; [|split; [|split; [|split]]].
  - intros r Hstep.
    rewrite (mergeStep_lookup a b r "webServer" Hstep) by done.
    apply mergeFields_lookup_webServer.
  - intros f Hf. unfold prop. by rewrite Hf.
  - done.
  - done.
  - eexists. split; vm_compute; reflexivity.
Qed.

Lemma mergeStep_webServer_concat_witness :
  let a := fragment [("webServer", num_obj [("port", 1)])] in
  let b := fragment [("webServer",
             VArr [num_obj [("port", 2)]; num_obj [("port", 3)]])] in
  ∃ r, mergeStep a b = Returns r ∧
       r.1 !! "webServer" =
         Some (VArr [num_obj [("port", 1)]; num_obj [("port", 2)];
                     num_obj [("port", 3)]]).
Proof.
  intros a b.
  destruct (mergeStep_webServer_concat a b) as (Htotal & Hweb & _).
  destruct Htotal as [r Hr]; [reflexivity..|].
  exists r. split; [exact Hr|]. rewrite (Hweb r Hr). vm_compute. reflexivity.
Defined.

(** C6, as stated, fails: merging [{timeout: 1}] and [{retries: 2}], whose
    keys are disjoint, does not give the union of the two: the result also
    has the keys [expect], [use], [build] and [webServer]. *)
Lemma defineConfig_disjoint_not_union :
  ¬ ∀ a b r : gmap string value * bool,
      dom a.1 ## dom b.1 → defineConfig [a; b] = Returns r → r.1 = a.1 ∪ b.1.
Proof.
  intros H.
  specialize (H (fragment [("timeout", VNum 1)]) (fragment [("retries", VNum 2)])
                (list_to_map [("timeout", VNum 1); ("retries", VNum 2);
                              ("expect", VObj ∅ false); ("use", VObj ∅ false);
                              ("build", VObj ∅ false); ("webServer", VArr [])], true)).
  assert (∀ m1 m2 : gmap string value, m1 = m2 → m1 !! "use" = m2 !! "use") as Hf
    by (by intros ?? ->).
  apply Hf in H; [vm_compute in H; discriminate| |].
  - vm_compute. set_solver.
  - vm_compute. reflexivity.
Qed.

(** C6, amended.  Merging two fragments with disjoint keys gives, for every
    key other than [expect], [use], [build], [webServer] and [projects], the
    value the one fragment that has the key gives it; the result has the keys
    of both fragments and, always, the four keys [expect], [use], [build] and
    [webServer], and no other key; its [expect], [use] and [build] are the
    shallow merges (a sub-object that is an object is kept as it is) and its
    [webServer] the normalized sequence.  The merge returns whenever the
    [projects] of both fragments are in order.  One call on several fragments
    gives what a call on the first two followed by a call on the outcome and
    the rest gives, and merging the outcome of a one-fragment call with a
    second fragment gives what merging the two does. *)
Theorem defineConfig_disjoint (a b : gmap string value * bool) :
  dom a.1 ## dom b.1 →
  (projectsOk (prop a.1 "projects") → projectsOk (prop b.1 "projects") →
   ∃ r, defineConfig [a; b] = Returns r) ∧
  ∀ r, defineConfig [a; b] = Returns r →
  dom r.1 = dom a.1 ∪ dom b.1 ∪ {["expect"; "use"; "build"; "webServer"]} ∧
  (∀ k, k ∉ ["expect"; "use"; "build"; "webServer"; "projects"] →
     r.1 !! k = (a.1 ∪ b.1) !! k) ∧
  (∀ k, k ∈ ["expect"; "use"; "build"] →
     r.1 !! k = Some (spread2 (prop a.1 k) (prop b.1 k)) ∧
     ∀ o m, (a.1 ∪ b.1) !! k = Some (VObj o m) → r.1 !! k = Some (VObj o m)) ∧
  r.1 !! "webServer" = Some (VArr (webServerList (prop (a.1 ∪ b.1) "webServer"))) ∧
  (∀ rest, defineConfig (a :: b :: rest) = defineConfig (r :: rest)) ∧
  (a' ← defineConfig [a]; defineConfig [a'; b]) = Returns r.
Proof.
  intros Hd. split; [apply defineConfig_two_total|]. intros r Hr.
  pose proof Hr as (r' & Hstep & ->)%defineConfig_two_Returns.
  change ((r'.1, true).1) with r'.1.
  assert (∀ k, k ∈ ["expect"; "use"; "build"] →
            r'.1 !! k = Some (spread2 (prop a.1 k) (prop b.1 k))) as Hsub.
  { intros k Hk. rewrite (mergeStep_lookup a b r' k Hstep).
    - by apply mergeFields_lookup_sub.
    - intros ->. set_solver. }
  split; [|split; [|split; [|split; [|split]]]].
  - rewrite (mergeStep_dom a b r' Hstep). unfold written. set_solver.
  - intros k Hk. rewrite (mergeStep_lookup a b r' k Hstep) by set_solver.
    rewrite mergeFields_lookup_other by (unfold written; set_solver).
    f_equal. apply map_union_comm. by apply map_disjoint_dom.
  - intros k Hk. split; [by apply Hsub|]. intros o m Hu.
    rewrite Hsub by done. f_equal.
    destruct (prop_union_disjoint a.1 b.1 k Hd) as [[-> Hp]|[-> Hp]];
      unfold prop in Hp at 1; rewrite Hu in Hp; simpl in Hp; rewrite <- Hp.
    + apply spread2_undefined_l.
    + apply spread2_undefined_r.
  - rewrite (mergeStep_lookup a b r' "webServer" Hstep) by done.
    rewrite mergeFields_lookup_webServer. do 2 f_equal.
    destruct (prop_union_disjoint a.1 b.1 "webServer" Hd) as [[-> ->]|[-> ->]];
      simpl; [done|by rewrite app_nil_r].
  - intros rest. by rewrite defineConfig_assoc, Hr.
  - rewrite defineConfig_one.
    change (defineConfig [(a.1, true); b] = Returns (r'.1, true)).
    rewrite defineConfig_two in Hr |- *.
    destruct a as [f m]. simpl in *.
    rewrite mergeStep_mark in Hr |- *.
    destruct (mergeStep (f, false) b) as [[g x]|e]; simpl in *; [|done].
    by injection Hr as <-.
Qed.

Lemma defineConfig_disjoint_witness :
  let a := fragment [("timeout", VNum 1); ("use", num_obj [("x", 1)])] in
  let b := fragment [("retries", VNum 2); ("webServer", num_obj [("port", 1)])] in
  ∃ r, dom a.1 ## dom b.1 ∧ defineConfig [a; b] = Returns r ∧
       r.1 !! "timeout" = Some (VNum 1) ∧ r.1 !! "retries" = Some (VNum 2) ∧
       r.1 !! "use" = Some (num_obj [("x", 1)]) ∧
       r.1 !! "webServer" = Some (VArr [num_obj [("port", 1)]]).
Proof.
  intros a b.
  assert (dom a.1 ## dom b.1) as Hd.
  { unfold a, b, fragment; simpl. rewrite !dom_insert_L, !dom_empty_L. set_solver. }
  destruct (defineConfig_disjoint a b Hd) as (Htotal & Hunion).
  destruct Htotal as [r Hr]; [reflexivity..|].
  exists r. split; [exact Hd|]. split; [exact Hr|].
  destruct (Hunion r Hr) as (_ & Hk & Hsub & Hw & _).
  split; [|split; [|split]].
  - rewrite (Hk "timeout") by set_solver. vm_compute. reflexivity.
  - rewrite (Hk "retries") by set_solver. vm_compute. reflexivity.
  - destruct (Hsub "use") as [-> _]; [set_solver|]. vm_compute. reflexivity.
  - rewrite Hw. vm_compute. reflexivity.
Defined.

(** C7.  The location resolver, on the target its input resolves to: when
    the target does not exist, it fails with an error that names it; when
    the target is a directory, it gives the first of the files
    [playwright.config.ts], [.js], [.mts], [.mjs], [.cts], [.cjs] of that
    directory that exists, in this order, and the directory of that file as
    base directory, or no file and the target itself as base directory when
    none exists; when the target is a file, it gives that file, whatever its
    extension, and its directory. *)
Theorem resolveConfigLocation_cases (h : host) (configFile : option string) :
  (∀ segments, path_resolve h segments ≠ "") →
  cwd h ≠ "" →
  let target :=
    match given configFile with
    | Some f => path_resolve h [cwd h; f]
    | None => cwd h
    end in
  let candidate ext := path_resolve h [target; "playwright.config" +:+ ext] in
  extensions = [".ts"; ".js"; ".mts"; ".mjs"; ".cts"; ".cjs"] ∧
  (existsSync h target = false →
     resolveConfigLocation h configFile =
     Throws (PlainError (target +:+ " does not exist"))) ∧
  (existsSync h target = true → isDirectory h target = true →
     (∀ i ext,
        extensions !! i = Some ext →
        existsSync h (candidate ext) = true →
        (∀ j ext', (j < i)%nat → extensions !! j = Some ext' →
           existsSync h (candidate ext') = false) →
        resolveConfigLocation h configFile =
        Returns {| resolvedConfigFile := Some (candidate ext);
                   configDir := path_dirname h (candidate ext) |}) ∧
     ((∀ ext, ext ∈ extensions → existsSync h (candidate ext) = false) →
        resolveConfigLocation h configFile =
        Returns {| resolvedConfigFile := None; configDir := target |})) ∧
  (existsSync h target = true → isDirectory h target = false →
     resolveConfigLocation h configFile =
     Returns {| resolvedConfigFile := Some target;
                configDir := path_dirname h target |}).
Proof.
  intros Hres Hcwd target candidate.
  assert (target ≠ "") as Htarget.
  { unfold target. destruct (given configFile); [apply Hres|done]. }
  split; [done|]. unfold resolveConfigLocation. fold target.
  unfold resolveConfigFile.
  split; [|split].
  - intros ->. done.
  - intros -> ->. cbn [negb]. unfold resolveConfigFileFromDirectory. split.
    + intros i ext Hi Hex Hbefore.
      rewrite (firstConfigFile_found h target Hres extensions i ext) by done.
      rewrite given_Some by apply Hres. cbn [mbind outcome_bind].
      by rewrite given_Some by apply Hres.
    + intros Hnone. by rewrite firstConfigFile_none.
  - intros -> ->. cbn [negb mbind outcome_bind]. by rewrite given_Some.
Qed.

Lemma resolveConfigLocation_cases_witness :
  resolveConfigLocation demoHost None =
  Returns {| resolvedConfigFile := Some "/w/playwright.config.js";
             configDir := "/w" |}.
Proof.
  assert (∀ segments, path_resolve demoHost segments ≠ "") as Hres by done.
  assert (cwd demoHost ≠ "") as Hcwd by done.
  destruct (resolveConfigLocation_cases demoHost None Hres Hcwd)
    as (_ & _ & Hdir & _).
  destruct (Hdir eq_refl eq_refl) as [Hfound _].
  apply (Hfound 1%nat ".js"); [done..|].
  intros [|j] ext' Hj Hext'; [|lia]. by injection Hext' as <-.
Defined.

(** C8.  A key that the schema does not declare does not make validation
    fail: a [use] object that passes [validateTestOptions] still passes with
    such a key added, and so does a configuration that passes
    [validateConfig]; the validators return nothing and [loadConfig] hands
    on the object that was loaded, so the key and its value are there after
    validation. *)
Theorem unknown_key_tolerated
    (h : host) (file title : string) (o : gmap string value) (m : bool)
    (k : string) (v : value) :
  (∀ key, key ∈ inspected → key ∈ (configShape h).*1) →
  (k ∉ testOptionsShape.*1 →
     validateTestOptions file (VObj o m) title = Returns () →
     validateTestOptions file (VObj (<[k:=v]> o) m) title = Returns ()) ∧
  (k ∉ testOptionsShape.*1 →
     ∀ project mark,
       validateProject file (VObj (<["use" := VObj o m]> project) mark) title
         = Returns () →
       validateProject file (VObj (<["use" := VObj (<[k:=v]> o) m]> project) mark) title
         = Returns ()) ∧
  (k ∉ (configShape h).*1 →
     validateConfig h file (VObj o m) = Returns () →
     validateConfig h file (VObj (<[k:=v]> o) m) = Returns ()) ∧
  (∀ Overrides location (overrides : option Overrides) metadata full,
     loadConfig h location overrides metadata = Returns full →
     loadUserConfig h location = Returns (userConfig full) ∧
     ∀ u mark, userConfig full = VObj (<[k:=v]> u) mark →
               element (userConfig full) k = v).
Proof.
  intros Hdecl.
  assert (k ∉ testOptionsShape.*1 → ∀ t,
            validateTestOptions file (VObj o m) t = Returns () →
            validateTestOptions file (VObj (<[k:=v]> o) m) t = Returns ()) as Huse.
  { intros Hk t. rewrite !validateTestOptions_Returns.
    unfold testOptionsSchema. by rewrite parse_object_undeclared. }
  split; [|split; [|split]].
  - intros Hk. by apply Huse.
  - intros Hk project mark. rewrite !validateProject_use by done.
    destruct (forEach _ _ _) as [[]|]; [|done]. simpl. by apply Huse.
  - intros Hk. apply validateConfig_undeclared; [done|].
    intros Hin. by apply Hk, Hdecl.
  - intros Overrides location overrides metadata full Hfull.
    apply loadConfig_Returns in Hfull as (Hu & _). split; [done|].
    intros u mark ->. unfold element, prop. simpl. by rewrite lookup_insert_eq.
Qed.

Lemma unknown_key_tolerated_witness :
  let use : gmap string value := {[ "headless" := VBool true ]} in
  validateTestOptions "playwright.config.ts"
    (VObj (<["myCustomFixture" := VStr "value"]> use) false) "config.use"
    = Returns () ∧
  validateConfig demoHost "playwright.config.ts"
    (VObj (<["customProperty" := VStr "value"]> {[ "fullyParallel" := VBool true ]}) false)
    = Returns ().
Proof.
  intros use.
  assert (∀ key, key ∈ inspected → key ∈ (configShape demoHost).*1) as Hdecl.
  { intros key Hkey. unfold inspected in Hkey. simpl. set_solver. }
  split.
  - destruct (unknown_key_tolerated demoHost "playwright.config.ts" "config.use"
                use false "myCustomFixture" (VStr "value") Hdecl) as (Huse & _).
    apply Huse.
    + apply (bool_decide_unpack _). vm_compute. exact I.
    + vm_compute. reflexivity.
  - destruct (unknown_key_tolerated demoHost "playwright.config.ts" "config"
                {[ "fullyParallel" := VBool true ]} false "customProperty"
                (VStr "value") Hdecl) as (_ & _ & Hconfig & _).
    apply Hconfig.
    + apply (bool_decide_unpack _). vm_compute. exact I.
    + vm_compute. reflexivity.
Defined.

(** C9.  [defineConfig] called with one fragment returns that fragment,
    all its keys as they were, with the mark that [defineConfig] was used;
    and the [defineConfigWasUsed] flag of the configuration [loadConfig]
    returns is true exactly when the loaded user configuration carries that
    mark.  [loadConfig] returns whenever the loader is set up, the module
    loads and the configuration is valid. *)
Theorem defineConfig_single_marks
    {Overrides : Type} (c : gmap string value * bool)
    (h : host) (location : ConfigLocation) (overrides : option Overrides)
    (metadata : option value) :
  defineConfig [c] = Returns (c.1, true) ∧
  (∀ full, loadConfig h location overrides metadata = Returns full →
     loadUserConfig h location = Returns (userConfig full) ∧
     (defineConfigWasUsed full = true ↔ marked (userConfig full) = true)) ∧
  (∀ u, setupESMLoader h location = Returns () →
     loadUserConfig h location = Returns u →
     validateConfig h
       (default "<default config>" (given (resolvedConfigFile location))) u
       = Returns () →
     ∃ full, loadConfig h location overrides metadata = Returns full ∧
             userConfig full = u ∧
             (defineConfigWasUsed full = true ↔ marked u = true)).
Proof.
  split; [done|]. split.
  - intros full (Hu & _ & Hflag)%loadConfig_Returns.
    split; [done|]. by rewrite Hflag.
  - intros u Hesm Hu Hv.
    destruct (loadConfig_total h location overrides metadata u Hesm Hu Hv)
      as (full & Hfull & Huser).
    exists full. split; [done|]. split; [done|].
    apply loadConfig_Returns in Hfull as (_ & _ & ->). by rewrite Huser.
Qed.

Lemma defineConfig_single_marks_witness :
  let c := fragment [("fullyParallel", VBool true); ("myOption", VNum 1)] in
  let location := {| resolvedConfigFile := Some "/w/playwright.config.js";
                     configDir := "/w" |} in
  ∃ full : FullConfigInternal unit,
    loadConfig demoHost location None None = Returns full ∧
    defineConfig [c] = Returns (c.1, true) ∧
    userConfig full = VObj c.1 true ∧
    defineConfigWasUsed full = true.
Proof.
  intros c location.
  destruct (defineConfig_single_marks (Overrides := unit) c demoHost location
              None None) as (Hone & _ & Htotal).
  destruct (Htotal (VObj c.1 true)) as (full & Hfull & Hu & Hflag).
  - reflexivity.
  - vm_compute. reflexivity.
  - vm_compute. reflexivity.
  - exists full. split; [exact Hfull|]. split; [exact Hone|].
    split; [exact Hu|]. by apply Hflag.
Defined.



(** * Further properties

    Lemmas about the code beyond the statements above, and the statements
    they lead to. *)

(** ** The fragment merger *)

Module MergeMoreProps.
Import Merge MergeSpec MergeAux MergeProps MergeMore.

Lemma mergeFrom_app xs ys : ∀ acc,
  mergeFrom acc (xs ++ ys) = r ← mergeFrom acc xs; mergeFrom r ys.
Proof.
  induction xs as [|x xs IH]; intros acc; [done|].
  cbn [app mergeFrom]. destruct (mergeStep acc x) as [r|e]; [|done].
  apply IH.
Qed.

Lemma mergeFrom_fields_mark f m1 m2 rest r :
  mergeFrom (f, m1) rest = Returns r →
  ∃ r', mergeFrom (f, m2) rest = Returns r' ∧ r'.1 = r.1.
Proof.
  rewrite (mergeFrom_mark rest f m1), (mergeFrom_mark rest f m2).
  destruct (mergeFrom (f, false) rest) as [[g x]|e]; [|done].
  intros [= <-]. eauto.
Qed.

Lemma spread_spread2 a b : spread (spread2 a b) = spread b ∪ spread a.
Proof. done. Qed.

Lemma mergeStep_sub acc c r sub :
  sub ∈ ["expect"; "use"; "build"] →
  mergeStep acc c = Returns r →
  r.1 !! sub = Some (spread2 (prop acc.1 sub) (prop c.1 sub)).
Proof.
  intros Hsub Hstep. rewrite (mergeStep_lookup acc c r sub Hstep).
  - by apply mergeFields_lookup_sub.
  - intros ->. set_solver.
Qed.

Lemma mergeFrom_overlaySub sub rest : ∀ acc r,
  sub ∈ ["expect"; "use"; "build"] →
  mergeFrom acc rest = Returns r →
  spread (prop r.1 sub) = overlaySub sub (spread (prop acc.1 sub)) rest.
Proof.
  induction rest as [|c rest IH]; intros acc r Hsub; simpl.
  - by intros [= <-].
  - intros (r' & Hstep & Hrest)%bind_Returns.
    rewrite (IH r' r Hsub Hrest). unfold overlaySub. simpl. f_equal.
    unfold prop at 1. by rewrite (mergeStep_sub acc c r' sub Hsub Hstep).
Qed.

Lemma mergeFrom_overlay rest : ∀ acc r k,
  k ∉ special →
  mergeFrom acc rest = Returns r →
  r.1 !! k = overlay acc.1 rest !! k.
Proof.
  unfold special.
  induction rest as [|c rest IH]; intros acc r k Hk; simpl.
  - by intros [= <-].
  - intros (r' & Hstep & Hrest)%bind_Returns.
    rewrite (IH r' r k Hk Hrest). unfold overlay. simpl.
    assert (∀ (l : list (gmap string value * bool)) (m1 m2 : gmap string value),
              m1 !! k = m2 !! k →
              foldl (λ m c, c.1 ∪ m) m1 l !! k =
              foldl (λ m c, c.1 ∪ m) m2 l !! k) as Hext.
    { clear. induction l as [|x l IHl]; intros m1 m2 Hm; simpl; [done|].
      apply IHl. by rewrite !lookup_union, Hm. }
    apply Hext. rewrite (mergeStep_lookup acc c r' k Hstep) by set_solver.
    apply mergeFields_lookup_other. unfold written. set_solver.
Qed.

(** Looking a key up in an overlay: the last fragment that has it wins. *)
Lemma foldl_union_lookup_last {A} (f : A → gmap string value) k v :
  ∀ before c after (first : gmap string value),
    f c !! k = Some v →
    Forall (λ c', f c' !! k = None) after →
    foldl (λ m c, f c ∪ m) first (before ++ c :: after) !! k = Some v.
Proof.
  intros before c after first Hc Hafter.
  rewrite foldl_app. simpl.
  generalize (foldl (λ m c0, f c0 ∪ m) first before). intros m.
  assert ((f c ∪ m) !! k = Some v) as Hm by (by apply lookup_union_Some_l).
  revert Hm. generalize (f c ∪ m). clear m.
  induction Hafter as [|x after Hx Hafter IH]; intros m Hm; simpl; [done|].
  apply IH. by rewrite lookup_union_r.
Qed.

Lemma foldl_union_lookup_none {A} (f : A → gmap string value) k :
  ∀ l (first : gmap string value),
    Forall (λ c', f c' !! k = None) l →
    foldl (λ m c, f c ∪ m) first l !! k = first !! k.
Proof.
  intros l first Hl. revert first.
  induction Hl as [|x l Hx Hl IH]; intros first; simpl; [done|].
  rewrite IH. by rewrite lookup_union_r.
Qed.

Lemma mergeFrom_webServers rest : ∀ acc r items,
  prop acc.1 "webServer" = VArr items →
  mergeFrom acc rest = Returns r →
  r.1 !! "webServer" = Some (VArr (items ++ webServers rest)).
Proof.
  induction rest as [|c rest IH]; intros acc r items Hacc; simpl.
  - intros [= <-]. unfold prop in Hacc. rewrite app_nil_r.
    by destruct (acc.1 !! "webServer") as [?|]; simplify_eq/=.
  - intros (r' & Hstep & Hrest)%bind_Returns.
    assert (r'.1 !! "webServer" =
            Some (VArr (items ++ webServerList (prop c.1 "webServer")))) as Hr'.
    { rewrite (mergeStep_lookup acc c r' "webServer" Hstep) by done.
      by rewrite mergeFields_lookup_webServer, Hacc. }
    rewrite (IH r' r (items ++ webServerList (prop c.1 "webServer")));
      [|unfold prop; by rewrite Hr'|done].
    unfold webServers. csimpl. by rewrite app_assoc.
Qed.

Lemma defineConfig_webServers
    (a b : gmap string value * bool) (rest : list (gmap string value * bool))
    (r : gmap string value * bool) :
  defineConfig (a :: b :: rest) = Returns r →
  r.1 !! "webServer" = Some (VArr (webServers (a :: b :: rest))).
Proof.
  unfold defineConfig. cbn [mergeFrom].
  intros (r1 & (r' & Hstep & Hrest)%bind_Returns & [= <-])%bind_Returns.
  cbn [fst].
  assert (r'.1 !! "webServer" =
          Some (VArr (webServerList (prop a.1 "webServer") ++
                      webServerList (prop b.1 "webServer")))) as Hr'.
  { rewrite (mergeStep_lookup a b r' "webServer" Hstep) by done.
    apply mergeFields_lookup_webServer. }
  rewrite (mergeFrom_webServers rest r' r1 _ ltac:(unfold prop; by rewrite Hr') Hrest).
  unfold webServers. csimpl. by rewrite app_assoc.
Qed.

End MergeMoreProps.

Module ProjectsMoreProps.
Import Merge MergeSpec MergeAux MergeProps MergeMore MergeMoreProps.

Lemma mergeProjects_iterate prev current base overrides :
  iterate prev = Returns base → iterate current = Returns overrides →
  Forall (λ p, nullish p = false) base →
  Forall (λ o, truthy o = true) overrides →
  mergeProjects prev current = Returns (overrideMerge base overrides).
Proof.
  intros Hprev Hcur Hbase Ho.
  rewrite <- (mergeProjects_overrideMerge base overrides Hbase Ho).
  unfold mergeProjects. by rewrite Hprev, Hcur.
Qed.

Lemma mergedFrom_no_overrides base : ∀ seen, mergedFrom seen [] base = base.
Proof.
  induction base as [|p base IH]; intros seen; simpl; [done|].
  rewrite IH. by destruct (existsb _ seen).
Qed.

Lemma overrideMerge_no_overrides base : overrideMerge base [] = base.
Proof.
  unfold overrideMerge, appended. simpl.
  by rewrite mergedFrom_no_overrides, app_nil_r.
Qed.

Lemma mergedFrom_truthy overrides base : ∀ seen,
  Forall (λ p, truthy p = true) base →
  Forall (λ p, truthy p = true) (mergedFrom seen overrides base).
Proof.
  intros seen Hbase. revert seen.
  induction Hbase as [|p base Hp Hbase IH]; intros seen; simpl; [constructor|].
  constructor; [|apply IH].
  destruct (existsb _ seen); [done|].
  by destruct (last (filter (named (nameOf p)) overrides)).
Qed.

Lemma overrideMerge_truthy base overrides :
  Forall (λ p, truthy p = true) base →
  Forall (λ o, truthy o = true) overrides →
  Forall (λ p, truthy p = true) (overrideMerge base overrides).
Proof.
  intros Hbase Ho. unfold overrideMerge. apply Forall_app. split.
  - by apply mergedFrom_truthy.
  - rewrite Forall_forall in Ho.
    eapply Forall_impl; [apply appended_elem|]. intros x Hx. by apply Ho.
Qed.

Lemma mergeFrom_projects rest : ∀ acc base,
  acc.1 !! "projects" = Some (VArr base) →
  Forall (λ p, truthy p = true) base →
  Forall (λ c, ∃ l, c.1 !! "projects" = Some (VArr l) ∧
                    Forall (λ p, truthy p = true) l) rest →
  ∃ r, mergeFrom acc rest = Returns r ∧
       r.1 !! "projects" =
         Some (VArr (foldl overrideMerge base (projectLists rest))).
Proof.
  induction rest as [|c rest IH]; intros acc base Hacc Hbase Hrest.
  - simpl. eauto.
  - inversion_clear Hrest as [|?? (l & Hc & Hl) Hrest'].
    cbn [mergeFrom].
    rewrite (mergeStep_projects acc c base l Hacc Hc)
      by (done || (eapply Forall_impl; [exact Hbase|apply truthy_not_nullish])).
    cbn [mbind outcome_bind].
    destruct (IH (<["projects" := VArr (overrideMerge base l)]>
                    (mergeFields acc.1 c.1), acc.2 || c.2)
                 (overrideMerge base l)) as (r & Hr & Hp).
    + simpl. by rewrite lookup_insert_eq.
    + by apply overrideMerge_truthy.
    + done.
    + exists r. split; [done|]. rewrite Hp. unfold projectLists. csimpl.
      unfold prop at 2. by rewrite Hc.
Qed.

(** Names *)

Lemma isProject_field p : isProject p = true → nameOf p = prop (spread p) "name".
Proof. by destruct p. Qed.

Lemma nameOf_overrideProject p o :
  isProject p = true → isProject o = true → named (nameOf p) o →
  nameOf (overrideProject p o) = nameOf p.
Proof.
  intros Hp Ho Hn. apply same_value_zero_true in Hn as [Hn _].
  destruct p as [| | | | | | |op mp], o as [| | | | | | |oo mo]; try done.
  unfold nameOf, overrideProject, field, prop in *. simpl.
  rewrite lookup_insert_ne by done. rewrite lookup_union.
  destruct (oo !! "name") as [x|], (op !! "name") as [y|]; simpl in *; by subst.
Qed.

Lemma mergedFrom_names overrides base : ∀ seen,
  Forall (λ p, isProject p = true) base →
  Forall (λ o, isProject o = true) overrides →
  nameOf <$> mergedFrom seen overrides base = nameOf <$> base.
Proof.
  intros seen Hbase Ho. revert seen.
  induction Hbase as [|p base Hp Hbase IH]; intros seen; csimpl; [done|].
  rewrite IH. f_equal.
  destruct (existsb _ seen); [done|].
  destruct (last (filter (named (nameOf p)) overrides)) as [o|] eqn:Hl; [|done].
  apply last_Some_elem_of, list_elem_of_filter in Hl as [Hn Hin].
  rewrite Forall_forall in Ho. by apply nameOf_overrideProject; [|apply Ho|].
Qed.

Lemma not_named_names n l :
  Forall (λ q, ¬ named n q) l ↔
  Forall (λ k, same_value_zero n k ≠ true) (nameOf <$> l).
Proof. by rewrite Forall_fmap. Qed.

Lemma distinctNames_names l1 l2 :
  nameOf <$> l1 = nameOf <$> l2 → distinctNames l1 → distinctNames l2.
Proof.
  revert l2. induction l1 as [|x l1 IH]; intros [|y l2] Heq; try done.
  injection Heq as Hxy Heq. change (nameOf <$> l1 = nameOf <$> l2) in Heq.
  cbn [distinctNames]. intros [Hx Hd]. split; [|by apply IH].
  apply not_named_names. rewrite <- Hxy, <- Heq. by apply not_named_names.
Qed.

Lemma distinctNames_app l1 l2 :
  distinctNames l1 → distinctNames l2 →
  Forall (λ x, Forall (λ y, ¬ named (nameOf x) y) l2) l1 →
  distinctNames (l1 ++ l2).
Proof.
  induction l1 as [|x l1 IH]; simpl; [done|].
  intros [Hx Hd1] Hd2 Hcross. inversion_clear Hcross as [|?? Hxl2 Hrest].
  split; [|by apply IH]. apply Forall_app. by split.
Qed.

Lemma distinctKeys_distinctNames (m : list (value * value)) :
  distinctKeys m → Forall (λ e, nameOf e.2 = e.1) m → distinctNames m.*2.
Proof.
  induction m as [|e m IH]; csimpl; [done|].
  intros [He Hd] Hn. inversion_clear Hn as [|?? Hne Hnm].
  split; [|by apply IH].
  apply Forall_fmap. rewrite Forall_forall in He, Hnm |- *.
  intros e' Hin. simpl. unfold named. rewrite Hne, (Hnm e' Hin).
  by rewrite (He e' Hin).
Qed.

Lemma appended_distinct base overrides :
  Forall (λ o, nullish o = false) overrides →
  distinctNames (appended base overrides).
Proof.
  intros Ho. unfold appended. apply distinctKeys_distinctNames.
  - apply distinctKeys_filter. by apply keyed_distinct.
  - apply Forall_filter_keep. apply keyedFrom_names.
Qed.

(** Failure *)

Lemma member_Throws v k e : member v k = Throws e → e = TypeError.
Proof. destruct v; simpl; by intros [= <-]. Qed.

Lemma member_Returns v k :
  (∃ x, member v k = Returns x) ↔ nullish v = false.
Proof.
  destruct v; simpl; split; try done; try (by intros [? [=]]); eauto.
Qed.

Lemma iterate_Throws v e : iterate v = Throws e → e = TypeError.
Proof.
  unfold iterate. destruct (truthy v); [|done].
  destruct v; by intros [= <-].
Qed.

Lemma collectOverrides_Returns overrides : ∀ m,
  (∃ m', collectOverrides overrides m = Returns m') ↔
  Forall (λ o, nullish o = false) overrides.
Proof.
  induction overrides as [|o rest IH]; intros m; simpl.
  - split; [constructor|eauto].
  - rewrite Forall_cons. split.
    + intros (m' & (n & Hn & Hc)%bind_Returns). split.
      * apply (member_Returns o "name"). eauto.
      * apply (IH (map_set n o m)). eauto.
    + intros [Hn Hrest]. rewrite member_name by done. simpl. by apply IH.
Qed.

Lemma collectOverrides_Throws overrides : ∀ m e,
  collectOverrides overrides m = Throws e → e = TypeError.
Proof.
  induction overrides as [|o rest IH]; intros m e; simpl; [done|].
  intros [Hm|(n & _ & Hc)]%bind_Throws; [by eapply member_Throws|by eapply IH].
Qed.

Lemma mergeLoop_Returns prev : ∀ m,
  (∃ r, mergeLoop prev m = Returns r) ↔ Forall (λ p, nullish p = false) prev.
Proof.
  induction prev as [|p rest IH]; intros m; simpl.
  - split; [constructor|eauto].
  - rewrite Forall_cons. split.
    + intros (r & (n & Hn & Hc)%bind_Returns). split.
      * apply (member_Returns p "name"). eauto.
      * destruct (map_get n m) as [o|]; [destruct (truthy o)|];
          apply bind_Returns in Hc as (r' & Hr' & _);
          eapply IH; eauto.
    + intros [Hn Hrest]. rewrite member_name by done. simpl.
      destruct (map_get _ m) as [o|]; [destruct (truthy o)|].
      * destruct (proj2 (IH (map_delete (nameOf p) m)) Hrest) as [r ->]. simpl. eauto.
      * destruct (proj2 (IH m) Hrest) as [r ->]. simpl. eauto.
      * destruct (proj2 (IH m) Hrest) as [r ->]. simpl. eauto.
Qed.

Lemma mergeLoop_Throws prev : ∀ m e,
  mergeLoop prev m = Throws e → e = TypeError.
Proof.
  induction prev as [|p rest IH]; intros m e; simpl; [done|].
  intros [Hm|(n & _ & Hc)]%bind_Throws; [by eapply member_Throws|].
  destruct (map_get n m) as [o|]; [destruct (truthy o)|];
    apply bind_Throws in Hc as [Hc|(? & _ & [=])]; by eapply IH.
Qed.

Lemma mergeProjects_Throws prev current e :
  mergeProjects prev current = Throws e → e = TypeError.
Proof.
  unfold mergeProjects.
  intros [H1|(ovs & _ & [H2|(m & _ & [H3|(base & _ & [H4|(r & _ & [=])]%bind_Throws)
    ]%bind_Throws)]%bind_Throws)]%bind_Throws.
  - by eapply iterate_Throws.
  - by eapply collectOverrides_Throws.
  - by eapply iterate_Throws.
  - by eapply mergeLoop_Throws.
Qed.

Lemma mergeStep_Throws a b e : mergeStep a b = Throws e → e = TypeError.
Proof.
  unfold mergeStep. case_match; [done|].
  intros [Hm|(? & _ & [=])]%bind_Throws. by eapply mergeProjects_Throws.
Qed.

Lemma mergeFrom_Throws rest : ∀ acc e,
  mergeFrom acc rest = Throws e → e = TypeError.
Proof.
  induction rest as [|c rest IH]; intros acc e; simpl; [done|].
  intros [H|(r & _ & H)]%bind_Throws; [by eapply mergeStep_Throws|by eapply IH].
Qed.

End ProjectsMoreProps.

(** ** The validators *)

Module WalkProps.
Import Zod TestOptions Host Validate ValidateSpec ValidateProps.

(** Induction on schemas, through the lists of fields and of options. *)
Lemma schema_nested_ind (P : schema → Prop) :
  P ZString → (∀ checks, P (ZNumber checks)) → P ZBoolean → P ZNull → P ZAny →
  (∀ options, P (ZEnum options)) → (∀ literal, P (ZLiteral literal)) →
  (∀ class, P (ZInstanceof class)) →
  (∀ element, P element → P (ZArray element)) →
  (∀ values, P values → P (ZRecord values)) →
  (∀ shape loose, Forall (λ ks, P ks.2) shape → P (ZObject shape loose)) →
  (∀ options, Forall P options → P (ZUnion options)) →
  (∀ inner, P inner → P (ZOptional inner)) →
  ∀ s, P s.
Proof.
  intros Hstr Hnum Hbool Hnull Hany Henum Hlit Hinst Harr Hrec Hobj Huni Hopt.
  fix IH 1. intros [| | | | | | | |e|v|shape loose|options|inner];
    [done..|by apply Harr|by apply Hrec| | |by apply Hopt].
  - apply Hobj. induction shape as [|[k s] shape IHs]; constructor; [apply IH|apply IHs].
  - apply Huni. induction options as [|s options IHs]; constructor; [apply IH|apply IHs].
Qed.

Lemma index_props_lookup (l : list value) i x :
  l !! i = Some x → index_props l !! pretty i = Some x.
Proof.
  intros Hi. unfold index_props. apply elem_of_list_to_map.
  - rewrite fmap_imap.
    assert (imap (λ n, fst ∘ (λ v : value, (pretty n, v))) l =
            pretty <$> seq 0 (length l)) as ->.
    { rewrite <- (imap_seq_0 l pretty). by apply imap_ext. }
    apply NoDup_fmap; [apply _|apply NoDup_seq].
  - by apply (elem_of_lookup_imap_2 (λ i v, (pretty i, v)) l x i).
Qed.

Lemma elem_of_prefixIssues i seg issues :
  i ∈ prefixIssues seg issues →
  ∃ i', i' ∈ issues ∧ path i = seg :: path i' ∧ code i = code i' ∧
        message i = message i'.
Proof.
  unfold prefixIssues. intros (i' & -> & Hin)%list_elem_of_fmap. eauto.
Qed.

Lemma runCheck_code z c i : i ∈ runCheck z c → code i ≠ invalid_type.
Proof.
  destruct c; simpl; repeat case_decide;
    intros Hin; try (by apply elem_of_nil in Hin);
    by apply list_elem_of_singleton in Hin as ->.
Qed.

(** An issue of code [invalid_type] lies on a path that can be followed in
    the value that was parsed, and its message names the type of the value
    the path leads to. *)
Lemma parse_invalid_type s : ∀ v i,
  i ∈ parse s v → code i = invalid_type →
  ∃ expected w,
    walk v (path i) = Returns w ∧
    message i =
      "Invalid input: expected " +:+ expected +:+ ", received " +:+ parsedType w.
Proof.
  induction s as [|checks| | | |options|literal|class|elt IH|values IH
                  |shape loose IH|options IH|inner IH] using schema_nested_ind;
    intros v i; cbn [parse].
  - destruct (is_string v); [by intros ?%elem_of_nil|].
    intros ->%list_elem_of_singleton _. simpl. eauto.
  - destruct v; try (intros ->%list_elem_of_singleton _; simpl; eauto).
    intros (c & Hi & _)%list_elem_of_bind Hc. by apply runCheck_code in Hi.
  - destruct v; try (by intros ?%elem_of_nil);
      intros ->%list_elem_of_singleton _; simpl; eauto.
  - destruct v; try (by intros ?%elem_of_nil);
      intros ->%list_elem_of_singleton _; simpl; eauto.
  - by intros ?%elem_of_nil.
  - destruct v; try (by intros ->%list_elem_of_singleton).
    case_decide; [by intros ?%elem_of_nil|].
    by intros ->%list_elem_of_singleton.
  - destruct v; try (by intros ->%list_elem_of_singleton).
    case_decide; [by intros ?%elem_of_nil|].
    by intros ->%list_elem_of_singleton.
  - intros ->%list_elem_of_singleton _. simpl. eauto.
  - destruct v; try (intros ->%list_elem_of_singleton _; simpl; eauto).
    intros (issues & Hi & Hissues)%list_elem_of_join Hc.
    apply elem_of_lookup_imap in Hissues as (idx & x & -> & Hx).
    apply elem_of_prefixIssues in Hi as (i' & Hi' & Hp & Hcode & Hm).
    rewrite Hcode in Hc. destruct (IH x i' Hi' Hc) as (expected & w & Hw & Hmsg).
    exists expected, w. rewrite Hp, Hm. split; [|done]. cbn [walk segment].
    unfold element. simpl. unfold prop. by rewrite (index_props_lookup _ _ _ Hx).
  - destruct v; try (intros ->%list_elem_of_singleton _; simpl; eauto).
    intros ([k x] & Hi & Hkx)%list_elem_of_bind Hc.
    apply elem_of_map_to_list in Hkx.
    apply elem_of_prefixIssues in Hi as (i' & Hi' & Hp & Hcode & Hm).
    rewrite Hcode in Hc. destruct (IH x i' Hi' Hc) as (expected & w & Hw & Hmsg).
    exists expected, w. rewrite Hp, Hm. split; [|done]. cbn [walk segment].
    unfold element, prop. simpl in *. by rewrite Hkx.
  - destruct (isObject v) eqn:Hobj;
      [|intros ->%list_elem_of_singleton _; simpl; eauto].
    induction IH as [|[k s] shape Hs _ IHshape]; [by intros ?%elem_of_nil|].
    intros [Hi|Hi]%elem_of_app Hc; [|by apply IHshape].
    apply elem_of_prefixIssues in Hi as (i' & Hi' & Hp & Hcode & Hm).
    rewrite Hcode in Hc. destruct (Hs _ _ Hi' Hc) as (expected & w & Hw & Hmsg).
    exists expected, w. rewrite Hp, Hm. split; [|done].
    destruct v; try done; cbn [walk segment]; exact Hw.
  - destruct (existsb _ _); [by intros ?%elem_of_nil|].
    unfold handleUnionResults.
    destruct (filter _ _) as [|only [|]] eqn:Hf;
      try (by intros ->%list_elem_of_singleton).
    intros Hi.
    assert (only ∈ (λ s', parse s' v) <$> options) as Hin.
    { eapply (list_elem_of_filter (λ r, aborted r = false)).
      rewrite Hf. by left. }
    apply list_elem_of_fmap in Hin as (s' & -> & Hs').
    rewrite Forall_forall in IH. by apply (IH s' Hs').
  - destruct (is_undefined v); [by intros ?%elem_of_nil|]. apply IH.
Qed.

End WalkProps.

Module ValidateMoreProps.
Import Zod TestOptions Host Validate ValidateSpec ValidateProps WalkProps ValidateMore.

Lemma forEach_Returns {A} (body : nat → A → outcome unit) (ok : A → bool) xs :
  (∀ i x, body i x = Returns () ↔ ok x = true) →
  ∀ i, forEach body i xs = Returns () ↔ forallb ok xs = true.
Proof.
  intros Hbody. induction xs as [|x xs IH]; intros i; simpl; [done|].
  rewrite andb_true_iff, <- (IH (S i)), <- (Hbody i x).
  destruct (body i x) as [[]|]; simpl; [|split; [done|by intros [? _]]].
  split; [by split|by intros [_ ?]].
Qed.

Lemma forEach_first {A} (body : nat → A → outcome unit) xs : ∀ i j x e,
  xs !! j = Some x → body (i + j)%nat x = Throws e →
  (∀ k y, (k < j)%nat → xs !! k = Some y → body (i + k)%nat y = Returns ()) →
  forEach body i xs = Throws e.
Proof.
  induction xs as [|x0 xs IH]; intros i j x e Hj He Hbefore; [done|].
  destruct j as [|j]; simpl in *.
  - injection Hj as ->. rewrite Nat.add_0_r in He. by rewrite He.
  - specialize (Hbefore 0%nat x0 ltac:(lia) eq_refl) as H0.
    rewrite Nat.add_0_r in H0. rewrite H0. simpl.
    apply (IH (S i) j x e Hj).
    + by replace (S i + j)%nat with (i + S j)%nat by lia.
    + intros k y Hk Hy. replace (S i + k)%nat with (i + S k)%nat by lia.
      apply Hbefore; [lia|done].
Qed.

Lemma forEach_Throws {A} (body : nat → A → outcome unit) xs : ∀ i e,
  forEach body i xs = Throws e →
  ∃ j x, xs !! j = Some x ∧ body (i + j)%nat x = Throws e.
Proof.
  induction xs as [|x0 xs IH]; intros i e; simpl; [done|].
  destruct (body i x0) as [[]|e'] eqn:Hb; simpl.
  - intros (j & x & Hj & He)%IH. exists (S j), x. split; [done|].
    by replace (i + S j)%nat with (S i + j)%nat by lia.
  - intros [= ->]. exists 0%nat, x0. by rewrite Nat.add_0_r.
Qed.

Lemma validatePatterns_Returns file project title key :
  validatePatterns file project title key = Returns () ↔
  patternsOk project key = true.
Proof.
  unfold validatePatterns, patternsOk, element, prop.
  destruct (spread project !! key) as [v|] eqn:Hv; simpl; [|done].
  rewrite ?bool_decide_eq_true_2 by eauto. simpl.
  destruct v; simpl; try done.
  apply forEach_Returns. intros i x. unfold isPattern.
  by destruct (is_string x), (isRegExp x).
Qed.

Lemma use_Returns file project title :
  (if bool_decide (is_Some (spread project !! "use")) &&
      negb (is_undefined (element project "use"))
   then if negb (truthy (element project "use")) ||
           negb (typeof_object (element project "use"))
        then Throws (ErrorWithFile file (title +:+ ".use must be an object") None)
        else validateTestOptions file (element project "use") (title +:+ ".use")
   else Returns ()) = Returns () ↔ useOk project = true.
Proof.
  unfold useOk, element, prop, validateTestOptions.
  generalize (parse testOptionsSchema). intros p.
  destruct (spread project !! "use") as [use|]; simpl; [|done].
  rewrite ?bool_decide_eq_true_2 by eauto. simpl.
  destruct use; simpl; try done; try (by destruct (p _));
    rewrite orb_true_r; split; try done; by rewrite !andb_false_r.
Qed.

Lemma validateProject_Returns file project title :
  validateProject file project title = Returns () ↔
  acceptedProject project = true.
Proof.
  unfold validateProject, acceptedProject. rewrite !andb_true_iff.
  rewrite <- (validatePatterns_Returns file project title "testIgnore").
  rewrite <- (validatePatterns_Returns file project title "testMatch").
  rewrite <- (use_Returns file project title).
  destruct (typeof_object project); cbn [negb orb]; [|by intuition].
  destruct (truthy project); cbn [negb orb]; [|by intuition].
  cbn [forEach].
  destruct (validatePatterns file project title "testIgnore") as [[]|];
    cbn [mbind outcome_bind]; [|by intuition].
  destruct (validatePatterns file project title "testMatch") as [[]|];
    cbn [mbind outcome_bind]; [|by intuition].
  by intuition.
Qed.

Lemma validateProjects_Returns file projects :
  validateProjects file projects = Returns () ↔
  acceptedProjects projects = true.
Proof.
  unfold validateProjects, acceptedProjects.
  destruct (truthy projects); [|done].
  destruct projects; try done.
  apply forEach_Returns. intros i x. apply validateProject_Returns.
Qed.

Lemma validateTsconfig_Returns h file tsconfig :
  validateTsconfig h file tsconfig = Returns () ↔ tsconfigOk h file tsconfig = true.
Proof.
  unfold validateTsconfig, tsconfigOk. destruct tsconfig; try done. simpl.
  destruct (String.eqb s ""); simpl; [done|].
  by destruct (existsSync _ _).
Qed.

Lemma useCheck_Returns file config :
  useCheck file config = Returns () ↔
  match element config "use" with
  | VUndef => true
  | use => match parse testOptionsSchema use with [] => true | _ => false end
  end = true.
Proof.
  unfold useCheck, validateTestOptions.
  generalize (parse testOptionsSchema). intros p.
  destruct (element config "use"); simpl; try done;
    by destruct (p _).
Qed.

Lemma validateConfig_Returns h file config :
  validateConfig h file config = Returns () ↔ acceptedConfig h file config = true.
Proof.
  unfold validateConfig, acceptedConfig. rewrite !andb_true_iff.
  rewrite <- (validateProject_Returns file config "config").
  rewrite <- (validateProjects_Returns file), <- validateTsconfig_Returns.
  rewrite <- (useCheck_Returns file). unfold useCheck.
  destruct (typeof_object config); cbn [negb orb]; [|split; [done|intros ?; destruct_and?; done]].
  destruct (truthy config); cbn [negb orb]; [|split; [done|intros ?; destruct_and?; done]].
  destruct (parse (testConfigSchema h) config); [|split; [done|intros ?; destruct_and?; done]].
  destruct (validateProject file config "config") as [[]|];
    cbn [mbind outcome_bind]; [|split; [done|intros ?; destruct_and?; done]].
  destruct (if negb _ then _ else _) as [[]|];
    cbn [mbind outcome_bind]; [|split; [done|intros ?; destruct_and?; done]].
  destruct (validateProjects _ _) as [[]|];
    cbn [mbind outcome_bind]; [|split; [done|intros ?; destruct_and?; done]].
  by intuition.
Qed.

End ValidateMoreProps.

Module ErrorProps.
Import Zod TestOptions Host Validate ValidateSpec ValidateProps WalkProps ValidateMore ValidateMoreProps.

Lemma reportOptionsIssue_located s file use title i :
  i ∈ parse s use → located file (reportOptionsIssue file use title i).
Proof.
  intros Hi. unfold reportOptionsIssue, optionError, located.
  destruct (code i) eqn:Hc; eauto.
  destruct (path i) eqn:Hp; eauto.
  destruct (parse_invalid_type _ _ _ Hi Hc) as (expected & w & Hw & _).
  rewrite Hp in Hw. rewrite Hw. eauto.
Qed.

Lemma reportConfigIssue_located s file config i :
  i ∈ parse s config → located file (reportConfigIssue file config i).
Proof.
  intros Hi. unfold reportConfigIssue, optionError, located.
  destruct (code i) eqn:Hc; eauto.
  destruct (path i) eqn:Hp; eauto.
  destruct (parse_invalid_type _ _ _ Hi Hc) as (expected & w & Hw & _).
  rewrite Hp in Hw. rewrite Hw. eauto.
Qed.

Lemma validateTestOptions_located file use title e :
  validateTestOptions file use title = Throws e → located file e.
Proof.
  unfold validateTestOptions.
  destruct (parse testOptionsSchema use) as [|i rest] eqn:Hparse; [done|].
  intros [= <-]. apply (reportOptionsIssue_located testOptionsSchema).
  rewrite Hparse. by left.
Qed.

Lemma validatePatterns_located file project title key e :
  validatePatterns file project title key = Throws e → located file e.
Proof.
  unfold validatePatterns, patternError, located.
  destruct (_ && _); [|done].
  destruct (element project key); simpl; try done; try (intros [= <-]; eauto).
  intros (j & x & _ & Hx)%forEach_Throws.
  destruct (_ && _); [|done]. injection Hx as <-. eauto.
Qed.

Lemma validateProject_located file project title e :
  validateProject file project title = Throws e → located file e.
Proof.
  unfold validateProject.
  destruct (_ || _); [intros [= <-]; unfold located; eauto|].
  cbn [forEach].
  destruct (validatePatterns file project title "testIgnore") as [[]|e1] eqn:H1;
    cbn [mbind outcome_bind];
    [|intros [= <-]; by eapply validatePatterns_located].
  destruct (validatePatterns file project title "testMatch") as [[]|e2] eqn:H2;
    cbn [mbind outcome_bind];
    [|intros [= <-]; by eapply validatePatterns_located].
  destruct (_ && _); [|done].
  destruct (_ || _); [intros [= <-]; unfold located; eauto|].
  apply validateTestOptions_located.
Qed.

Lemma validateConfig_Throws h file config e :
  validateConfig h file config = Throws e →
  located file e ∨
  (e = TypeError ∧ truthy (element config "projects") = true ∧
   isArray (element config "projects") = false).
Proof.
  unfold validateConfig.
  destruct (_ || _); [intros [= <-]; left; unfold located; eauto|].
  destruct (parse (testConfigSchema h) config) as [|i rest] eqn:Hparse.
  2:{ intros [= <-]. left. apply (reportConfigIssue_located (testConfigSchema h)).
      rewrite Hparse. by left. }
  destruct (validateProject file config "config") as [[]|e1] eqn:H1;
    cbn [mbind outcome_bind];
    [|intros [= <-]; left; by eapply validateProject_located].
  destruct (if negb _ then _ else _) as [[]|e2] eqn:H2;
    cbn [mbind outcome_bind].
  2:{ intros [= <-]. left. destruct (negb _); [|done].
      by eapply validateTestOptions_located. }
  destruct (validateProjects file (element config "projects")) as [[]|e3] eqn:H3;
    cbn [mbind outcome_bind].
  2:{ intros [= <-]. unfold validateProjects in H3.
      destruct (truthy (element config "projects")); [|done].
      destruct (element config "projects");
        try (injection H3 as <-; by right).
      left. apply forEach_Throws in H3 as (j & x & _ & Hx).
      by eapply validateProject_located. }
  unfold validateTsconfig. destruct (element config "tsconfig"); try done.
  destruct (_ && _); [|done]. intros [= <-]. left. unfold located. eauto.
Qed.

End ErrorProps.

Module SchemaProps.
Import Zod TestOptions Host Validate ValidateSpec ValidateProps WalkProps ValidateMore ValidateMoreProps.

Lemma prefixIssues_nil seg issues : prefixIssues seg issues = [] ↔ issues = [].
Proof. unfold prefixIssues. split; [apply fmap_nil_inv|by intros ->]. Qed.

(** An object passes an object schema when each declared key does. *)
Lemma parse_object_nil shape loose o m :
  parse (ZObject shape loose) (VObj o m) = [] ↔
  Forall (λ ks, parse ks.2 (prop o ks.1) = []) shape.
Proof.
  cbn [parse isObject]. induction shape as [|[k s] shape IH].
  - split; [constructor|done].
  - rewrite Forall_cons, <- IH. split.
    + intros [H1 H2]%app_eq_nil. by apply prefixIssues_nil in H1.
    + intros [H1 H2]. rewrite H2, app_nil_r. by apply prefixIssues_nil.
Qed.

Lemma parse_optional_nil s v :
  parse (ZOptional s) v = [] ↔ v = VUndef ∨ parse s v = [].
Proof.
  cbn [parse]. destruct v; simpl; try tauto; split; eauto; by intros [|].
Qed.

Lemma parse_number_nil checks v :
  parse (ZNumber checks) v = [] ↔
  ∃ z, v = VNum z ∧ Forall (λ c, runCheck z c = []) checks.
Proof.
  cbn [parse]. destruct v; try (split; [done|by intros (? & ? & _)]).
  split.
  - intros Hb. exists z. split; [done|].
    induction checks as [|c checks IH]; [constructor|].
    apply app_eq_nil in Hb as [??]. constructor; auto.
  - intros (z' & [= <-] & Hall).
    induction Hall as [|c checks Hc _ IH]; [done|].
    change ((c :: checks) ≫= runCheck z) with (runCheck z c ++ checks ≫= runCheck z).
    by rewrite Hc, IH.
Qed.

Lemma handleUnionResults_nil results :
  Forall (λ r, r ≠ []) results → handleUnionResults results ≠ [].
Proof.
  intros Hall. unfold handleUnionResults.
  destruct (filter _ _) as [|only [|]] eqn:Hf; try done.
  assert (only ∈ results) as Hin.
  { eapply (list_elem_of_filter (λ r, aborted r = false)). rewrite Hf. by left. }
  rewrite Forall_forall in Hall. by apply Hall.
Qed.

(** A value passes a union when it passes one of the options. *)
Lemma parse_union_nil options v :
  parse (ZUnion options) v = [] ↔ Exists (λ s, parse s v = []) options.
Proof.
  cbn [parse].
  destruct (existsb _ _) eqn:He.
  - split; [intros _|done].
    apply existsb_exists in He as (r & Hr & Hnil).
    apply list_elem_of_In, list_elem_of_fmap in Hr as (s & -> & Hs).
    apply Exists_exists. exists s. split; [done|]. by destruct (parse s v).
  - split.
    + intros Hnil. exfalso. revert Hnil. apply handleUnionResults_nil.
      apply Forall_fmap, Forall_forall. intros s Hs Hnil. simpl in Hnil.
      assert (existsb (λ r, match r with [] => true | _ => false end)
                ((λ s', parse s' v) <$> options) = true) as Ht; [|congruence].
      apply existsb_exists. exists (parse s v). split; [|by rewrite Hnil].
      apply list_elem_of_In, list_elem_of_fmap. eauto.
    + intros (s & Hs & Hnil)%Exists_exists. exfalso.
      assert (existsb (λ r, match r with [] => true | _ => false end)
                ((λ s', parse s' v) <$> options) = true) as Ht; [|congruence].
      apply existsb_exists. exists (parse s v). split; [|by rewrite Hnil].
      apply list_elem_of_In, list_elem_of_fmap. eauto.
Qed.

Lemma prop_Some (o : gmap string value) k v :
  v ≠ VUndef → (prop o k = v ↔ o !! k = Some v).
Proof.
  intros Hv. unfold prop. destruct (o !! k); simpl; split; congruence.
Qed.

(** Every option of [testOptionsSchema] is optional. *)
Lemma testOptionsShape_optional :
  Forall (λ ks, ∃ inner, ks.2 = ZOptional inner) testOptionsShape.
Proof. unfold testOptionsShape. repeat constructor; by eexists. Qed.

Lemma testOptionsShape_NoDup : NoDup testOptionsShape.*1.
Proof. apply (bool_decide_unpack _). vm_compute. exact I. Qed.

Lemma shape_functional (shape : list (string * schema)) k s1 s2 :
  NoDup shape.*1 → (k, s1) ∈ shape → (k, s2) ∈ shape → s1 = s2.
Proof.
  intros Hnd H1 H2.
  apply (elem_of_list_to_map (M := gmap string)) in H1, H2; [|done..].
  congruence.
Qed.

(** An options object that sets one declared option at most passes when
    that one does. *)
Lemma validateTestOptions_only file o m title key s :
  (key, ZOptional s) ∈ testOptionsShape →
  (∀ k, k ∈ testOptionsShape.*1 → k ≠ key → prop o k = VUndef) →
  validateTestOptions file (VObj o m) title = Returns () ↔
  prop o key = VUndef ∨ parse s (prop o key) = [].
Proof.
  intros Hkey Hothers.
  rewrite validateTestOptions_Returns. unfold testOptionsSchema.
  rewrite parse_object_nil, Forall_forall, <- parse_optional_nil. split.
  - intros Hall. apply (Hall _ Hkey).
  - intros Hk [k s'] Hin. simpl.
    destruct (decide (k = key)) as [->|Hne].
    + by rewrite (shape_functional _ _ _ _ testOptionsShape_NoDup Hin Hkey).
    + pose proof testOptionsShape_optional as Hopt.
      rewrite Forall_forall in Hopt. destruct (Hopt _ Hin) as [inner Hs'].
      simpl in Hs'. subst s'. apply parse_optional_nil. left.
      apply Hothers; [|done]. apply list_elem_of_fmap. by exists (k, ZOptional inner).
Qed.

Lemma runCheck_Int z :
  runCheck z Int = [] ↔ (- MAX_SAFE_INTEGER ≤ z ≤ MAX_SAFE_INTEGER)%Z.
Proof. simpl. repeat case_decide; split; try done; lia. Qed.

Lemma runCheck_Gt z b : runCheck z (Gt b) = [] ↔ (b < z)%Z.
Proof. simpl. case_decide; split; try done; lia. Qed.

Lemma runCheck_Gte z b : runCheck z (Gte b) = [] ↔ (b ≤ z)%Z.
Proof. simpl. case_decide; split; try done; lia. Qed.

Lemma runCheck_Lte z b : runCheck z (Lte b) = [] ↔ (z ≤ b)%Z.
Proof. simpl. case_decide; split; try done; lia. Qed.

End SchemaProps.

Module MessageProps.
Import Zod TestOptions Host Validate ValidateSpec ValidateProps WalkProps ValidateMore ValidateMoreProps SchemaProps.

Lemma substring_all s : String.substring 0 (String.length s) s = s.
Proof. induction s as [|c s IH]; simpl; [done|by rewrite IH]. Qed.

Lemma removeFirst_unfold pattern s :
  removeFirst pattern s =
  if String.prefix pattern s
  then String.substring (String.length pattern)
         (String.length s - String.length pattern) s
  else match s with
       | EmptyString => EmptyString
       | String c rest => String c (removeFirst pattern rest)
       end.
Proof. by destruct s. Qed.

Lemma prefix_append p s : String.prefix p (p +:+ s) = true.
Proof.
  induction p as [|c p IH]; simpl; [by destruct s|].
  by destruct (Ascii.ascii_dec c c).
Qed.

Lemma substring_append p s :
  String.substring (String.length p) (String.length s) (p +:+ s) = s.
Proof. induction p as [|c p IH]; simpl; [apply substring_all|done]. Qed.

Lemma length_append p s :
  String.length (p +:+ s) = (String.length p + String.length s)%nat.
Proof. induction p as [|c p IH]; simpl; [done|by rewrite IH]. Qed.

(** [(pattern + s).replace(pattern, '')] *)
Lemma removeFirst_append pattern s : removeFirst pattern (pattern +:+ s) = s.
Proof.
  rewrite removeFirst_unfold, prefix_append, length_append.
  replace (String.length pattern + String.length s - String.length pattern)%nat
    with (String.length s) by lia.
  apply substring_append.
Qed.

(** The issues of an object schema lie under the keys it declares. *)
Lemma parse_object_path shape loose v i :
  i ∈ parse (ZObject shape loose) v →
  path i = [] ∨ ∃ k rest, path i = PKey k :: rest ∧ k ∈ shape.*1.
Proof.
  cbn [parse]. destruct (isObject v);
    [|intros ->%list_elem_of_singleton; by left].
  induction shape as [|[k s] shape IH]; [by intros ?%elem_of_nil|].
  intros [Hi|Hi]%elem_of_app.
  - apply elem_of_prefixIssues in Hi as (i' & _ & Hp & _).
    right. exists k, (path i'). split; [done|]. by left.
  - destruct (IH Hi) as [?|(k' & rest & ? & ?)]; [by left|].
    right. exists k', rest. split; [done|]. by right.
Qed.

Lemma joinPath_nonempty k rest : k ≠ "" → joinPath (PKey k :: rest) ≠ "".
Proof.
  intros Hk. unfold joinPath. rewrite fmap_cons.
  generalize (segment <$> rest). intros l.
  destruct k as [|c k]; [done|]. destruct l; simpl; done.
Qed.

Lemma testOptionsShape_keys : Forall (λ k, k ≠ "") testOptionsShape.*1.
Proof. unfold testOptionsShape. simpl. repeat constructor; done. Qed.

End MessageProps.

Module ArrayProps.
Import Zod TestOptions Host Validate ValidateSpec ValidateProps WalkProps ValidateMore ValidateMoreProps ValidateAux.

Lemma pretty_N_go_digitHead x : ∀ s,
  digitHead s = true → digitHead (pretty_N_go x s) = true.
Proof.
  induction (N.lt_wf_0 x) as [x _ IH]; intros s Hs.
  assert (x = 0 ∨ 0 < x)%N as [->|?] by lia.
  - by rewrite pretty_N_go_0.
  - rewrite pretty_N_go_step by done. apply IH.
    { by apply N.div_lt. }
    unfold pretty_N_char. by repeat case_match.
Qed.

Lemma pretty_nat_digitHead (i : nat) : digitHead (pretty i) = true.
Proof.
  unfold pretty, pretty_nat, pretty, pretty_N.
  case_decide; [done|]. by apply pretty_N_go_digitHead.
Qed.

(** An array has no own property whose name does not start with a digit
    ([length] is not enumerable and is not read here). *)
Lemma index_props_other (l : list value) k :
  digitHead k = false → index_props l !! k = None.
Proof.
  intros Hk. unfold index_props. apply not_elem_of_list_to_map_1.
  rewrite fmap_imap.
  assert (imap (λ n, fst ∘ (λ v : value, (pretty n, v))) l =
          pretty <$> seq 0 (length l)) as ->.
  { rewrite <- (imap_seq_0 l pretty). by apply imap_ext. }
  intros (i & -> & _)%list_elem_of_fmap.
  by rewrite pretty_nat_digitHead in Hk.
Qed.

Lemma acceptedProject_array items : acceptedProject (VArr items) = true.
Proof.
  unfold acceptedProject, patternsOk, useOk. cbn [typeof_object truthy spread andb].
  by rewrite !index_props_other.
Qed.

End ArrayProps.

(** ** The loader *)

Module LoaderMoreProps.
Import Zod TestOptions Host Validate Locate Loader ValidateSpec ValidateProps LocateProps OpenProps ValidateMore ValidateMoreProps ErrorProps SchemaProps LoaderMore.

Lemma given_inv s x : given s = Some x → s = Some x ∧ x ≠ "".
Proof.
  unfold given. destruct s as [y|]; [|done].
  destruct (String.eqb y "") eqn:He; [done|].
  intros [= ->]. split; [done|]. by apply String.eqb_neq.
Qed.

Lemma given_None s : given s = None → s = None ∨ s = Some "".
Proof.
  unfold given. destruct s as [y|]; [|by left].
  destruct (String.eqb y "") eqn:He; [|done].
  apply String.eqb_eq in He as ->. by right.
Qed.

Lemma firstConfigFile_Some h directory exts file :
  firstConfigFile h directory exts = Some file →
  ∃ i ext, exts !! i = Some ext ∧
    file = path_resolve h [directory; "playwright.config" +:+ ext] ∧
    existsSync h file = true ∧ file ≠ "" ∧
    ∀ j ext', (j < i)%nat → exts !! j = Some ext' →
      existsSync h (path_resolve h [directory; "playwright.config" +:+ ext']) = false ∨
      path_resolve h [directory; "playwright.config" +:+ ext'] = "".
Proof.
  induction exts as [|e exts IH]; [done|]. cbn [firstConfigFile].
  destruct (given (resolveConfig h _)) as [f|] eqn:Hg.
  - intros [= ->]. apply given_inv in Hg as [Hr Hne].
    revert Hr. unfold resolveConfig.
    destruct (existsSync h (path_resolve h _)) eqn:Hex; [|done].
    intros [= <-]. exists 0%nat, e. repeat split; try done.
    intros j ext' Hj. lia.
  - intros (i & ext & Hi & Hf & Hex & Hne & Hbefore)%IH.
    exists (S i), ext. repeat split; try done.
    intros [|j] ext' Hj Hext'; simpl in Hext'.
    + injection Hext' as <-. apply given_None in Hg as [Hg|Hg];
        revert Hg; unfold resolveConfig; destruct (existsSync h (path_resolve h _));
        try done; auto.
      intros [= ->]. by right.
    + apply (Hbefore j); [lia|done].
Qed.

Lemma firstConfigFile_None h directory exts :
  firstConfigFile h directory exts = None →
  ∀ ext, ext ∈ exts →
    existsSync h (path_resolve h [directory; "playwright.config" +:+ ext]) = false ∨
    path_resolve h [directory; "playwright.config" +:+ ext] = "".
Proof.
  induction exts as [|e exts IH]; [by intros _ ? ?%elem_of_nil|].
  cbn [firstConfigFile].
  destruct (given (resolveConfig h _)) as [f|] eqn:Hg; [done|].
  intros Hrest ext [->|Hin]%elem_of_cons; [|by apply IH].
  apply given_None in Hg as [Hg|Hg];
    revert Hg; unfold resolveConfig; destruct (existsSync h (path_resolve h _));
    try done; auto.
  intros [= ->]. by right.
Qed.

Lemma resolveConfigLocation_Returns h configFile location :
  resolveConfigLocation h configFile = Returns location →
  ∃ target,
    target = match given configFile with
             | Some f => path_resolve h [cwd h; f]
             | None => cwd h
             end ∧
    resolveConfigFile h target = Returns (resolvedConfigFile location) ∧
    configDir location = match given (resolvedConfigFile location) with
                         | Some f => path_dirname h f
                         | None => target
                         end.
Proof.
  unfold resolveConfigLocation.
  intros (resolved & Hr & [= <-])%bind_Returns. eauto.
Qed.

Lemma resolveConfigFile_Some h target file :
  resolveConfigFile h target = Returns (Some file) →
  existsSync h file = true.
Proof.
  unfold resolveConfigFile.
  destruct (existsSync h target) eqn:Hex; [|done]. cbn [negb].
  destruct (isDirectory h target).
  - destruct (given _) as [f|] eqn:Hg; [|done]. intros [= ->].
    apply given_inv in Hg as [Hg _].
    by apply firstConfigFile_Some in Hg as (i & ext & _ & _ & ? & _).
  - by intros [= <-].
Qed.

Lemma loadConfig_inv {Overrides} h location (overrides : option Overrides)
    metadata full :
  loadConfig h location overrides metadata = Returns full →
  Loader.location full = location ∧
  configCLIOverrides full = overrides ∧
  Loader.metadata full = metadata ∧
  setupESMLoader h location = Returns () ∧
  loadUserConfig h location = Returns (userConfig full) ∧
  validateConfig h (default "<default config>" (given (resolvedConfigFile location)))
    (userConfig full) = Returns () ∧
  defineConfigWasUsed full = marked (userConfig full).
Proof.
  unfold loadConfig.
  intros ([] & He & (u & Hu & ([] & Hv & [= <-])%bind_Returns)%bind_Returns)%bind_Returns.
  done.
Qed.

End LoaderMoreProps.

Module LoadedProps.
Import Zod TestOptions Host Validate Locate Loader ValidateSpec ValidateProps LocateProps OpenProps ValidateMore ValidateMoreProps ErrorProps SchemaProps LoaderMore LoaderMoreProps.

Lemma acceptedProjects_inv projects :
  acceptedProjects projects = true →
  truthy projects = true →
  ∃ items, projects = VArr items ∧ Forall (λ p, acceptedProject p = true) items.
Proof.
  unfold acceptedProjects. intros Hacc Ht. rewrite Ht in Hacc.
  destruct projects; try done. eexists. split; [done|].
  apply Forall_forall. intros p Hp.
  rewrite forallb_forall in Hacc. by apply Hacc, list_elem_of_In.
Qed.

(** What [validateConfig] has checked of a configuration it returns on. *)
Lemma validateConfig_checked h file config :
  validateConfig h file config = Returns () →
  typeof_object config = true ∧ truthy config = true ∧
  parse (testConfigSchema h) config = [] ∧
  acceptedProject config = true ∧
  (element config "use" ≠ VUndef →
     parse testOptionsSchema (element config "use") = []) ∧
  (truthy (element config "projects") = true →
     ∃ items, element config "projects" = VArr items ∧
              Forall (λ p, acceptedProject p = true) items) ∧
  (∀ name, element config "tsconfig" = VStr name → name ≠ "" →
     existsSync h (path_resolve h [file; ".."; name]) = true).
Proof.
  intros Hv%validateConfig_Returns. unfold acceptedConfig in Hv.
  rewrite !andb_true_iff in Hv.
  destruct Hv as [[[[[[Ho Ht] Hs] Hp] Hu] Hps] Hts].
  split; [done|]. split; [done|].
  split; [by destruct (parse (testConfigSchema h) config)|].
  split; [done|]. split; [|split].
  - intros Hne. revert Hu. generalize (parse testOptionsSchema). intros p.
    destruct (element config "use"); try done; by destruct (p _).
  - by apply acceptedProjects_inv.
  - intros name Hname Hne. rewrite Hname in Hts. simpl in Hts.
    apply String.eqb_neq in Hne. by rewrite Hne in Hts.
Qed.

End LoadedProps.

(** * Further statements *)

Import MergeMore ValidateMore ValidateAux LoaderMore DemoMore.
Import MergeMoreProps ProjectsMoreProps WalkProps ValidateMoreProps ErrorProps.
Import SchemaProps MessageProps ArrayProps LoaderMoreProps LoadedProps.

(** ** The fragment merger, for any number of fragments *)

(** X1.  One call of [defineConfig] on a list of fragments cut in two gives
    what a call on the first part, followed by a call on its outcome and the
    second part, gives; an exception of the first call is the exception of
    the whole. *)
Theorem defineConfig_app (x : gmap string value * bool)
    (xs ys : list (gmap string value * bool)) :
  defineConfig (x :: xs ++ ys) =
  r ← defineConfig (x :: xs); defineConfig (r :: ys).
Proof.
  unfold defineConfig. rewrite mergeFrom_app.
  destruct (mergeFrom x xs) as [[g m]|e]; [|done]. simpl.
  rewrite (mergeFrom_mark ys g m), (mergeFrom_mark ys g true).
  by destruct (mergeFrom (g, false) ys) as [[g' m']|e'].
Qed.

(** X2.  The [webServer] of a merge of two fragments or more is the array
    of the [webServer] entries of all the fragments, in the order of the
    fragments. *)
Theorem defineConfig_webServer_all
    (a b : gmap string value * bool) (rest : list (gmap string value * bool))
    (r : gmap string value * bool) :
  defineConfig (a :: b :: rest) = Returns r →
  r.1 !! "webServer" = Some (VArr (webServers (a :: b :: rest))).
Proof. apply defineConfig_webServers. Qed.

Lemma defineConfig_webServer_all_witness :
  let a := fragment [("webServer", num_obj [("port", 1)])] in
  let b := fragment [("retries", VNum 2)] in
  let c := fragment [("webServer", VArr [num_obj [("port", 2)]; num_obj [("port", 3)]])] in
  ∃ r, defineConfig [a; b; c] = Returns r ∧
       r.1 !! "webServer" =
         Some (VArr [num_obj [("port", 1)]; num_obj [("port", 2)];
                     num_obj [("port", 3)]]).
Proof.
  intros a b c.
  assert (∃ r, defineConfig [a; b; c] = Returns r) as [r Hr]
    by (eexists; vm_compute; reflexivity).
  exists r. split; [exact Hr|].
  rewrite (defineConfig_webServer_all a b [c] r Hr). vm_compute. reflexivity.
Defined.

(** X3.  In a merge of any number of fragments, the properties of [expect],
    of [use] and of [build] are those of the fragments' sub-objects laid over
    one another: a property has the value given by the last fragment whose
    sub-object has it, and is absent when no fragment's sub-object has
    it. *)
Theorem defineConfig_sub_last_wins
    (configs : list (gmap string value * bool)) (r : gmap string value * bool)
    (sub : string) :
  sub ∈ ["expect"; "use"; "build"] →
  defineConfig configs = Returns r →
  (∀ before c after key v,
     configs = before ++ c :: after →
     spread (prop c.1 sub) !! key = Some v →
     Forall (λ c', spread (prop c'.1 sub) !! key = None) after →
     spread (prop r.1 sub) !! key = Some v) ∧
  (∀ key,
     Forall (λ c', spread (prop c'.1 sub) !! key = None) configs →
     spread (prop r.1 sub) !! key = None).
Proof.
  intros Hsub. destruct configs as [|first rest]; [done|].
  unfold defineConfig.
  intros (r1 & Hrest & [= <-])%bind_Returns. cbn [fst].
  pose proof (mergeFrom_overlaySub sub rest first r1 Hsub Hrest) as Hov.
  assert (spread (prop r1.1 sub) =
          foldl (λ m c, spread (prop c.1 sub) ∪ m) ∅ (first :: rest)) as Hall.
  { rewrite Hov. unfold overlaySub. simpl. by rewrite (right_id_L ∅ (∪)). }
  split.
  - intros before c after key v Heq Hc Hafter. rewrite Hall, Heq.
    by apply (foldl_union_lookup_last (λ c, spread (prop c.1 sub))).
  - intros key Hnone. rewrite Hall.
    by rewrite (foldl_union_lookup_none (λ c, spread (prop c.1 sub))).
Qed.

Lemma defineConfig_sub_last_wins_witness :
  let a := fragment [("use", num_obj [("a", 1); ("b", 1)])] in
  let b := fragment [("use", num_obj [("b", 2)])] in
  let c := fragment [("use", num_obj [("c", 3)])] in
  ∃ r, defineConfig [a; b; c] = Returns r ∧
       spread (prop r.1 "use") !! "b" = Some (VNum 2) ∧
       spread (prop r.1 "use") !! "z" = None.
Proof.
  intros a b c.
  assert (∃ r, defineConfig [a; b; c] = Returns r) as [r Hr]
    by (eexists; vm_compute; reflexivity).
  exists r. split; [exact Hr|].
  destruct (defineConfig_sub_last_wins [a; b; c] r "use") as [Hlast Hnone];
    [set_solver|exact Hr|].
  split.
  - apply (Hlast [a] b [c]); [done|by vm_compute|].
    constructor; [by vm_compute|constructor].
  - apply Hnone. repeat constructor; by vm_compute.
Defined.

(** X4.  In a merge of any number of fragments, a top-level key other than
    [expect], [use], [build], [webServer] and [projects] has the value
    given by the last fragment that has the key, and is absent when no
    fragment has it. *)
Theorem defineConfig_key_last_wins
    (configs : list (gmap string value * bool)) (r : gmap string value * bool)
    (key : string) :
  key ∉ special →
  defineConfig configs = Returns r →
  (∀ before c after v,
     configs = before ++ c :: after →
     c.1 !! key = Some v →
     Forall (λ c', c'.1 !! key = None) after →
     r.1 !! key = Some v) ∧
  (Forall (λ c', c'.1 !! key = None) configs → r.1 !! key = None).
Proof.
  intros Hkey. destruct configs as [|first rest]; [done|].
  unfold defineConfig.
  intros (r1 & Hrest & [= <-])%bind_Returns. cbn [fst].
  assert (r1.1 !! key =
          foldl (λ m c, c.1 ∪ m) ∅ (first :: rest) !! key) as Hall.
  { rewrite (mergeFrom_overlay rest first r1 key Hkey Hrest).
    unfold overlay. simpl. by rewrite (right_id_L ∅ (∪)). }
  split.
  - intros before c after v Heq Hc Hafter. rewrite Hall, Heq.
    by apply (foldl_union_lookup_last (λ c : gmap string value * bool, c.1)).
  - intros Hnone. rewrite Hall.
    by rewrite (foldl_union_lookup_none (λ c : gmap string value * bool, c.1)).
Qed.

Lemma defineConfig_key_last_wins_witness :
  let a := fragment [("retries", VNum 1); ("timeout", VNum 10)] in
  let b := fragment [("retries", VNum 2)] in
  let c := fragment [("workers", VNum 4)] in
  ∃ r, defineConfig [a; b; c] = Returns r ∧
       r.1 !! "retries" = Some (VNum 2) ∧ r.1 !! "reporter" = None.
Proof.
  intros a b c.
  assert (∃ r, defineConfig [a; b; c] = Returns r) as [r Hr]
    by (eexists; vm_compute; reflexivity).
  exists r. split; [exact Hr|].
  split.
  - destruct (defineConfig_key_last_wins [a; b; c] r "retries") as [Hlast _];
      [unfold special; set_solver|exact Hr|].
    apply (Hlast [a] b [c]); [done|by vm_compute|].
    constructor; [by vm_compute|constructor].
  - destruct (defineConfig_key_last_wins [a; b; c] r "reporter") as [_ Hnone];
      [unfold special; set_solver|exact Hr|].
    apply Hnone. repeat constructor; by vm_compute.
Defined.

(** X5.  What a merge of two fragments or more returns has objects under
    [expect], [use] and [build] and an array under [webServer], whatever the
    fragments held there; and its [projects], when truthy, is an array. *)
Theorem defineConfig_shape
    (a b : gmap string value * bool) (rest : list (gmap string value * bool))
    (r : gmap string value * bool) :
  defineConfig (a :: b :: rest) = Returns r →
  (∀ sub, sub ∈ ["expect"; "use"; "build"] →
     ∃ o m, r.1 !! sub = Some (VObj o m)) ∧
  (∃ items, r.1 !! "webServer" = Some (VArr items)) ∧
  (truthy (prop r.1 "projects") = true →
   ∃ projects, r.1 !! "projects" = Some (VArr projects)).
Proof.
  intros Hr. split; [|split].
  - assert (∀ configs acc r' sub, sub ∈ ["expect"; "use"; "build"] →
              (∃ o m, acc.1 !! sub = Some (VObj o m)) →
              mergeFrom acc configs = Returns r' →
              ∃ o m, r'.1 !! sub = Some (VObj o m)) as Hinv.
    { induction configs as [|c configs IH]; intros acc r' sub Hsub Hacc; simpl.
      - by intros [= <-].
      - intros (r'' & Hstep & Hrest)%bind_Returns.
        apply (IH r'' r' sub Hsub); [|done].
        rewrite (mergeStep_sub acc c r'' sub Hsub Hstep). unfold spread2. eauto. }
    intros sub Hsub. revert Hr. unfold defineConfig. cbn [mergeFrom].
    intros (r1 & (r' & Hstep & Hrest)%bind_Returns & [= <-])%bind_Returns.
    cbn [fst]. apply (Hinv rest r' r1 sub Hsub); [|done].
    rewrite (mergeStep_sub a b r' sub Hsub Hstep). unfold spread2. eauto.
  - rewrite (defineConfig_webServers a b rest r Hr). eauto.
  - assert (∀ configs acc r', configs ≠ [] →
              mergeFrom acc configs = Returns r' →
              truthy (prop r'.1 "projects") = true →
              ∃ projects, r'.1 !! "projects" = Some (VArr projects)) as Hinv.
    { induction configs as [|c configs IH] using rev_ind; [done|].
      intros acc r' _. rewrite mergeFrom_app. simpl.
      intros (r'' & _ & (r3 & Hstep & [= <-])%bind_Returns)%bind_Returns.
      revert Hstep. unfold mergeStep. case_match eqn:Hcond.
      - intros [= <-]. simpl. apply andb_true_iff in Hcond as [Hc _].
        apply negb_true_iff in Hc. by rewrite Hc.
      - intros (ps & _ & [= <-])%bind_Returns _. simpl.
        rewrite lookup_insert_eq. eauto. }
    revert Hr. unfold defineConfig.
    intros (r1 & Hrest & [= <-])%bind_Returns. cbn [fst].
    by apply (Hinv (b :: rest) a r1).
Qed.

Lemma defineConfig_shape_witness :
  let a := fragment [("use", VStr "ab"); ("webServer", num_obj [("port", 1)])] in
  let b := fragment [("build", VNum 3)] in
  ∃ r, defineConfig [a; b] = Returns r ∧
       r.1 !! "use" = Some (obj [("0", VStr "a"); ("1", VStr "b")]) ∧
       r.1 !! "build" = Some (VObj ∅ false) ∧
       r.1 !! "webServer" = Some (VArr [num_obj [("port", 1)]]).
Proof.
  intros a b.
  assert (∃ r, defineConfig [a; b] = Returns r) as [r Hr]
    by (eexists; vm_compute; reflexivity).
  exists r. split; [exact Hr|].
  destruct (defineConfig_shape a b [] r Hr) as (Hsub & (items & Hw) & _).
  destruct (Hsub "use") as (o & m & Hu); [set_solver|].
  destruct (Hsub "build") as (o' & m' & Hb); [set_solver|].
  rewrite Hu, Hb, Hw. vm_compute in Hr. injection Hr as <-.
  vm_compute in Hu, Hb, Hw. injection Hu as <- <-. injection Hb as <- <-.
  injection Hw as <-. repeat split; vm_compute; reflexivity.
Defined.

(** X6.  A fragment that has no [projects] key leaves the accumulated list
    of projects as it is. *)
Theorem defineConfig_projects_kept
    (a b : gmap string value * bool) (base : list value) :
  a.1 !! "projects" = Some (VArr base) →
  b.1 !! "projects" = None →
  Forall (λ p, nullish p = false) base →
  ∃ r, defineConfig [a; b] = Returns r ∧
       r.1 !! "projects" = Some (VArr base).
Proof.
  intros Ha Hb Hbase.
  assert (mergeStep a b =
          Returns (<["projects" := VArr base]> (mergeFields a.1 b.1), a.2 || b.2))
    as Hstep.
  { unfold mergeStep, prop at 1 3 4.
    rewrite mergeFields_lookup_other by (unfold written; set_solver).
    rewrite lookup_union_r by done. rewrite Ha, Hb. simpl.
    rewrite (mergeProjects_iterate (VArr base) VUndef base []) by done.
    by rewrite overrideMerge_no_overrides. }
  eexists. split.
  - rewrite defineConfig_two, Hstep. reflexivity.
  - simpl. by rewrite lookup_insert_eq.
Qed.

Lemma defineConfig_projects_kept_witness :
  let base := [obj [("name", VStr "a")]; obj [("name", VStr "a")]] in
  ∃ r, defineConfig [fragment [("projects", VArr base)];
                     fragment [("retries", VNum 2)]] = Returns r ∧
       r.1 !! "projects" = Some (VArr base).
Proof.
  intros base.
  apply (defineConfig_projects_kept
           (fragment [("projects", VArr base)]) (fragment [("retries", VNum 2)]) base).
  - reflexivity.
  - reflexivity.
  - by repeat constructor.
Defined.

(** X7.  A fragment that has a [projects] key holding a falsy value
    ([undefined], [null]) puts that value in place of the accumulated list
    of projects: the projects merged so far are lost. *)
Theorem defineConfig_projects_cleared
    (a b : gmap string value * bool) (v : value) :
  b.1 !! "projects" = Some v →
  truthy v = false →
  ∃ r, defineConfig [a; b] = Returns r ∧ r.1 !! "projects" = Some v.
Proof.
  intros Hb Hv.
  assert (mergeFields a.1 b.1 !! "projects" = Some v) as Hm.
  { rewrite mergeFields_lookup_other by (unfold written; set_solver).
    by apply lookup_union_Some_l. }
  exists (mergeFields a.1 b.1, true). split; [|done].
  rewrite defineConfig_two. unfold mergeStep, prop. rewrite Hm, Hb. simpl.
  by rewrite Hv.
Qed.

Lemma defineConfig_projects_cleared_witness :
  ∃ r, defineConfig [fragment [("projects", VArr [obj [("name", VStr "a")]])];
                     fragment [("projects", VUndef)]] = Returns r ∧
       r.1 !! "projects" = Some VUndef.
Proof.
  apply (defineConfig_projects_cleared
           (fragment [("projects", VArr [obj [("name", VStr "a")]])])
           (fragment [("projects", VUndef)]) VUndef); reflexivity.
Defined.

(** X8.  When every fragment lists its projects in an array, the projects
    of the merge are those of the first fragment merged with the lists of
    the later fragments one after the other, each merge starting from the
    outcome of the one before: what one fragment overrides or appends, a
    later fragment can override again. *)
Theorem defineConfig_projects_fold
    (a : gmap string value * bool) (rest : list (gmap string value * bool))
    (base : list value) :
  a.1 !! "projects" = Some (VArr base) →
  Forall (λ p, truthy p = true) base →
  Forall (λ c, ∃ l, c.1 !! "projects" = Some (VArr l) ∧
                    Forall (λ p, truthy p = true) l) rest →
  ∃ r, defineConfig (a :: rest) = Returns r ∧
       r.1 !! "projects" =
         Some (VArr (foldl overrideMerge base (projectLists rest))).
Proof.
  intros Ha Hbase Hrest.
  destruct (mergeFrom_projects rest a base Ha Hbase Hrest) as (r & Hr & Hp).
  exists (r.1, true). split; [|done]. unfold defineConfig. by rewrite Hr.
Qed.

Lemma defineConfig_projects_fold_witness :
  let a := fragment [("projects", VArr [obj [("name", VStr "a"); ("retries", VNum 1)]])] in
  let b := fragment [("projects", VArr [obj [("name", VStr "b"); ("retries", VNum 2)]])] in
  let c := fragment [("projects", VArr [obj [("name", VStr "b"); ("retries", VNum 3)]])] in
  ∃ r, defineConfig [a; b; c] = Returns r ∧
       r.1 !! "projects" = Some (VArr [
         obj [("name", VStr "a"); ("retries", VNum 1)];
         obj [("name", VStr "b"); ("retries", VNum 3); ("use", VObj ∅ false)]]).
Proof.
  intros a b c.
  destruct (defineConfig_projects_fold a [b; c]
              [obj [("name", VStr "a"); ("retries", VNum 1)]]) as (r & Hr & Hp).
  - reflexivity.
  - by repeat constructor.
  - repeat constructor; eexists; (split; [reflexivity|by repeat constructor]).
  - exists r. split; [exact Hr|]. rewrite Hp. vm_compute. reflexivity.
Defined.

(** X9.  A merge of two lists of projects that are objects keeps the names
    of the base projects, at their places, and brings in no duplicate: when
    no two base projects have the same name, no two merged projects
    have. *)
Theorem overrideMerge_names (base overrides : list value) :
  Forall (λ p, isProject p = true) base →
  Forall (λ o, isProject o = true) overrides →
  mergeProjects (VArr base) (VArr overrides) =
    Returns (overrideMerge base overrides) ∧
  take (length base) (nameOf <$> overrideMerge base overrides) = nameOf <$> base ∧
  (length base ≤ length (overrideMerge base overrides)
     ≤ length base + length overrides)%nat ∧
  (distinctNames base → distinctNames (overrideMerge base overrides)).
Proof.
  intros Hbase Ho.
  assert (Forall (λ o, truthy o = true) overrides) as Hot
    by (eapply Forall_impl; [exact Ho|by intros []]).
  assert (Forall (λ p, nullish p = false) base) as Hbn
    by (eapply Forall_impl; [exact Hbase|by intros []]).
  assert (nameOf <$> mergedFrom [] overrides base = nameOf <$> base) as Hnames
    by (by apply mergedFrom_names).
  split; [by apply mergeProjects_overrideMerge|]. split; [|split].
  - unfold overrideMerge. rewrite fmap_app, Hnames.
    rewrite take_app_length'; [done|by rewrite length_fmap].
  - unfold overrideMerge. rewrite length_app, mergedFrom_length.
    split; [lia|]. apply Nat.add_le_mono_l.
    unfold appended. rewrite length_fmap.
    etrans; [apply length_filter|].
    clear. unfold keyed. generalize (@nil value).
    induction overrides as [|o rest IH]; intros seen; simpl; [done|].
    destruct (existsb _ seen); simpl; [etrans; [apply IH|lia]|].
    apply le_n_S, IH.
  - intros Hd. unfold overrideMerge. apply distinctNames_app.
    + by apply (distinctNames_names base).
    + apply appended_distinct. eapply Forall_impl; [exact Hot|].
      apply truthy_not_nullish.
    + apply (Forall_fmap nameOf
               (λ n, Forall (λ y, ¬ named n y) (appended base overrides))).
      rewrite Hnames. apply Forall_fmap, Forall_forall.
      intros p Hp. by apply appended_not_named.
Qed.

Lemma overrideMerge_names_witness :
  let base := [obj [("name", VStr "a")]; obj [("name", VStr "b")]] in
  let overrides := [obj [("name", VStr "c")]; obj [("name", VStr "b"); ("retries", VNum 1)];
                    obj [("name", VStr "c"); ("retries", VNum 2)]] in
  nameOf <$> overrideMerge base overrides = [VStr "a"; VStr "b"; VStr "c"] ∧
  distinctNames (overrideMerge base overrides).
Proof.
  intros base overrides.
  destruct (overrideMerge_names base overrides) as (_ & _ & _ & Hd).
  - by repeat constructor.
  - by repeat constructor.
  - split; [vm_compute; reflexivity|]. apply Hd.
    split; [|split; [|done]]; by repeat constructor.
Defined.

(** X10.  The merge of two [projects] values returns exactly when both can
    be iterated (an array, a string, or a falsy value, taken as empty) and
    hold neither [undefined] nor [null]; in any other case it throws a
    [TypeError], which is the only exception [defineConfig] throws, and the
    one it throws when called with no fragment. *)
Theorem mergeProjects_returns_iff (prev current : value) :
  ((∃ projects, mergeProjects prev current = Returns projects) ↔
   ∃ base overrides,
     iterate prev = Returns base ∧ iterate current = Returns overrides ∧
     Forall (λ p, nullish p = false) base ∧
     Forall (λ o, nullish o = false) overrides) ∧
  (∀ e, mergeProjects prev current = Throws e → e = TypeError) ∧
  (∀ configs e, defineConfig configs = Throws e → e = TypeError) ∧
  defineConfig [] = Throws TypeError.
Proof.
  split; [|split; [|split]].
  - unfold mergeProjects. split.
    + intros (ps & (ovs & Hovs & (m & Hm & (base & Hbase &
        (r & Hr & _)%bind_Returns)%bind_Returns)%bind_Returns)%bind_Returns).
      exists base, ovs. split; [done|]. split; [done|]. split.
      * apply (mergeLoop_Returns base m). eauto.
      * apply (collectOverrides_Returns ovs []). eauto.
    + intros (base & ovs & -> & -> & Hbase & Hovs). simpl.
      destruct (proj2 (collectOverrides_Returns ovs []) Hovs) as [m ->]. simpl.
      destruct (proj2 (mergeLoop_Returns base m) Hbase) as [r ->]. simpl. eauto.
  - apply mergeProjects_Throws.
  - intros [|first rest] e; simpl; [by intros [= <-]|].
    intros [H|(? & _ & [=])]%bind_Throws. by eapply mergeFrom_Throws.
  - done.
Qed.

Lemma mergeProjects_returns_iff_witness :
  mergeProjects (VArr [obj [("name", VStr "a")]]) (VStr "b") =
    Returns [obj [("name", VStr "a")]; VStr "b"] ∧
  ¬ ∃ projects, mergeProjects (VArr [VNull]) (VArr []) = Returns projects.
Proof.
  split; [vm_compute; reflexivity|].
  intros Hr.
  apply (proj1 (proj1 (mergeProjects_returns_iff (VArr [VNull]) (VArr [])))) in Hr
    as (base & overrides & [= <-] & _ & Hbase & _).
  by apply Forall_cons in Hbase as [? _].
Defined.

(** ** What the validators accept and what they throw *)

(** X11.  A value of [testIgnore] or [testMatch] passes when it is absent,
    [undefined], a string, a regular expression, or an array of strings and
    regular expressions, and only then; in an array the error names the
    first item that is neither. *)
Theorem validatePatterns_accepts file project title key :
  (validatePatterns file project title key = Returns () ↔
   match spread project !! key with
   | None | Some VUndef => True
   | Some (VArr items) => Forall (λ item, is_string item || isRegExp item = true) items
   | Some v => is_string v || isRegExp v = true
   end) ∧
  (∀ items i item,
     spread project !! key = Some (VArr items) →
     items !! i = Some item →
     is_string item || isRegExp item = false →
     (∀ j earlier, (j < i)%nat → items !! j = Some earlier →
        is_string earlier || isRegExp earlier = true) →
     validatePatterns file project title key =
     Throws (patternError file
       (title +:+ "." +:+ key +:+ "[" +:+ pretty i +:+ "]"))).
Proof.
  split.
  - rewrite validatePatterns_Returns. unfold patternsOk, isPattern.
    destruct (spread project !! key) as [[]|]; try done.
    rewrite Forall_forall, forallb_forall.
    split; intros H x Hx; apply H; by apply list_elem_of_In.
  - intros items i item Hitems Hi Hbad Hbefore.
    unfold validatePatterns, element, prop. rewrite Hitems. simpl.
    rewrite ?bool_decide_eq_true_2 by eauto. simpl.
    apply (forEach_first _ items 0%nat i item); [done|..].
    + simpl. by apply orb_false_iff in Hbad as [-> ->].
    + intros k y Hk Hy. simpl.
      destruct (orb_prop _ _ (Hbefore k y Hk Hy)) as [-> | ->]; simpl; [done|].
      by rewrite andb_false_r.
Qed.

Lemma validatePatterns_accepts_witness :
  validatePatterns "playwright.config.ts"
    (obj [("testMatch", VArr [VStr "a.spec.ts"; VRegExp "b"; VNum 3; VNull])])
    "config" "testMatch" =
  Throws (ErrorWithFile "playwright.config.ts"
    "config.testMatch[2] must be a string or a RegExp" None).
Proof.
  refine (proj2 (validatePatterns_accepts "playwright.config.ts"
    (obj [("testMatch", VArr [VStr "a.spec.ts"; VRegExp "b"; VNum 3; VNull])])
    "config" "testMatch") _ 2%nat (VNum 3) eq_refl eq_refl eq_refl _).
  intros [|[|j]] earlier Hj; [by intros [= <-]..|lia].
Defined.

(** X12.  Whether [validateProject] accepts a project depends on the project
    alone, not on the file or the title: the project is an object, its
    [testIgnore] and [testMatch] are patterns, and its [use], when it is an
    own property that is not [undefined], is a non-null object the options
    schema accepts.  Only [typeof] decides what an object is: any array and
    any regular expression is accepted as a project, while [undefined],
    [null], a boolean, a number and a string are told that they must be an
    object. *)
Theorem validateProject_accepts file project title :
  (validateProject file project title = Returns () ↔
   acceptedProject project = true) ∧
  (∀ items, validateProject file (VArr items) title = Returns ()) ∧
  (∀ source, validateProject file (VRegExp source) title = Returns ()) ∧
  (typeof_object project = false ∨ truthy project = false →
   validateProject file project title =
   Throws (ErrorWithFile file (title +:+ " must be an object") None)).
Proof.
  split; [apply validateProject_Returns|]. split; [|split].
  - intros items. apply validateProject_Returns, acceptedProject_array.
  - intros source. by apply validateProject_Returns.
  - unfold validateProject. by intros [-> | ->]; rewrite ?orb_true_r.
Qed.

Lemma validateProject_accepts_witness :
  validateProject "playwright.config.ts"
    (obj [("name", VStr "chromium"); ("testMatch", VArr [VRegExp "a"; VStr "b"]);
          ("use", obj [("browserName", VStr "chromium")])])
    "config.projects[0]" = Returns () ∧
  validateProject "playwright.config.ts" (VNum 3) "config.projects[1]" =
  Throws (ErrorWithFile "playwright.config.ts"
            "config.projects[1] must be an object" None).
Proof.
  split.
  - apply validateProject_accepts. vm_compute. reflexivity.
  - refine (proj2 (proj2 (proj2 (validateProject_accepts "playwright.config.ts"
      (VNum 3) "config.projects[1]"))) _).
    by left.
Defined.

(** X13.  Whatever [validateTestOptions] throws is an error raised for the
    configuration file it was given: reading the received value along the
    path of the issue never fails on [undefined] or [null]. *)
Theorem validateTestOptions_errors file use title e :
  validateTestOptions file use title = Throws e →
  ∃ text received, e = ErrorWithFile file text received.
Proof. apply validateTestOptions_located. Qed.

Lemma validateTestOptions_errors_witness :
  ∃ text received,
    reportOptionsIssue "playwright.config.ts"
      (obj [("launchOptions", obj [("args", VArr [VStr "--a"; VNull])])])
      "config.use"
      (Issue invalid_type [PKey "launchOptions"; PKey "args"; PIdx 1]
         "Invalid input: expected string, received null" false) =
    ErrorWithFile "playwright.config.ts" text received.
Proof.
  apply (validateTestOptions_errors "playwright.config.ts"
    (obj [("launchOptions", obj [("args", VArr [VStr "--a"; VNull])])])
    "config.use").
  vm_compute. reflexivity.
Defined.

(** X14.  Whatever [validateConfig] throws is an error raised for the
    configuration file, but for one case: a [projects] that is truthy and
    not an array has no [forEach], which is a [TypeError]. *)
Theorem validateConfig_errors h file config e :
  validateConfig h file config = Throws e →
  (∃ text received, e = ErrorWithFile file text received) ∨
  (e = TypeError ∧ truthy (element config "projects") = true ∧
   isArray (element config "projects") = false).
Proof. apply validateConfig_Throws. Qed.

Lemma validateConfig_errors_witness :
  validateConfig demoHost "playwright.config.ts" (obj [("projects", VNum 1)]) =
    Throws TypeError ∧
  ((∃ text received, TypeError = ErrorWithFile "playwright.config.ts" text received) ∨
   (TypeError = TypeError ∧
    truthy (element (obj [("projects", VNum 1)]) "projects") = true ∧
    isArray (element (obj [("projects", VNum 1)]) "projects") = false)).
Proof.
  assert (validateConfig demoHost "playwright.config.ts" (obj [("projects", VNum 1)]) =
          Throws TypeError) as H by (vm_compute; reflexivity).
  split; [exact H|].
  exact (validateConfig_errors demoHost "playwright.config.ts" _ _ H).
Defined.

(** X15.  For a type mismatch at any depth the error shows the value that was
    rejected: the path of the issue can be followed in the options (no read
    on [undefined] or [null]), the value it leads to is the one behind
    [Received:], and the type the message names is the type of that value. *)
Theorem validateTestOptions_type_mismatch file use title i rest :
  parse testOptionsSchema use = i :: rest →
  code i = invalid_type →
  path i ≠ [] →
  ∃ expected w,
    walk use (path i) = Returns w ∧
    validateTestOptions file use title =
      Throws (optionError file (title +:+ "." +:+ joinPath (path i))
                ("expected " +:+ expected +:+ ", received " +:+ parsedType w)
                (Some w)).
Proof.
  intros Hparse Hc Hp.
  assert (i ∈ parse testOptionsSchema use) as Hi by (rewrite Hparse; by left).
  destruct (parse_invalid_type _ _ _ Hi Hc) as (expected & w & Hw & Hm).
  exists expected, w. split; [done|].
  unfold validateTestOptions. rewrite Hparse. f_equal.
  unfold reportOptionsIssue. rewrite Hc, Hw, Hm.
  assert (joinPath (path i) ≠ "") as Hj.
  { destruct (parse_object_path _ _ _ _ Hi) as [?|(k & tail & -> & Hk)]; [done|].
    apply joinPath_nonempty.
    pose proof testOptionsShape_keys as Hkeys. rewrite Forall_forall in Hkeys.
    by apply Hkeys. }
  apply String.eqb_neq in Hj. rewrite Hj. cbn [negb].
  destruct (path i); [done|].
  change ("Invalid input: expected " +:+ expected +:+ ", received " +:+ parsedType w)
    with ("Invalid input: " +:+ ("expected " +:+ expected +:+ ", received " +:+ parsedType w)).
  by rewrite removeFirst_append.
Qed.

Lemma validateTestOptions_type_mismatch_witness :
  validateTestOptions "playwright.config.ts"
    (obj [("launchOptions", obj [("args", VArr [VStr "--a"; VNull])])])
    "config.use" =
  Throws (optionError "playwright.config.ts" "config.use.launchOptions.args.1"
    "expected string, received null" (Some VNull)).
Proof.
  destruct (validateTestOptions_type_mismatch "playwright.config.ts"
    (obj [("launchOptions", obj [("args", VArr [VStr "--a"; VNull])])])
    "config.use"
    (Issue invalid_type [PKey "launchOptions"; PKey "args"; PIdx 1]
       "Invalid input: expected string, received null" false) [])
    as (expected & w & Hw & Hv).
  - vm_compute. reflexivity.
  - reflexivity.
  - discriminate.
  - vm_compute. reflexivity.
Defined.

(** X16.  When the options value itself is not an object (an array, say, which
    [validateProject] lets through), the error names its type, and the
    received value it shows is [undefined], not the value. *)
Theorem validateTestOptions_not_object file use title :
  isObject use = false →
  validateTestOptions file use title =
  Throws (optionError file title
            ("expected object, received " +:+ parsedType use) (Some VUndef)).
Proof.
  intros Ho. unfold validateTestOptions, testOptionsSchema. cbn [parse].
  rewrite Ho. f_equal. unfold reportOptionsIssue, invalidType.
  cbn [code path message joinPath fmap list_fmap String.concat String.eqb negb].
  change ("Invalid input: expected " +:+ "object" +:+ ", received " +:+ parsedType use)
    with ("Invalid input: " +:+ ("expected object, received " +:+ parsedType use)).
  by rewrite removeFirst_append.
Qed.

Lemma validateTestOptions_not_object_witness :
  validateProject "playwright.config.ts" (obj [("use", VArr [])]) "config" =
  Throws (optionError "playwright.config.ts" "config.use"
            "expected object, received array" (Some VUndef)).
Proof.
  transitivity (validateTestOptions "playwright.config.ts" (VArr []) "config.use").
  - vm_compute. reflexivity.
  - exact (validateTestOptions_not_object "playwright.config.ts" (VArr [])
             "config.use" eq_refl).
Defined.

(** X17.  All the options are optional: an options object that leaves every
    declared option out (or [undefined]) is accepted, whatever else it
    holds. *)
Theorem validateTestOptions_all_optional file o m title :
  (∀ k, k ∈ testOptionsShape.*1 → prop o k = VUndef) →
  validateTestOptions file (VObj o m) title = Returns ().
Proof.
  intros Hnone. apply validateTestOptions_Returns. unfold testOptionsSchema.
  apply parse_object_nil, Forall_forall. intros [k s] Hin.
  pose proof testOptionsShape_optional as Hopt.
  rewrite Forall_forall in Hopt. destruct (Hopt _ Hin) as [inner Hs].
  simpl in Hs. subst s. apply parse_optional_nil. left.
  apply Hnone, list_elem_of_fmap. by exists (k, ZOptional inner).
Qed.

Lemma validateTestOptions_all_optional_witness :
  validateTestOptions "playwright.config.ts"
    (obj [("myFixture", VNum 1); ("other", VNull)]) "config.use" = Returns ().
Proof.
  apply validateTestOptions_all_optional.
  intros k Hk. unfold prop.
  rewrite (not_elem_of_list_to_map_1 (M := gmap string)); [done|].
  simpl. intros Hin. revert Hk.
  apply elem_of_cons in Hin as [->|Hin];
    [|apply list_elem_of_singleton in Hin as ->];
    apply (bool_decide_unpack _); vm_compute; exact I.
Defined.

(** X18.  With the other declared options left out, an options object is
    accepted exactly when its [viewport] is absent, [undefined], [null], or
    an object whose [width] and [height] are positive safe integers (numbers
    are the integers here). *)
Theorem validateTestOptions_viewport file o m title :
  (∀ k, k ∈ testOptionsShape.*1 → k ≠ "viewport" → prop o k = VUndef) →
  validateTestOptions file (VObj o m) title = Returns () ↔
  match prop o "viewport" with
  | VUndef | VNull => True
  | VObj size _ =>
      ∃ w h, size !! "width" = Some (VNum w) ∧ size !! "height" = Some (VNum h) ∧
             (0 < w ≤ MAX_SAFE_INTEGER)%Z ∧ (0 < h ≤ MAX_SAFE_INTEGER)%Z
  | _ => False
  end.
Proof.
  intros Hothers.
  rewrite (validateTestOptions_only file o m title "viewport"
             (ZUnion [viewportSchema; ZNull]));
    [|apply (list_elem_of_lookup_2 _ 7%nat); reflexivity|done].
  rewrite parse_union_nil, Exists_cons, Exists_cons, Exists_nil.
  destruct (prop o "viewport") as [| | | | | |items|size mark];
    try (cbn; split; [intros [?|[?|[?|[]]]]; done|done]);
    try (cbn; split; [done|]; intros _; by eauto).
  unfold viewportSchema, object. rewrite parse_object_nil.
  rewrite !Forall_cons, Forall_nil. cbn [fst snd].
  rewrite !parse_number_nil. split.
  - intros [?|[((w & Hw & Hcw) & (h & Hh & Hch) & _)|[?|[]]]]; try done.
    apply prop_Some in Hw, Hh; try done.
    rewrite !Forall_cons, runCheck_Int, runCheck_Gt in Hcw, Hch.
    exists w, h. unfold MAX_SAFE_INTEGER in *. repeat split; (done || lia).
  - intros (w & h & Hw & Hh & Hcw & Hch). right. left.
    split; [|split; [|done]].
    + exists w. split; [by apply prop_Some|].
      rewrite !Forall_cons, runCheck_Int, runCheck_Gt.
      unfold MAX_SAFE_INTEGER in *. repeat split; (done || lia).
    + exists h. split; [by apply prop_Some|].
      rewrite !Forall_cons, runCheck_Int, runCheck_Gt.
      unfold MAX_SAFE_INTEGER in *. repeat split; (done || lia).
Qed.

Lemma validateTestOptions_viewport_witness :
  validateTestOptions "playwright.config.ts"
    (obj [("viewport", num_obj [("width", 1280); ("height", 720)]);
          ("myFixture", VNum 0)]) "config.use" = Returns () ∧
  validateTestOptions "playwright.config.ts"
    (obj [("viewport", num_obj [("width", 0); ("height", 720)])]) "config.use"
    ≠ Returns ().
Proof.
  split.
  - apply validateTestOptions_viewport.
    + intros k Hk Hne. unfold prop.
      rewrite (not_elem_of_list_to_map_1 (M := gmap string)); [done|].
      simpl. intros Hin. revert Hk.
      apply elem_of_cons in Hin as [->|Hin]; [done|].
      apply list_elem_of_singleton in Hin as ->.
      apply (bool_decide_unpack _). vm_compute. exact I.
    + match goal with
      | |- context [prop ?o "viewport"] =>
          replace (prop o "viewport")
            with (num_obj [("width", 1280); ("height", 720)])
            by (vm_compute; reflexivity)
      end.
      exists 1280, 720.
      split; [vm_compute; reflexivity|].
      split; [vm_compute; reflexivity|].
      unfold MAX_SAFE_INTEGER. lia.
  - intros Hv. apply validateTestOptions_viewport in Hv.
    + match type of Hv with
      | context [prop ?o "viewport"] =>
          replace (prop o "viewport")
            with (num_obj [("width", 0); ("height", 720)]) in Hv
            by (vm_compute; reflexivity)
      end.
      destruct Hv as (w & h & Hw & _ & [Hw0 _] & _).
      vm_compute in Hw. injection Hw as <-. lia.
    + intros k Hk Hne. unfold prop.
      rewrite (not_elem_of_list_to_map_1 (M := gmap string)); [done|].
      simpl. by intros ->%list_elem_of_singleton.
Defined.

(** X19.  With the other declared options left out, an options object is
    accepted exactly when its [geolocation] is absent, [undefined], [null],
    or an object whose [longitude] is a number from -180 to 180, whose
    [latitude] is a number from -90 to 90, and whose [accuracy], when it is
    defined, is a number that is not negative (numbers are the integers
    here). *)
Theorem validateTestOptions_geolocation file o m title :
  (∀ k, k ∈ testOptionsShape.*1 → k ≠ "geolocation" → prop o k = VUndef) →
  validateTestOptions file (VObj o m) title = Returns () ↔
  match prop o "geolocation" with
  | VUndef | VNull => True
  | VObj place _ =>
      ∃ longitude latitude,
        place !! "longitude" = Some (VNum longitude) ∧
        place !! "latitude" = Some (VNum latitude) ∧
        (-180 ≤ longitude ≤ 180)%Z ∧ (-90 ≤ latitude ≤ 90)%Z ∧
        match prop place "accuracy" with
        | VUndef => True
        | VNum accuracy => (0 ≤ accuracy)%Z
        | _ => False
        end
  | _ => False
  end.
Proof.
  intros Hothers.
  rewrite (validateTestOptions_only file o m title "geolocation"
             (ZUnion [geolocationSchema; ZNull]));
    [|apply (list_elem_of_lookup_2 _ 13%nat); reflexivity|done].
  rewrite parse_union_nil, Exists_cons, Exists_cons, Exists_nil.
  destruct (prop o "geolocation") as [| | | | | |items|place mark];
    try (cbn; split; [intros [?|[?|[?|[]]]]; done|done]);
    try (cbn; split; [done|]; intros _; by eauto).
  unfold geolocationSchema, object, optional, nonnegative.
  rewrite parse_object_nil.
  rewrite !Forall_cons, Forall_nil. cbn [fst snd].
  rewrite parse_optional_nil, !parse_number_nil.
  assert ((prop place "accuracy" = VUndef ∨
           ∃ z, prop place "accuracy" = VNum z ∧ Forall (λ c, runCheck z c = []) [Gte 0]) ↔
          match prop place "accuracy" with
          | VUndef => True
          | VNum accuracy => (0 ≤ accuracy)%Z
          | _ => False
          end) as Hacc.
  { destruct (prop place "accuracy") as [| | |a| | | |];
      try (split; [intros [?|(? & ? & _)]; done|done]).
    - split; [done|by left].
    - split.
      + intros [?|(z & [= <-] & Hz)]; [done|].
        by apply Forall_singleton, runCheck_Gte in Hz.
      + intros Ha. right. exists a. split; [done|].
        by apply Forall_singleton, runCheck_Gte. }
  rewrite Hacc. clear Hacc. split.
  - intros [?|[((lon & Hlon & Hclon) & (lat & Hlat & Hclat) & Ha & _)|[?|[]]]];
      try done.
    apply prop_Some in Hlon, Hlat; try done.
    rewrite !Forall_cons, runCheck_Gte, runCheck_Lte in Hclon, Hclat.
    exists lon, lat. repeat split; (done || lia).
  - intros (lon & lat & Hlon & Hlat & Hclon & Hclat & Ha). right. left.
    split; [|split; [|split; [done|done]]].
    + exists lon. split; [by apply prop_Some|].
      rewrite !Forall_cons, runCheck_Gte, runCheck_Lte. repeat split; (done || lia).
    + exists lat. split; [by apply prop_Some|].
      rewrite !Forall_cons, runCheck_Gte, runCheck_Lte. repeat split; (done || lia).
Qed.

Lemma validateTestOptions_geolocation_witness :
  validateTestOptions "playwright.config.ts"
    (obj [("geolocation", num_obj [("longitude", 12); ("latitude", -41)])])
    "config.use" = Returns ().
Proof.
  apply validateTestOptions_geolocation.
  - intros k Hk Hne. unfold prop.
    rewrite (not_elem_of_list_to_map_1 (M := gmap string)); [done|].
    simpl. by intros ->%list_elem_of_singleton.
  - match goal with
    | |- context [prop ?o "geolocation"] =>
        replace (prop o "geolocation")
          with (num_obj [("longitude", 12); ("latitude", -41)])
          by (vm_compute; reflexivity)
    end.
    exists 12, (-41).
    split; [vm_compute; reflexivity|].
    split; [vm_compute; reflexivity|].
    split; [lia|]. split; [lia|].
    replace (prop _ "accuracy") with VUndef by (vm_compute; reflexivity).
    exact I.
Defined.

(** ** Locating and loading *)

(** X20.  What [resolveConfigFile] returns can be relied on: a file it returns
    exists, and is the path it was given when that is not a directory, or
    else the first candidate [playwright.config] + extension that exists in
    the directory; it returns nothing only for an existing directory in
    which no candidate exists; and the only error is that the path does not
    exist.  (A candidate whose resolved path is the empty string is passed
    over, as the code tests the path for truth.) *)
Theorem resolveConfigFile_sound h target :
  let candidate ext := path_resolve h [target; "playwright.config" +:+ ext] in
  (∀ file, resolveConfigFile h target = Returns (Some file) →
     existsSync h target = true ∧ existsSync h file = true ∧
     if isDirectory h target
     then ∃ i ext, extensions !! i = Some ext ∧ file = candidate ext ∧
            ∀ j ext', (j < i)%nat → extensions !! j = Some ext' →
              existsSync h (candidate ext') = false ∨ candidate ext' = ""
     else file = target) ∧
  (resolveConfigFile h target = Returns None →
     existsSync h target = true ∧ isDirectory h target = true ∧
     ∀ ext, ext ∈ extensions →
       existsSync h (candidate ext) = false ∨ candidate ext = "") ∧
  (∀ e, resolveConfigFile h target = Throws e →
     existsSync h target = false ∧
     e = PlainError (target +:+ " does not exist")).
Proof.
  intros candidate. unfold resolveConfigFile.
  destruct (existsSync h target) eqn:Hex; cbn [negb].
  2:{ split; [done|]. split; [done|]. by intros e [= <-]. }
  destruct (isDirectory h target) eqn:Hdir.
  - destruct (given _) as [f|] eqn:Hg.
    + split; [|done]. intros file [= ->].
      apply given_inv in Hg as [Hg _].
      apply firstConfigFile_Some in Hg as (i & ext & Hi & Hf & Hfex & _ & Hbefore).
      split; [done|]. split; [done|]. exists i, ext. by repeat split.
    + split; [done|]. split; [|done]. intros _.
      split; [done|]. split; [done|].
      apply given_None in Hg as [Hg|Hg].
      * by apply firstConfigFile_None.
      * by apply firstConfigFile_Some in Hg as (_ & _ & _ & _ & _ & ? & _).
  - split; [|done]. by intros file [= <-].
Qed.

Lemma resolveConfigFile_sound_witness :
  resolveConfigFile demoHost "/w" = Returns (Some "/w/playwright.config.js") ∧
  existsSync demoHost "/w/playwright.config.js" = true.
Proof.
  assert (resolveConfigFile demoHost "/w" = Returns (Some "/w/playwright.config.js"))
    as H by (vm_compute; reflexivity).
  split; [exact H|].
  exact (proj1 (proj2 (proj1 (resolveConfigFile_sound demoHost "/w") _ H))).
Defined.

(** X21.  A configuration that [loadConfig] returns was loaded by
    [loadUserConfig] and has been through every check: it is an object the
    schema accepts, its own [testIgnore], [testMatch] and [use] are in
    order, a truthy [projects] is an array of accepted projects, and a
    [tsconfig] that is a non-empty string names a file that exists. *)
Theorem loadConfig_checked {Overrides} h location (overrides : option Overrides)
    metadata full :
  loadConfig h location overrides metadata = Returns full →
  let file := default "<default config>" (given (resolvedConfigFile location)) in
  let config := userConfig full in
  loadUserConfig h location = Returns config ∧
  typeof_object config = true ∧ truthy config = true ∧
  parse (testConfigSchema h) config = [] ∧
  acceptedProject config = true ∧
  (element config "use" ≠ VUndef →
     parse testOptionsSchema (element config "use") = []) ∧
  (truthy (element config "projects") = true →
     ∃ items, element config "projects" = VArr items ∧
              Forall (λ p, acceptedProject p = true) items) ∧
  (∀ name, element config "tsconfig" = VStr name → name ≠ "" →
     existsSync h (path_resolve h [file; ".."; name]) = true).
Proof.
  intros (_ & _ & _ & _ & Hu & Hv & _)%loadConfig_inv file config.
  split; [done|]. by apply validateConfig_checked.
Qed.

Lemma loadConfig_checked_witness :
  let location := {| resolvedConfigFile := Some "/w/playwright.config.js";
                     configDir := "/w" |} in
  let exported := obj [("default", obj [
    ("tsconfig", VStr "playwright.config.cjs");
    ("projects", VArr [obj [("name", VStr "a")]])])] in
  ∃ full, loadConfig (Overrides := unit) (exporting exported) location None None
            = Returns full ∧
          existsSync (exporting exported)
            (path_resolve (exporting exported)
               ["/w/playwright.config.js"; ".."; "playwright.config.cjs"]) = true.
Proof.
  intros location exported.
  assert (∃ full, loadConfig (Overrides := unit) (exporting exported) location
                    None None = Returns full) as [full Hfull]
    by (eexists; vm_compute; reflexivity).
  exists full. split; [exact Hfull|].
  destruct (loadConfig_checked _ _ _ _ _ Hfull) as (_ & _ & _ & _ & _ & _ & _ & Hts).
  apply Hts; [|done].
  vm_compute in Hfull. injection Hfull as <-. vm_compute. reflexivity.
Defined.



(** X24.  [loadConfigFromFile] loads what [resolveConfigLocation] finds: the
    configuration it returns carries that location, whose file, when there
    is one, exists; it has passed [validateConfig] for that file; the
    overrides are the caller's and there is no metadata.  When the path
    does not exist, the error says so and nothing is loaded. *)
Theorem loadConfigFromFile_Returns {Overrides} h configFile
    (overrides : option Overrides) :
  (∀ full, loadConfigFromFile h configFile overrides = Returns full →
     resolveConfigLocation h configFile = Returns (location full) ∧
     (∀ file, resolvedConfigFile (location full) = Some file →
        existsSync h file = true) ∧
     validateConfig h
       (default "<default config>" (given (resolvedConfigFile (location full))))
       (userConfig full) = Returns () ∧
     configCLIOverrides full = overrides ∧
     metadata full = None ∧
     defineConfigWasUsed full = marked (userConfig full)) ∧
  (∀ e, resolveConfigLocation h configFile = Throws e →
     loadConfigFromFile h configFile overrides = Throws e ∧
     ∃ target, e = PlainError (target +:+ " does not exist") ∧
               existsSync h target = false).
Proof.
  split.
  - intros full. unfold loadConfigFromFile.
    intros (location & Hloc & Hload)%bind_Returns.
    apply loadConfig_inv in Hload as (<- & Ho & Hm & _ & _ & Hv & Hd).
    split; [done|]. split; [|done].
    intros file Hfile.
    apply resolveConfigLocation_Returns in Hloc as (target & _ & Hr & _).
    rewrite Hfile in Hr. by apply resolveConfigFile_Some in Hr.
  - intros e He. unfold loadConfigFromFile. rewrite He. split; [done|].
    revert He. unfold resolveConfigLocation, resolveConfigFile.
    set (target := match given configFile with Some f => _ | None => _ end).
    destruct (existsSync h target) eqn:Hex; cbn [negb].
    + destruct (isDirectory h target); [|done].
      by destruct (given (resolveConfigFileFromDirectory h target)).
    + intros [= <-]. eauto.
Qed.

Lemma loadConfigFromFile_Returns_witness :
  ∃ full, loadConfigFromFile (Overrides := unit) demoHost None None = Returns full ∧
          resolvedConfigFile (location full) = Some "/w/playwright.config.js" ∧
          existsSync demoHost "/w/playwright.config.js" = true.
Proof.
  eexists. split; [vm_compute; reflexivity|]. split; [reflexivity|].
  refine (proj1 (proj2 (proj1 (loadConfigFromFile_Returns (Overrides := unit)
    demoHost None None) _ _)) _ _).
  - vm_compute. reflexivity.
  - reflexivity.
Defined.
